(** * pilot-jira-to-planfix: change detection and reconciliation

    A shallow embedding of the synchronisation bridge's core:
    - [Hash]: [src/utils/hash.py], canonical text and fingerprints;
    - [Repository]: [src/storage/repository.py], the Redis scripts;
    - [JiraComments]: the comment pagination of [src/jira/methods.py],
      with [_parse_jira_dt] and the sort on the parsed times;
    - [Sync]: the issue reconciliation of [src/__main__.py];
    - [Loop]: [job] and [main], the polling loop of [src/__main__.py];
    - [JiraFiles]: file names and download retries of
      [src/jira/methods.py];
    - [Planfix]: the character data of [src/planfix/methods.py];
    - [Comments]: the comment links of [src/storage/repository.py] and
      the comment reconciliation of [src/__main__.py].

    Python strings are lists of code points, digests are byte strings,
    Redis hashes are records of optional fields, and every awaited call
    that can raise takes its outcome from an explicit environment. *)

From Stdlib Require Import ZArith NArith Lia List Bool Ascii String.
From Stdlib Require DecimalString.
From stdpp Require Import gmap strings list sorting.

Import ListNotations.
Open Scope Z_scope.

(** ** Python exceptions and results *)

(** The exception classes the orchestration distinguishes.  All three
    derive from [Exception]; [SystemExit] does not and is a separate
    result below. *)
Inductive exn :=
  | RuntimeError      (* raised by every planfix call on a failed request *)
  | StopIteration     (* [next] on an exhausted generator *)
  | OtherException.   (* any other subclass of [Exception] *)

Inductive outcome (A : Type) :=
  | Ok (a : A)
  | Raise (e : exn).
Arguments Ok {A} a.
Arguments Raise {A} e.

(** [not l] on a Python list. *)
Definition bool_of_nil {A} (l : list A) : bool :=
  match l with [] => true | _ => false end.

(** * [src/utils/hash.py] *)

Module Hash.

(** A Python [str]: a sequence of Unicode code points. *)
Definition text := list N.

Definition LT : N := 60.     (* '<' *)
Definition GT : N := 62.     (* '>' *)
Definition AMP : N := 38.    (* '&' *)
Definition CR : N := 13.     (* '\r' *)
Definition LF : N := 10.     (* '\n' *)
Definition TAB : N := 9.     (* '\t' *)
Definition SP : N := 32.     (* ' ' *)

(** The three functions [canon_text] takes from the Python standard
    library: [html.unescape], [unicodedata.normalize("NFC", _)] and
    [str.casefold].  Their tables are not part of the repository, so the
    canonicaliser is parametrised by them. *)
Class TextLib := {
  html_unescape : text -> text;
  nfc : text -> text;
  casefold : text -> text
}.

(** [r"<[^>]+>"] matches at a ['<'] exactly when the next character is
    not ['>'] and some later character is ['>']; the match then runs up
    to the first ['>']. *)
Definition opens_tag (r : text) : bool :=
  match r with
  | [] => false
  | d :: r' => negb (d =? GT)%N && existsb (fun c => c =? GT)%N r'
  end.

(** [re.sub(r"<[^>]+>", "", s)], scanning left to right; [inside] is
    true while the scan is within a match, up to its closing ['>']. *)
Fixpoint sub_tags (inside : bool) (s : text) : text :=
  match s with
  | [] => []
  | c :: r =>
      if inside then
        if (c =? GT)%N then sub_tags false r else sub_tags true r
      else if (c =? LT)%N && opens_tag r then sub_tags true r
      else c :: sub_tags false r
  end.

Definition strip_tags (s : text) : text := sub_tags false s.

(** [s.replace("\r\n", "\n")]: the ['\r'] of each pair is dropped. *)
Fixpoint replace_crlf (s : text) : text :=
  match s with
  | [] => []
  | c :: r =>
      if (c =? CR)%N && match r with d :: _ => (d =? LF)%N | [] => false end
      then replace_crlf r
      else c :: replace_crlf r
  end.

(** [s.replace("\r", "\n")]. *)
Definition replace_cr (s : text) : text :=
  map (fun c => if (c =? CR)%N then LF else c) s.

(** [ZW_RE]: the zero-width characters U+200B to U+200D and U+FEFF. *)
Definition is_zero_width (c : N) : bool :=
  ((8203 <=? c) && (c <=? 8205) || (c =? 65279))%N.

Definition ZW_RE_sub (s : text) : text :=
  List.filter (fun c => negb (is_zero_width c)) s.

(** [SPACE_RE = re.compile(r"[ \t]+")]. *)
Definition is_blank (c : N) : bool := ((c =? SP) || (c =? TAB))%N.

(** [SPACE_RE.sub(" ", s)]; [in_run] is true while the scan is within a
    run of blanks whose single space has already been emitted. *)
Fixpoint sub_spaces (in_run : bool) (s : text) : text :=
  match s with
  | [] => []
  | c :: r =>
      if is_blank c then
        if in_run then sub_spaces true r else SP :: sub_spaces true r
      else c :: sub_spaces false r
  end.

Definition SPACE_RE_sub (s : text) : text := sub_spaces false s.

(** The characters [str.strip()] removes: those for which
    [str.isspace] holds. *)
Definition is_space (c : N) : bool :=
  ((9 <=? c) && (c <=? 13) || (28 <=? c) && (c <=? 32)
   || (c =? 133) || (c =? 160) || (c =? 5760)
   || (8192 <=? c) && (c <=? 8202)
   || (c =? 8232) || (c =? 8233) || (c =? 8239) || (c =? 8287)
   || (c =? 12288))%N.

Fixpoint lstrip (s : text) : text :=
  match s with
  | [] => []
  | c :: r => if is_space c then lstrip r else s
  end.

Fixpoint rstrip (s : text) : text :=
  match s with
  | [] => []
  | c :: r =>
      match rstrip r with
      | [] => if is_space c then [] else [c]
      | r' => c :: r'
      end
  end.

Definition strip (s : text) : text := rstrip (lstrip s).

Section Canon.
Context {L : TextLib}.

Definition canon_text (s : option text) (strip_html : bool) : text :=
  let s := match s with None => [] | Some s => s end in
  let s := if strip_html then strip_tags s else s in
  let s := html_unescape s in
  let s := replace_cr (replace_crlf s) in
  let s := nfc s in
  let s := ZW_RE_sub s in
  let s := SPACE_RE_sub s in
  let s := strip s in
  casefold s.
End Canon.

(** *** A library instance for running examples

    The ASCII fragment of the three library functions: the five
    predefined references [&lt;] [&gt;] [&amp;] [&quot;] [&#39;] are
    decoded, ASCII letters are lower-cased and normalisation leaves the
    text alone.  Python computes the same on every ASCII string in which
    each ['&'] starts one of these five references. *)

Definition starts_with (p s : text) : bool :=
  bool_decide (take (length p) s = p).

Definition references : list (text * N) :=
  [ ([108; 116; 59], LT);           (* lt;   *)
    ([103; 116; 59], GT);           (* gt;   *)
    ([97; 109; 112; 59], AMP);      (* amp;  *)
    ([113; 117; 111; 116; 59], 34); (* quot; *)
    ([35; 51; 57; 59], 39) ]%N.     (* #39;  *)

Definition reference_at (r : text) : option (nat * N) :=
  match List.find (fun e => starts_with (fst e) r) references with
  | Some (p, c) => Some (length p, c)
  | None => None
  end.

(** [skip] counts the characters of a reference still to be dropped. *)
Fixpoint ascii_unescape (skip : nat) (s : text) : text :=
  match s with
  | [] => []
  | c :: r =>
      match skip with
      | S k => ascii_unescape k r
      | O =>
          if (c =? AMP)%N then
            match reference_at r with
            | Some (k, d) => d :: ascii_unescape k r
            | None => c :: ascii_unescape O r
            end
          else c :: ascii_unescape O r
      end
  end.

Definition is_ascii (c : N) : bool := (c <? 128)%N.

Definition ascii_lower (c : N) : N :=
  if ((65 <=? c) && (c <=? 90))%N then (c + 32)%N else c.

Definition ascii_lib : TextLib := {|
  html_unescape := ascii_unescape O;
  nfc := fun s => s;
  casefold := map ascii_lower
|}.

(** Code points of an ASCII literal. *)
Definition of_string (s : string) : text :=
  map (fun a => N_of_ascii a) (list_ascii_of_string s).

(** *** Fingerprints of attachment id sets *)

(** The low [n] bytes of [v], least significant first; on a negative
    [v] these are the bytes of its two's complement. *)
Fixpoint le_bytes (n : nat) (v : Z) : list Z :=
  match n with
  | O => []
  | S n' => Z.land v 255 :: le_bytes n' (Z.shiftr v 8)
  end.

(** The number a little-endian byte sequence stands for. *)
Fixpoint le_value (bs : list Z) : Z :=
  match bs with
  | [] => 0
  | b :: r => b + 256 * le_value r
  end.

(** [struct.pack("<Q", v)]; [None] stands for [struct.error]. *)
Definition pack_Q (v : Z) : option (list Z) :=
  if (0 <=? v) && (v <? 2 ^ 64) then Some (le_bytes 8 v) else None.

(** [struct.pack("<q", v)]. *)
Definition pack_q (v : Z) : option (list Z) :=
  if (- 2 ^ 63 <=? v) && (v <? 2 ^ 63) then Some (le_bytes 8 v) else None.

Fixpoint pack_ints (ints : list Z) : option (list Z) :=
  match ints with
  | [] => Some []
  | x :: r =>
      match pack_q x, pack_ints r with
      | Some b, Some bs => Some (b ++ bs)
      | _, _ => None
      end
  end.

(** The [payload] that [hash_seq] builds before hashing. *)
Definition payload (ints : list Z) : option (list Z) :=
  match pack_Q (Z.of_nat (length ints)), pack_ints ints with
  | Some n, Some bs => Some (n ++ bs)
  | _, _ => None
  end.

(** [sorted(s)] on a set of integers. *)
Definition sorted (s : gset Z) : list Z := merge_sort Z.le (elements s).

Section Digest.
(** [blake3.blake3(payload).hexdigest(16)]. *)
Variable blake3_hexdigest16 : list Z -> string.

Definition hash_seq (ints : list Z) : option string :=
  match payload ints with
  | Some p => Some (blake3_hexdigest16 p)
  | None => None
  end.

Definition hash_attachment_id (ints : list Z) : option string :=
  let uniq_sorted := sorted (list_to_set ints) in
  hash_seq uniq_sorted.
End Digest.

(** *** Digest comparison *)

(** Truth value of a [str | None]: [None] and the empty string are
    false. *)
Definition truthy (h : option string) : bool :=
  match h with
  | Some s => negb (String.eqb s "")
  | None => false
  end.

(** [(h or b"")] followed by [encode] when the value is a [str]. *)
Definition or_empty (h : option string) : string :=
  if truthy h then default EmptyString h else EmptyString.

(** [hmac.compare_digest]: equality of the two byte strings. *)
Definition compare_digest (a b : string) : bool := String.eqb a b.

Definition hashes_equal (h1 h2 : option string) : bool :=
  let a := or_empty h1 in
  let b := or_empty h2 in
  compare_digest a b.

End Hash.

(** * [src/storage/repository.py] *)

Module Repository.

(** The hash stored at [issue:{id}]; a field that was never set is
    [None]. *)
Record issue_rec := {
  created_at : option Z;
  h_description : option string;
  h_attachment : option string;
  updated_at : option Z
}.

(** The hash stored at [issue_link:{j_issue}]. *)
Record link_rec := {
  l_created_at : option Z;
  j_issue : option Z;
  p_issue : option Z
}.

(** The Redis server: the two key spaces the issue reconciliation
    uses, and the second returned by [TIME]. *)
Record redis := {
  issues : gmap Z issue_rec;
  links : gmap Z link_rec;
  clock : Z
}.

Definition set_created_at (v : Z) (r : issue_rec) : issue_rec :=
  {| created_at := Some v; h_description := h_description r;
     h_attachment := h_attachment r; updated_at := updated_at r |}.

Definition set_h_description (v : string) (r : issue_rec) : issue_rec :=
  {| created_at := created_at r; h_description := Some v;
     h_attachment := h_attachment r; updated_at := updated_at r |}.

Definition set_h_attachment (v : string) (r : issue_rec) : issue_rec :=
  {| created_at := created_at r; h_description := h_description r;
     h_attachment := Some v; updated_at := updated_at r |}.

Definition set_updated_at (v : Z) (r : issue_rec) : issue_rec :=
  {| created_at := created_at r; h_description := h_description r;
     h_attachment := h_attachment r; updated_at := Some v |}.

Definition no_fields : issue_rec :=
  {| created_at := None; h_description := None;
     h_attachment := None; updated_at := None |}.

(** [UPSERT_J_ISSUE_LUA] on the hash at [KEYS[1]] ([None] when
    [EXISTS] is 0), with [now] the answer of [TIME].  Returns the hash
    afterwards and the table [changed]. *)
Definition UPSERT_J_ISSUE_LUA (now : Z) (h : option issue_rec)
    (new_desc new_att : string) : issue_rec * list string :=
  let changed := [] in
  let r := match h with
           | None => set_created_at now no_fields
           | Some r => r
           end in
  let old_desc := h_description r in
  let old_att := default EmptyString (h_attachment r) in
  let '(r, changed) :=
    if match old_desc with
       | None => true
       | Some d => negb (String.eqb d new_desc)
       end
    then (set_h_description new_desc r, changed ++ ["desc"%string])
    else (r, changed) in
  let '(r, changed) :=
    if negb (String.eqb old_att new_att)
    then (set_h_attachment new_att r, changed ++ ["attach"%string])
    else (r, changed) in
  let r := if (0 <? length changed)%nat then set_updated_at now r else r in
  (r, changed).

(** [UPSERT_LINK_LUA]; returns the hash afterwards and [is_new]. *)
Definition UPSERT_LINK_LUA (now : Z) (h : option link_rec) (j p : Z)
    : link_rec * Z :=
  let '(created, is_new) :=
    match h with
    | None => (Some now, 1)
    | Some r => (l_created_at r, 0)
    end in
  ({| l_created_at := created; j_issue := Some j; p_issue := Some p |},
   is_new).

(** [bool(x)] of a list returned by a script. *)
Definition bool_of_list {A} (l : list A) : bool :=
  match l with [] => false | _ => true end.

Definition get_issue (r : redis) (issue_id : Z) : option issue_rec :=
  issues r !! issue_id.

Definition upsert_issue_hash (r : redis) (issue_id : Z)
    (h_description : string) (h_attachment : option string)
    : redis * bool :=
  let '(rec, is_new) :=
    UPSERT_J_ISSUE_LUA (clock r) (issues r !! issue_id)
      h_description (Hash.or_empty h_attachment) in
  ({| issues := <[issue_id := rec]> (issues r);
      links := links r; clock := clock r |},
   bool_of_list is_new).

Definition upsert_issue_link (r : redis) (j_issue p_issue : Z) : redis :=
  let '(rec, _) := UPSERT_LINK_LUA (clock r) (links r !! j_issue)
                     j_issue p_issue in
  {| issues := issues r; links := <[j_issue := rec]> (links r);
     clock := clock r |}.

Definition get_issue_link (r : redis) (j_issue : Z) : option link_rec :=
  links r !! j_issue.

(** [list_issue_ids]: the ids of the keys [issue:{id}]. *)
Definition list_issue_ids (r : redis) : list Z :=
  elements (dom (issues r)).

Definition empty_redis (t : Z) : redis :=
  {| issues := ∅; links := ∅; clock := t |}.

(** The passage of time between two calls. *)
Definition at_time (t : Z) (r : redis) : redis :=
  {| issues := issues r; links := links r; clock := t |}.

End Repository.

(** * [src/jira/methods.py]: comment pagination *)

Module JiraComments.

(** One element of ["comments"] in a response of the comment listing. *)
Record raw_comment := {
  c_id : string;
  c_author : string;
  c_created : string;
  c_renderedBody : option Hash.text
}.

(** The fields of a response that [get_issue_comments] reads. *)
Record page := {
  comments : list raw_comment;   (* data.get("comments") or [] *)
  total : Z                      (* int(data.get("total", 0)) *)
}.

(** A [datetime]: a naive one as its distance from [datetime.min], an
    aware one as its instant on the UTC time line. *)
Inductive datetime :=
  | Naive (t : Z)
  | Aware (t : Z).

Definition datetime_min : datetime := Naive 0.

(** [a < b] on two [datetime]: [TypeError] between a naive and an
    aware one. *)
Definition datetime_lt (a b : datetime) : outcome bool :=
  match a, b with
  | Naive x, Naive y => Ok (x <? y)
  | Aware x, Aware y => Ok (x <? y)
  | _, _ => Raise OtherException
  end.

(** The two parsers of the standard library that [_parse_jira_dt]
    calls; [None] is [ValueError]. *)
Record datetime_lib := {
  fromisoformat : string -> option datetime;
  strptime : string -> string -> option datetime
}.

Record row := {
  id : string;
  issue_id : Z;
  author : string;
  created : string;
  description : option Hash.text;
  created_dt : datetime          (* the key "_created_dt", popped at the end *)
}.

(** [len(s) >= 5 and (s[-5] in "+-") and s[-3] != ":"]. *)
Definition offset_without_colon (s : string) : bool :=
  let n := String.length s in
  (5 <=? n)%nat &&
  match String.get (n - 5) s, String.get (n - 3) s with
  | Some sign, Some c =>
      (Ascii.eqb sign "+" || Ascii.eqb sign "-") && negb (Ascii.eqb c ":")
  | _, _ => false
  end.

(** [s[:-2] + ":" + s[-2:]]. *)
Definition with_colon (s : string) : string :=
  let n := String.length s in
  (String.substring 0 (n - 2) s ++ ":" ++ String.substring (n - 2) 2 s)%string.

(** [s.replace(":", "", 1)]. *)
Fixpoint without_first_colon (s : string) : string :=
  match s with
  | EmptyString => EmptyString
  | String c r =>
      if Ascii.eqb c ":" then r else String c (without_first_colon r)
  end.

Section Listing.
Variable lib : datetime_lib.
(** The answer of the tracker to a request with [startAt]; [Raise]
    when the request or [raise_for_status] raises. *)
Variable server : Z -> outcome page.

Definition _parse_jira_dt (s : string) : datetime :=
  if (String.length s =? 0)%nat then datetime_min
  else
    let s := if offset_without_colon s then with_colon s else s in
    match fromisoformat lib s with
    | Some d => d
    | None =>
        match strptime lib (without_first_colon s)
                "%Y-%m-%dT%H:%M:%S.%f%z" with
        | Some d => d
        | None =>
            match strptime lib (without_first_colon s)
                    "%Y-%m-%dT%H:%M:%S%z" with
            | Some d => d
            | None => datetime_min
            end
        end
    end.

Definition make_row (issue : Z) (c : raw_comment) : row :=
  {| id := c_id c; issue_id := issue; author := c_author c;
     created := c_created c; description := c_renderedBody c;
     created_dt := _parse_jira_dt (c_created c) |}.

(** [rows.sort(key=...)]: a stable sort on the key, here by insertion
    from the left; a comparison of two keys that raises ends it. *)
Fixpoint insert_row (x : row) (l : list row) : outcome (list row) :=
  match l with
  | [] => Ok [x]
  | y :: r =>
      match datetime_lt (created_dt x) (created_dt y) with
      | Raise e => Raise e
      | Ok true => Ok (x :: l)
      | Ok false =>
          match insert_row x r with
          | Ok r' => Ok (y :: r')
          | Raise e => Raise e
          end
      end
  end.

Definition sort_rows (l : list row) : outcome (list row) :=
  fold_left
    (fun acc x =>
       match acc with
       | Ok sorted => insert_row x sorted
       | Raise e => Raise e
       end)
    l (Ok []).

(** The [while True] loop with the statements after it; [fuel] bounds
    the number of requests and [None] is a loop that has not ended
    within it. *)
Fixpoint fetch_pages (fuel : nat) (issue : Z) (start_at : Z)
    (rows : list row) : option (outcome (list row)) :=
  match fuel with
  | O => None
  | S fuel' =>
      match server start_at with
      | Raise e => Some (Raise e)
      | Ok data =>
          match comments data with
          | [] => Some (Ok [])                       (* return [] *)
          | cs =>
              let rows := rows ++ map (make_row issue) cs in
              let start_at := start_at + Z.of_nat (length cs) in
              if (start_at >=? total data) || bool_of_nil cs
              then Some (sort_rows rows)             (* break *)
              else fetch_pages fuel' issue start_at rows
          end
      end
  end.

Definition get_issue_comments (fuel : nat) (issue : Z)
    : option (outcome (list row)) :=
  fetch_pages fuel issue 0 [].
End Listing.

End JiraComments.

(** * [src/__main__.py]: reconciliation of issues *)

Module Sync.

(** An element of [jira_issues_list_data], with [id] already passed
    through [int]. *)
Record jira_issue := {
  id : Z;
  title : Hash.text;
  description : option Hash.text;
  attachment : list Z
}.

(** An element of [issue_hash_list]. *)
Record issue_hash := {
  issue_id : Z;
  h_description : string;
  h_attachment : option string
}.

(** An element of [updated_issues_data]: which fingerprints differ. *)
Record issue_data := {
  d_id : Z;
  d_description : bool;
  d_attachment : bool
}.

Inductive alert :=
  | HashCompareFailed
  | IssueUpsertFailed (j_issue : Z)
  | DescriptionUpdateFailed (p_issue j_issue : Z)
  | AttachmentUpdateFailed (p_issue j_issue : Z)
  | TaskCreationFailed (j_issue : Z)
  | AttachmentUploadFailed (p_issue : Z).

(** The awaited calls of a pass, in the order they are made. *)
Inductive event :=
  | ListIssueIds
  | GetIssue (issue_id : Z)
  | UpsertIssueHash (issue_id : Z) (h_description : string)
      (h_attachment : option string)
  | GetIssueLink (j_issue : Z)
  | UpsertIssueLink (j_issue p_issue : Z)
  | UpdateDescriptionTask (p_issue j_issue : Z)
  | GetIssueAttachments (issue_key : Z)
  | UploadFile (planfix_task_id jira_task_id : Z)
  | AddTask (j_issue : Z)
  | SendAlert (a : alert).

(** What the collaborators answer.  Every answer may depend on the
    calls made so far.  A store call that raises leaves the store as it
    was. *)
Record world := {
  redis_fault : list event -> event -> option exn;
  add_task : list event -> jira_issue -> outcome Z;
  update_description_task : list event -> Z -> jira_issue -> outcome unit;
  get_issue_attachments : list event -> list Z -> Z -> outcome unit;
  upload_file : list event -> Z -> Z -> outcome unit
}.

Record state := {
  db : Repository.redis;
  trace : list event
}.

(** A coroutine of the pass: it runs on a state and returns or raises. *)
Definition M (A : Type) : Type := state -> outcome A * state.

Definition ret {A} (a : A) : M A := fun s => (Ok a, s).

Definition raise {A} (e : exn) : M A := fun s => (Raise e, s).

Definition bind {A B} (m : M A) (k : A -> M B) : M B :=
  fun s =>
    match m s with
    | (Ok a, s') => k a s'
    | (Raise e, s') => (Raise e, s')
    end.

Notation "x <- m ;; k" := (bind m (fun x => k))
  (at level 100, m at level 99, k at level 200, right associativity).
Notation "m ;;; k" := (bind m (fun _ => k))
  (at level 100, k at level 200, right associativity).

(** [try: m except <classes>: handler]. *)
Definition try_except {A} (m : M A) (caught : exn -> bool) (handler : M A)
    : M A :=
  fun s =>
    match m s with
    | (Ok a, s') => (Ok a, s')
    | (Raise e, s') => if caught e then handler s' else (Raise e, s')
    end.

Definition Exception (e : exn) : bool := true.

Definition is_RuntimeError (e : exn) : bool :=
  match e with RuntimeError => true | _ => false end.

Definition record (e : event) (s : state) : state :=
  {| db := db s; trace := trace s ++ [e] |}.

(** [send_alert_to_chat]: it returns also when the message could not
    be sent. *)
Definition send_alert_to_chat (a : alert) : M unit :=
  fun s => (Ok tt, record (SendAlert a) s).

(** [next(i for i in l if p(i))].  A [StopIteration] that leaves a
    coroutine reaches its caller as a [RuntimeError]; no handler of the
    pass lies between the two, so the class is left as it is. *)
Definition next {A} (p : A -> bool) (l : list A) : M A :=
  match List.find p l with
  | Some a => ret a
  | None => raise StopIteration
  end.

Section Pass.
Variable w : world.

(** A read of the store. *)
Definition store_read {A} (e : event) (f : Repository.redis -> A) : M A :=
  fun s =>
    match redis_fault w (trace s) e with
    | Some x => (Raise x, record e s)
    | None => (Ok (f (db s)), record e s)
    end.

(** A script run on the store. *)
Definition store_write {A} (e : event)
    (f : Repository.redis -> Repository.redis * A) : M A :=
  fun s =>
    match redis_fault w (trace s) e with
    | Some x => (Raise x, record e s)
    | None =>
        let '(r, a) := f (db s) in
        (Ok a, {| db := r; trace := trace s ++ [e] |})
    end.

(** A call of a collaborator that does not touch the store. *)
Definition call {A} (e : event) (answer : list event -> outcome A) : M A :=
  fun s => (answer (trace s), record e s).

Definition repo_list_issue_ids : M (list Z) :=
  store_read ListIssueIds Repository.list_issue_ids.

Definition repo_get_issue (issue_id : Z) : M (option Repository.issue_rec) :=
  store_read (GetIssue issue_id) (fun r => Repository.get_issue r issue_id).

Definition repo_upsert_issue_hash (issue_id : Z) (h_description : string)
    (h_attachment : option string) : M bool :=
  store_write (UpsertIssueHash issue_id h_description h_attachment)
    (fun r => Repository.upsert_issue_hash r issue_id h_description
                h_attachment).

Definition repo_get_issue_link (j_issue : Z)
    : M (option Repository.link_rec) :=
  store_read (GetIssueLink j_issue)
    (fun r => Repository.get_issue_link r j_issue).

Definition repo_upsert_issue_link (j_issue p_issue : Z) : M unit :=
  store_write (UpsertIssueLink j_issue p_issue)
    (fun r => (Repository.upsert_issue_link r j_issue p_issue, tt)).

Definition planfix_add_task (d : jira_issue) : M Z :=
  call (AddTask (id d)) (fun t => add_task w t d).

Definition planfix_update_description_task (p_issue : Z) (d : jira_issue)
    : M unit :=
  call (UpdateDescriptionTask p_issue (id d))
    (fun t => update_description_task w t p_issue d).

Definition jira_get_issue_attachments (attachments : list Z)
    (issue_key : Z) : M unit :=
  call (GetIssueAttachments issue_key)
    (fun t => get_issue_attachments w t attachments issue_key).

Definition planfix_upload_file (planfix_task_id jira_task_id : Z) : M unit :=
  call (UploadFile planfix_task_id jira_task_id)
    (fun t => upload_file w t planfix_task_id jira_task_id).

(** *** [in_redis_issues] *)

(** The comparison of the attachment fingerprints, lines 207 to 213. *)
Definition equal_attachment (redis_h jira_h : option string) : bool :=
  if Hash.truthy redis_h && Hash.truthy jira_h
  then Hash.hashes_equal redis_h jira_h
  else if negb (Hash.truthy redis_h) && negb (Hash.truthy jira_h)
  then true
  else false.

(** The body of the [try] for one issue: [None] when both
    fingerprints are equal, the entry to append otherwise. *)
Definition compare_issue (issue_hash_list : list issue_hash) (issue_id' : Z)
    : M (option issue_data) :=
  redis_issue <- repo_get_issue issue_id' ;;
  jira_issue <- next (fun i => bool_decide (issue_id i = issue_id'))
                  issue_hash_list ;;
  match redis_issue with
  | None => raise OtherException          (* None['h_description'] *)
  | Some redis_issue =>
      match Repository.h_description redis_issue with
      | None => raise OtherException      (* KeyError *)
      | Some stored =>
          let equal_description :=
            Hash.hashes_equal (Some stored) (Some (h_description jira_issue)) in
          let equal_attachment :=
            equal_attachment (Repository.h_attachment redis_issue)
              (h_attachment jira_issue) in
          let equal :=
            if equal_description && equal_attachment then false else true in
          if equal then
            ret (Some {| d_id := issue_id';
                         d_description := negb equal_description;
                         d_attachment := negb equal_attachment |})
          else ret None
      end
  end.

(** The two lists are the ones [job] passes in; the appended lists
    are returned. *)
Fixpoint in_redis_issues (in_redis_issues_ids : list Z)
    (issue_hash_list : list issue_hash)
    (updated_issues_data : list issue_data)
    (upload_issues_to_planfix_ids : list Z)
    : M (list issue_data * list Z) :=
  match in_redis_issues_ids with
  | [] => ret (updated_issues_data, upload_issues_to_planfix_ids)
  | issue_id' :: rest =>
      r <- try_except (compare_issue issue_hash_list issue_id') Exception
             (send_alert_to_chat HashCompareFailed ;;; ret None) ;;
      match r with
      | Some d =>
          in_redis_issues rest issue_hash_list
            (updated_issues_data ++ [d])
            (upload_issues_to_planfix_ids ++ [issue_id'])
      | None =>
          in_redis_issues rest issue_hash_list updated_issues_data
            upload_issues_to_planfix_ids
      end
  end.

(** *** [upload_issues_to_planfix] *)

(** Lines 246 to 265: the issue records are written. *)
Fixpoint upsert_hashes (issue_hash_list : list issue_hash)
    (upload_issues_to_planfix_ids : list Z) : M unit :=
  match issue_hash_list with
  | [] => ret tt
  | i :: rest =>
      (if bool_decide (issue_id i ∈ upload_issues_to_planfix_ids) then
         try_except
           (repo_upsert_issue_hash (issue_id i) (h_description i)
              (h_attachment i) ;;; ret tt)
           Exception
           (send_alert_to_chat (IssueUpsertFailed (issue_id i)))
       else ret tt) ;;;
      upsert_hashes rest upload_issues_to_planfix_ids
  end.

(** Lines 267 to 276: the issues are split by their link record. *)
Fixpoint split_by_link (ids : list Z) (in_planfix_ids : list (Z * Z))
    (not_in_planfix_ids : list Z) : M (list (Z * Z) * list Z) :=
  match ids with
  | [] => ret (in_planfix_ids, not_in_planfix_ids)
  | issue_id' :: rest =>
      jira_planfix <- repo_get_issue_link issue_id' ;;
      match jira_planfix with
      | Some l =>
          match Repository.p_issue l with
          | Some p =>
              split_by_link rest (in_planfix_ids ++ [(p, issue_id')])
                not_in_planfix_ids
          | None => raise OtherException  (* KeyError *)
          end
      | None =>
          split_by_link rest in_planfix_ids
            (not_in_planfix_ids ++ [issue_id'])
      end
  end.

(** Lines 278 to 324: the tasks that exist are updated. *)
Fixpoint update_tasks (in_planfix_ids : list (Z * Z))
    (updated_issues_data : list issue_data)
    (jira_issues_list_data : list jira_issue) : M unit :=
  match in_planfix_ids with
  | [] => ret tt
  | (p, j) :: rest =>
      issue_data' <- next (fun i => bool_decide (d_id i = j))
                       updated_issues_data ;;
      jira_issue_data <- next (fun i => bool_decide (id i = j))
                           jira_issues_list_data ;;
      try_except
        (if d_description issue_data'
         then planfix_update_description_task p jira_issue_data
         else ret tt)
        is_RuntimeError
        (send_alert_to_chat (DescriptionUpdateFailed p j)) ;;;
      try_except
        (if d_attachment issue_data'
         then jira_get_issue_attachments (attachment jira_issue_data) p ;;;
              planfix_upload_file p j
         else ret tt)
        is_RuntimeError
        (send_alert_to_chat (AttachmentUpdateFailed p j)) ;;;
      update_tasks rest updated_issues_data jira_issues_list_data
  end.

(** Lines 326 to 380: the missing tasks are created.  The handler of
    [add_task] ends with [return], which ends the function. *)
Fixpoint create_tasks (not_in_planfix_ids : list Z)
    (jira_issues_list_data : list jira_issue) : M unit :=
  match not_in_planfix_ids with
  | [] => ret tt
  | issue_id' :: rest =>
      jira_issue_data <- next (fun i => bool_decide (id i = issue_id'))
                           jira_issues_list_data ;;
      r <- try_except
             (p <- planfix_add_task jira_issue_data ;; ret (Some p))
             is_RuntimeError
             (send_alert_to_chat (TaskCreationFailed (id jira_issue_data)) ;;;
              ret None) ;;
      match r with
      | None => ret tt                                  (* return *)
      | Some p_issue_id =>
          repo_upsert_issue_link issue_id' p_issue_id ;;;
          try_except
            (match attachment jira_issue_data with
             | [] => ret tt
             | atts =>
                 jira_get_issue_attachments atts issue_id' ;;;
                 planfix_upload_file p_issue_id issue_id'
             end)
            is_RuntimeError
            (send_alert_to_chat (AttachmentUploadFailed p_issue_id)) ;;;
          create_tasks rest jira_issues_list_data
      end
  end.

Definition upload_issues_to_planfix (upload_issues_to_planfix_ids : list Z)
    (issue_hash_list : list issue_hash)
    (updated_issues_data : list issue_data)
    (jira_issues_list_data : list jira_issue) : M unit :=
  match upload_issues_to_planfix_ids with
  | [] => ret tt
  | _ =>
      upsert_hashes issue_hash_list upload_issues_to_planfix_ids ;;;
      split <- split_by_link upload_issues_to_planfix_ids [] [] ;;
      let '(in_planfix_ids, not_in_planfix_ids) := split in
      update_tasks in_planfix_ids updated_issues_data
        jira_issues_list_data ;;;
      create_tasks not_in_planfix_ids jira_issues_list_data
  end.

(** *** The issue part of [job], lines 421 to 443

    [to_list] is the order in which [list(...)] enumerates a set. *)
Definition job_issues (to_list : gset Z -> list Z)
    (issue_hash_list : list issue_hash)
    (jira_issues_list_data : list jira_issue) : M unit :=
  let jira_issues_ids := map issue_id issue_hash_list in
  redis_issues_ids <- repo_list_issue_ids ;;
  let upload_issues_to_planfix_ids :=
    to_list (list_to_set jira_issues_ids ∖ list_to_set redis_issues_ids) in
  let in_redis_issues_ids :=
    to_list (list_to_set jira_issues_ids
               ∖ list_to_set upload_issues_to_planfix_ids) in
  lists <- in_redis_issues in_redis_issues_ids issue_hash_list []
             upload_issues_to_planfix_ids ;;
  let '(updated_issues_data, upload_issues_to_planfix_ids) := lists in
  upload_issues_to_planfix upload_issues_to_planfix_ids issue_hash_list
    updated_issues_data jira_issues_list_data.
End Pass.

(** A run from a store and an empty trace. *)
Definition run {A} (m : M A) (r : Repository.redis) : outcome A * state :=
  m {| db := r; trace := [] |}.

End Sync.

(** * [src/__main__.py]: [job] and [main] *)

Module Loop.

(** How a coroutine ends: it returns, raises a subclass of [Exception],
    or raises [SystemExit], which is not one. *)
Inductive result (A : Type) :=
  | Returns (a : A)
  | Raises (e : exn)
  | SystemExit (code : Z).
Arguments Returns {A} a.
Arguments Raises {A} e.
Arguments SystemExit {A} code.

Inductive alert :=
  | JiraListFailed       (* "Не удалось получить список задач Jira." *)
  | PlanfixSidFailed.    (* "Не удалось получить SID Planfix." *)

Inductive event :=
  | Setup                (* Settings() and logging_config() *)
  | FetchIssues          (* get_issues_self and the gathered get_issue_data *)
  | HashIssues           (* hash_jira_issue_data *)
  | GetSid               (* planfix.get_sid *)
  | Reconcile            (* the block under [storage.redis_client] *)
  | LogError
  | SendAlert (a : alert)
  | Sleep.               (* asyncio.sleep(conf.SLEEP_INTERVAL) *)

(** What happens during one pass: the two calls whose failure [job]
    handles itself, and the outcome of the statements it does not
    guard, which are the set-up, the fingerprints of the fetched issues
    and the rest of the pass (the store, the issues and the
    comments). *)
Record pass := {
  setup : outcome unit;
  fetch_issues : outcome unit;
  hash_issues : outcome unit;
  get_sid : outcome unit;
  reconcile : outcome unit
}.

(** [job]: the calls made and how the coroutine ends. *)
Definition job (p : pass) : list event * result unit :=
  match setup p with
  | Raise e => ([Setup], Raises e)
  | Ok _ =>
      match fetch_issues p with
      | Raise _ =>
          ([Setup; FetchIssues; LogError; SendAlert JiraListFailed],
           SystemExit 1)                                   (* sys.exit(1) *)
      | Ok _ =>
          match hash_issues p with
          | Raise e => ([Setup; FetchIssues; HashIssues], Raises e)
          | Ok _ =>
              match get_sid p with
              | Raise _ =>
                  ([Setup; FetchIssues; HashIssues; GetSid; LogError;
                    SendAlert PlanfixSidFailed],
                   SystemExit 1)                           (* sys.exit(1) *)
              | Ok _ =>
                  match reconcile p with
                  | Ok _ =>
                      ([Setup; FetchIssues; HashIssues; GetSid; Reconcile],
                       Returns tt)
                  | Raise e =>
                      ([Setup; FetchIssues; HashIssues; GetSid; Reconcile],
                       Raises e)
                  end
              end
          end
      end
  end.

(** Whether the process is alive once the scheduled passes are over. *)
Inductive status :=
  | Running
  | Exited (code : Z).

(** [main] under [asyncio.run]: one iteration of [while True] per
    scheduled pass.  [except Exception] takes [Raises]; [SystemExit]
    passes it, the [finally] clause sleeps, and the exception leaves the
    loop, [main] and the [try] of the module, none of whose clauses
    names it. *)
Fixpoint main (schedule : list pass) : list event * status :=
  match schedule with
  | [] => ([], Running)
  | p :: rest =>
      let '(t, r) := job p in
      match r with
      | Returns _ =>
          let '(t', s) := main rest in (t ++ [Sleep] ++ t', s)
      | Raises _ =>
          let '(t', s) := main rest in (t ++ [LogError; Sleep] ++ t', s)
      | SystemExit code => (t ++ [Sleep], Exited code)
      end
  end.

(** The number of passes that were started. *)
Definition passes_started (t : list event) : nat :=
  length (List.filter
            (fun e => match e with Setup => true | _ => false end) t).

End Loop.

(** * Properties of the digest comparison *)

Section HashesEqual.
Import Hash.

Lemma truthy_Some (s : string) : truthy (Some s) = true <-> s <> EmptyString.
Proof.
  unfold truthy. rewrite negb_true_iff. apply String.eqb_neq.
Qed.

Lemma truthy_false (h : option string) :
  truthy h = false <-> h = None \/ h = Some EmptyString.
Proof.
  destruct h as [s|]; simpl.
  - rewrite negb_false_iff, String.eqb_eq. split.
    + intros ->. now right.
    + intros [H|H]; congruence.
  - split; auto.
Qed.

Lemma or_empty_truthy (h : option string) :
  truthy h = true -> exists s, h = Some s /\ s <> EmptyString /\ or_empty h = s.
Proof.
  intros H. destruct h as [s|]; [|discriminate].
  exists s. unfold or_empty. rewrite H. split; [reflexivity|].
  split; [now apply truthy_Some | reflexivity].
Qed.

Lemma or_empty_falsy (h : option string) :
  truthy h = false -> or_empty h = EmptyString.
Proof. intros H. unfold or_empty. now rewrite H. Qed.

Lemma hashes_equal_refl (h : option string) : hashes_equal h h = true.
Proof. unfold hashes_equal, compare_digest. apply String.eqb_refl. Qed.

Lemma hashes_equal_Some (a b : string) :
  hashes_equal (Some a) (Some b) = true <-> a = b.
Proof.
  assert (E : forall s, or_empty (Some s) = s).
  { intros s. unfold or_empty, truthy.
    destruct (String.eqb_spec s EmptyString) as [H|H]; simpl; congruence. }
  unfold hashes_equal, compare_digest. rewrite !E. apply String.eqb_eq.
Qed.

Lemma hashes_equal_absent_present (a b : option string) :
  truthy a = false -> truthy b = true -> hashes_equal a b = false.
Proof.
  intros Ha Hb. unfold hashes_equal, compare_digest.
  rewrite (or_empty_falsy _ Ha).
  destruct (or_empty_truthy _ Hb) as (s & _ & Hs & ->).
  apply String.eqb_neq. congruence.
Qed.

Lemma hashes_equal_sym (a b : option string) :
  hashes_equal a b = hashes_equal b a.
Proof. unfold hashes_equal, compare_digest. apply String.eqb_sym. Qed.

(** By the test of [in_redis_issues] a digest is absent when it is
    [None] or empty and present otherwise: two absent digests are
    equal, an absent and a present one are not. *)
Lemma absent_or_present (a b : option string) :
  (truthy a = false -> truthy b = false ->
     hashes_equal a b = true /\ Sync.equal_attachment a b = true) /\
  (truthy a <> truthy b ->
     hashes_equal a b = false /\ Sync.equal_attachment a b = false).
Proof.
  split.
  - intros Ha Hb. split.
    + unfold hashes_equal, compare_digest.
      now rewrite (or_empty_falsy _ Ha), (or_empty_falsy _ Hb).
    + unfold Sync.equal_attachment. now rewrite Ha, Hb.
  - intros Hne. split.
    + destruct (truthy a) eqn:Ha, (truthy b) eqn:Hb; try congruence.
      * rewrite hashes_equal_sym. now apply hashes_equal_absent_present.
      * now apply hashes_equal_absent_present.
    + unfold Sync.equal_attachment.
      destruct (truthy a), (truthy b); simpl; congruence.
Qed.

(** C8.  Two missing digests are equal, for [hashes_equal] and for the
    attachment comparison of [in_redis_issues].  A missing digest and a
    present one, that is a string that is not empty as every digest
    is, are unequal for both, whichever side is missing. *)
Theorem missing_digests_equal_missing_and_present_unequal :
  (hashes_equal None None = true /\
   Sync.equal_attachment None None = true) /\
  forall d : string, d <> EmptyString ->
    hashes_equal None (Some d) = false /\
    hashes_equal (Some d) None = false /\
    Sync.equal_attachment None (Some d) = false /\
    Sync.equal_attachment (Some d) None = false.
Proof.
  split; [split; reflexivity|]. intros d Hd.
  assert (Ht : truthy (Some d) = true) by now apply truthy_Some.
  destruct (absent_or_present None (Some d)) as [_ H1].
  destruct (absent_or_present (Some d) None) as [_ H2].
  destruct H1 as [H1 H1']; [rewrite Ht; discriminate|].
  destruct H2 as [H2 H2']; [rewrite Ht; discriminate|].
  auto.
Qed.

Lemma missing_digests_equal_missing_and_present_unequal_witness :
  hashes_equal None (Some "9f86d081884c7d659a2feaa0c55ad015"%string) = false /\
  hashes_equal (Some "9f86d081884c7d659a2feaa0c55ad015"%string) None = false /\
  Sync.equal_attachment None (Some "9f86d081884c7d659a2feaa0c55ad015"%string)
    = false /\
  Sync.equal_attachment (Some "9f86d081884c7d659a2feaa0c55ad015"%string) None
    = false.
Proof.
  apply (proj2 missing_digests_equal_missing_and_present_unequal
           "9f86d081884c7d659a2feaa0c55ad015"%string).
  discriminate.
Defined.

(** C10.  For [hashes_equal] the empty digest and the missing one are
    the same value: any two of them compare equal, and replacing one
    by the other on either side never changes the answer. *)
Theorem empty_digest_is_absent :
  hashes_equal None None = true /\
  hashes_equal (Some EmptyString) None = true /\
  hashes_equal None (Some EmptyString) = true /\
  hashes_equal (Some EmptyString) (Some EmptyString) = true /\
  forall h : option string,
    hashes_equal (Some EmptyString) h = hashes_equal None h /\
    hashes_equal h (Some EmptyString) = hashes_equal h None.
Proof. repeat split; reflexivity. Qed.
End HashesEqual.

(** * Properties of the issue record upsert *)

Section UpsertIssueHash.
Import Repository.

(** On a key that does not exist the record is created with both
    time stamps and the call reports a new record. *)
Lemma upsert_issue_hash_fresh (r : redis) (k : Z) (d : string)
    (a : option string) :
  issues r !! k = None ->
  exists rec,
    upsert_issue_hash r k d a =
      ({| issues := <[k := rec]> (issues r); links := links r;
          clock := clock r |}, true) /\
    created_at rec = Some (clock r) /\
    h_description rec = Some d /\
    updated_at rec = Some (clock r).
Proof.
  intros H. unfold upsert_issue_hash, UPSERT_J_ISSUE_LUA. rewrite H.
  cbn [h_description h_attachment set_created_at no_fields default].
  destruct (negb (String.eqb EmptyString (Hash.or_empty a)));
    eexists; (split; [reflexivity|]); repeat split.
Qed.

(** With the stored fingerprints nothing is written and the call
    reports an existing record. *)
Lemma upsert_issue_hash_same (r : redis) (k : Z) (rec : issue_rec)
    (d : string) (a : option string) :
  issues r !! k = Some rec ->
  h_description rec = Some d ->
  default EmptyString (h_attachment rec) = Hash.or_empty a ->
  upsert_issue_hash r k d a = (r, false).
Proof.
  intros H Hd Ha. unfold upsert_issue_hash, UPSERT_J_ISSUE_LUA.
  rewrite H, Hd, Ha, !String.eqb_refl. cbn.
  rewrite (insert_id _ _ _ H). now destruct r.
Qed.

(** With another description fingerprint the field is written, the
    update time is set to the current second, and the call reports a
    new record although the key existed. *)
Lemma upsert_issue_hash_changed (r : redis) (k : Z) (rec : issue_rec)
    (d d' : string) (a : option string) :
  issues r !! k = Some rec ->
  h_description rec = Some d ->
  d <> d' ->
  exists rec',
    upsert_issue_hash r k d' a =
      ({| issues := <[k := rec']> (issues r); links := links r;
          clock := clock r |}, true) /\
    created_at rec' = created_at rec /\
    h_description rec' = Some d' /\
    updated_at rec' = Some (clock r).
Proof.
  intros H Hd Hne. unfold upsert_issue_hash, UPSERT_J_ISSUE_LUA.
  rewrite H, Hd. apply String.eqb_neq in Hne. rewrite Hne. cbn [negb].
  destruct (negb (String.eqb _ (Hash.or_empty a)));
    eexists; (split; [reflexivity|]); repeat split.
Qed.

(** C1.  The issue record 7 is created at second 100 with the
    description fingerprint ["d1"]: the call reports a new record.  A
    call with the same fingerprint at second 200 reports an existing
    record and leaves the record, [updated_at] included, as it was.
    A call with the fingerprint ["d2"] at second 300 writes the field
    and sets [updated_at] to 300, and reports a new record: the key
    existed, so the report of the third call is not "existing". *)
Theorem upsert_issue_hash_reports_change_as_new :
  let '(r1, new1) := upsert_issue_hash (empty_redis 100) 7 "d1" None in
  let '(r2, new2) := upsert_issue_hash (at_time 200 r1) 7 "d1" None in
  let '(r3, new3) := upsert_issue_hash (at_time 300 r2) 7 "d2" None in
  new1 = true /\
  new2 = false /\ issues r2 !! 7 = issues r1 !! 7 /\
  (updated_at <$> issues r2 !! 7) = Some (Some 100) /\
  (h_description <$> issues r3 !! 7) = Some (Some "d2"%string) /\
  (updated_at <$> issues r3 !! 7) = Some (Some 300) /\
  is_Some (issues r2 !! 7) /\ new3 = true.
Proof. vm_compute. repeat split; eauto. Qed.
End UpsertIssueHash.

(** * Properties of the comment pagination *)

Section CommentPages.
Import JiraComments.

(** C6.  When the answer to the first request has no comments,
    [get_issue_comments] returns the empty list after that one
    request, whatever total the answer announces and whatever the
    tracker would answer at any later offset. *)
Theorem empty_first_page_returns_no_comments
    (lib : datetime_lib) (server : Z -> outcome page)
    (fuel : nat) (issue : Z) (p : page) :
  server 0 = Ok p ->
  comments p = [] ->
  get_issue_comments lib server (S fuel) issue = Some (Ok []).
Proof.
  intros Hs Hc. unfold get_issue_comments. simpl. now rewrite Hs, Hc.
Qed.

Definition a_comment (n : string) : raw_comment :=
  {| c_id := n; c_author := "ann"; c_created := "2025-12-01T18:22:33+0000";
     c_renderedBody := Some [] |}.

(** A library that reads every string as the aware time whose instant
    is the length of the string, in place of the two parsers. *)
Definition length_lib : datetime_lib :=
  {| fromisoformat := fun s => Some (Aware (Z.of_nat (String.length s)));
     strptime := fun _ _ => None |}.

(** A tracker that announces three comments, has none at offset 0 and
    one at every other offset. *)
Definition late_comments (start_at : Z) : outcome page :=
  if start_at =? 0 then Ok {| comments := []; total := 3 |}
  else Ok {| comments := [a_comment "c"]; total := 3 |}.

Lemma empty_first_page_returns_no_comments_witness :
  get_issue_comments length_lib late_comments 5 42 = Some (Ok []) /\
  (exists p, late_comments 1 = Ok p /\ comments p <> [] /\ total p = 3).
Proof.
  split.
  - apply (empty_first_page_returns_no_comments length_lib late_comments
             4 42 {| comments := []; total := 3 |}); reflexivity.
  - eexists. split; [reflexivity|]. split; [discriminate | reflexivity].
Defined.

(** The loop does go on while pages are not empty: the same tracker
    with a first page is read up to its total. *)
Example pages_followed_up_to_total :
  let server := fun start_at : Z =>
    Ok {| comments := [a_comment "c"]; total := 3 |} in
  (length <$> (match get_issue_comments length_lib server 5 42 with
               | Some (Ok l) => Some l | _ => None end)) = Some 3%nat.
Proof. reflexivity. Qed.
End CommentPages.

(** * Properties of the polling loop *)

Section PollingLoop.
Import Loop.

Definition healthy : pass :=
  {| setup := Ok tt; fetch_issues := Ok tt; hash_issues := Ok tt;
     get_sid := Ok tt; reconcile := Ok tt |}.

Definition jira_down : pass :=
  {| setup := Ok tt; fetch_issues := Raise OtherException;
     hash_issues := Ok tt; get_sid := Ok tt; reconcile := Ok tt |}.

Definition planfix_login_refused : pass :=
  {| setup := Ok tt; fetch_issues := Ok tt; hash_issues := Ok tt;
     get_sid := Raise RuntimeError; reconcile := Ok tt |}.

(** A pass in which the fetch of the issues fails, or in which the
    login to the destination fails once the issues are fetched. *)
Definition fatal (p : pass) : Prop :=
  setup p = Ok tt /\
  ((exists e, fetch_issues p = Raise e) \/
   (fetch_issues p = Ok tt /\ hash_issues p = Ok tt /\
    exists e, get_sid p = Raise e)).

(** C2, as stated, fails: with the tracker down in the first of two
    scheduled passes the process exits with status 1 after the sleep,
    and the second pass is never started; the same with a refused
    login. *)
Lemma fatal_pass_ends_process :
  main [jira_down; healthy] =
    ([Setup; FetchIssues; LogError; SendAlert JiraListFailed; Sleep],
     Exited 1) /\
  snd (main [jira_down; healthy]) <> Running /\
  passes_started (fst (main [jira_down; healthy])) = 1%nat /\
  snd (main [planfix_login_refused; healthy]) = Exited 1 /\
  passes_started (fst (main [planfix_login_refused; healthy])) = 1%nat.
Proof. repeat split. discriminate. Qed.

(** C2, amended.  When the fetch of the issues or the login to the
    destination fails, the pass is aborted with a log entry and a
    notification, the loop sleeps once, and the process then exits
    with status 1: no later pass is started, whatever was scheduled. *)
Theorem fatal_pass_notifies_sleeps_and_exits (p : pass)
    (rest : list pass) :
  fatal p ->
  exists t a,
    main (p :: rest) = (t ++ [LogError; SendAlert a; Sleep], Exited 1) /\
    passes_started (fst (main (p :: rest))) = 1%nat /\
    ~ In Reconcile t.
Proof.
  intros [Hs [[e He] | (Hf & Hh & e & He)]].
  - exists [Setup; FetchIssues], JiraListFailed. simpl. unfold job.
    rewrite Hs, He. repeat split. intros [H|[H|[]]]; discriminate.
  - exists [Setup; FetchIssues; HashIssues; GetSid], PlanfixSidFailed.
    simpl. unfold job. rewrite Hs, Hf, Hh, He. repeat split.
    intros [H|[H|[H|[H|[]]]]]; discriminate.
Qed.

Lemma fatal_pass_notifies_sleeps_and_exits_witness :
  exists t a,
    main [planfix_login_refused; healthy; healthy] =
      (t ++ [LogError; SendAlert a; Sleep], Exited 1) /\
    passes_started (fst (main [planfix_login_refused; healthy; healthy]))
      = 1%nat /\
    ~ In Reconcile t.
Proof.
  apply (fatal_pass_notifies_sleeps_and_exits planfix_login_refused
           [healthy; healthy]).
  split; [reflexivity|]. right. split; [reflexivity|].
  split; [reflexivity|]. exists RuntimeError. reflexivity.
Defined.

(** An exception of the rest of the pass is taken by [main], which
    sleeps and starts the next pass. *)
Lemma other_failures_keep_running (e : exn) (rest : list pass) :
  let p := {| setup := Ok tt; fetch_issues := Ok tt; hash_issues := Ok tt;
              get_sid := Ok tt; reconcile := Raise e |} in
  main (p :: rest) =
    (([Setup; FetchIssues; HashIssues; GetSid; Reconcile]
        ++ [LogError; Sleep]) ++ fst (main rest),
     snd (main rest)).
Proof.
  simpl. unfold job. simpl. destruct (main rest). reflexivity.
Qed.
End PollingLoop.

(** * Properties of the attachment fingerprint *)

Section AttachmentFingerprint.
Import Hash.
Variable blake3_hexdigest16 : list Z -> string.

Lemma le_bytes_length (n : nat) (v : Z) : length (le_bytes n v) = n.
Proof. revert v. induction n; intros v; simpl; [|rewrite IHn]; reflexivity. Qed.

Lemma le_bytes_range (n : nat) (v : Z) :
  Forall (fun b => 0 <= b < 256) (le_bytes n v).
Proof.
  revert v. induction n; intros v; simpl; constructor; [|apply IHn].
  change 255 with (Z.ones 8). rewrite Z.land_ones by lia.
  change (2 ^ 8) with 256. apply Z.mod_pos_bound. lia.
Qed.

(** The bytes of [le_bytes n v] spell [v] modulo [2 ^ (8 n)]: the value
    itself when it is not negative, its two's complement otherwise. *)
Lemma le_value_le_bytes (n : nat) (v : Z) :
  le_value (le_bytes n v) = v mod 2 ^ (8 * Z.of_nat n).
Proof.
  revert v. induction n; intros v.
  - simpl. now rewrite Z.mod_1_r.
  - cbn [le_bytes le_value]. rewrite IHn.
    change 255 with (Z.ones 8). rewrite Z.land_ones by lia.
    rewrite Z.shiftr_div_pow2 by lia.
    replace (8 * Z.of_nat (S n)) with (8 + 8 * Z.of_nat n) by lia.
    rewrite Z.pow_add_r by lia.
    rewrite Z.rem_mul_r by lia. reflexivity.
Qed.

Definition int64 (x : Z) : Prop := - 2 ^ 63 <= x < 2 ^ 63.

Lemma pack_q_int64 (x : Z) : int64 x -> pack_q x = Some (le_bytes 8 x).
Proof.
  intros [H1 H2]. unfold pack_q.
  destruct (Z.leb_spec (- 2 ^ 63) x), (Z.ltb_spec x (2 ^ 63));
    cbn [andb]; try reflexivity; lia.
Qed.

Lemma pack_ints_int64 (l : list Z) :
  Forall int64 l -> pack_ints l = Some (flat_map (le_bytes 8) l).
Proof.
  induction 1 as [|x l Hx _ IH]; [reflexivity|].
  cbn [pack_ints flat_map]. now rewrite (pack_q_int64 _ Hx), IH.
Qed.

Lemma sorted_elements (s : gset Z) (x : Z) : x ∈ sorted s <-> x ∈ s.
Proof.
  unfold sorted. rewrite merge_sort_Permutation. apply elem_of_elements.
Qed.

Lemma sorted_ascending (s : gset Z) : StronglySorted Z.lt (sorted s).
Proof.
  unfold sorted.
  assert (Hs : StronglySorted Z.le (merge_sort Z.le (elements s))).
  { apply StronglySorted_merge_sort; apply _. }
  assert (Hn : NoDup (merge_sort Z.le (elements s))).
  { rewrite merge_sort_Permutation. apply NoDup_elements. }
  induction Hs as [|x l Hl IH Hx]; [constructor|].
  apply NoDup_cons in Hn as [Hnx Hn].
  constructor; [now apply IH|].
  rewrite Forall_forall in Hx |- *. intros y Hy.
  specialize (Hx y Hy).
  assert (x <> y) by (intros ->; apply Hnx; now apply list_elem_of_In).
  lia.
Qed.

Lemma sorted_length_le (l : list Z) :
  (length (sorted (list_to_set l)) <= length l)%nat.
Proof.
  unfold sorted. rewrite merge_sort_Permutation.
  induction l as [|x l IH]; [reflexivity|].
  cbn [list_to_set length].
  destruct (decide (x ∈ (list_to_set l : gset Z))) as [Hx|Hx].
  - replace ({[x]} ∪ list_to_set l : gset Z) with (list_to_set l : gset Z);
      [lia|]. apply set_eq. intros y. rewrite elem_of_union, elem_of_singleton.
    split; [auto | intros [->|H]; assumption].
  - rewrite elements_union_singleton by exact Hx. simpl. lia.
Qed.

(** C7.  Two lists with the same values have the same attachment
    fingerprint.  For a list of 64-bit integers the fingerprint is the
    hash of: the number of distinct values on 8 bytes, little endian,
    followed by the distinct values in strictly ascending order, each on
    8 bytes, little endian, in two's complement. *)
Theorem hash_attachment_id_of_the_value_set (l1 l2 : list Z) :
  (forall x, In x l1 <-> In x l2) ->
  hash_attachment_id blake3_hexdigest16 l1
    = hash_attachment_id blake3_hexdigest16 l2 /\
  (Forall int64 l1 -> Z.of_nat (length l1) < 2 ^ 64 ->
   exists u,
     StronglySorted Z.lt u /\ (forall x, In x u <-> In x l1) /\
     hash_attachment_id blake3_hexdigest16 l1 =
       Some (blake3_hexdigest16
               (le_bytes 8 (Z.of_nat (length u))
                  ++ flat_map (le_bytes 8) u)) /\
     le_value (le_bytes 8 (Z.of_nat (length u))) = Z.of_nat (length u) /\
     Forall (fun x => length (le_bytes 8 x) = 8%nat /\
                      le_value (le_bytes 8 x) = x mod 2 ^ 64) u).
Proof.
  intros Hsame. split.
  - unfold hash_attachment_id.
    replace (list_to_set l2 : gset Z) with (list_to_set l1 : gset Z);
      [reflexivity|].
    apply set_eq. intros x. rewrite !elem_of_list_to_set, !list_elem_of_In.
    apply Hsame.
  - intros Hrange Hlen. exists (sorted (list_to_set l1)).
    assert (Hin : forall x, In x (sorted (list_to_set l1)) <-> In x l1).
    { intros x. rewrite <- !list_elem_of_In, sorted_elements.
      apply elem_of_list_to_set. }
    pose proof (sorted_length_le l1) as Hle.
    split; [apply sorted_ascending|]. split; [exact Hin|].
    split; [|split].
    + unfold hash_attachment_id, hash_seq, payload, pack_Q.
      rewrite pack_ints_int64.
      * destruct (Z.leb_spec 0 (Z.of_nat (length (sorted (list_to_set l1))))),
          (Z.ltb_spec (Z.of_nat (length (sorted (list_to_set l1)))) (2 ^ 64));
          simpl; try reflexivity; lia.
      * rewrite Forall_forall in Hrange |- *. intros x Hx.
        apply Hrange, list_elem_of_In, Hin, list_elem_of_In, Hx.
    + rewrite le_value_le_bytes. apply Z.mod_small.
      change (8 * Z.of_nat 8) with 64. lia.
    + apply Forall_forall. intros x _. split.
      * apply le_bytes_length.
      * apply le_value_le_bytes.
Qed.

End AttachmentFingerprint.

(** A stand-in for the hash function in examples: the payload itself,
    as a byte string. *)
Definition payload_as_digest (bs : list Z) : string :=
  string_of_list_ascii (map (fun b => ascii_of_N (Z.to_N b)) bs).

(** The fingerprints of [[3; 1; 2]] and [[1; 2; 2; 3; 1]]. *)
Lemma hash_attachment_id_of_the_value_set_witness :
  Hash.hash_attachment_id payload_as_digest [3; 1; 2]
    = Hash.hash_attachment_id payload_as_digest [1; 2; 2; 3; 1] /\
  (exists u,
     StronglySorted Z.lt u /\ (forall x, In x u <-> In x [3; 1; 2]) /\
     Hash.hash_attachment_id payload_as_digest [3; 1; 2] =
       Some (payload_as_digest
               (Hash.le_bytes 8 (Z.of_nat (length u))
                  ++ flat_map (Hash.le_bytes 8) u)) /\
     Hash.le_value (Hash.le_bytes 8 (Z.of_nat (length u)))
       = Z.of_nat (length u) /\
     Forall (fun x => length (Hash.le_bytes 8 x) = 8%nat /\
                      Hash.le_value (Hash.le_bytes 8 x) = x mod 2 ^ 64) u) /\
  Hash.payload (Hash.sorted (list_to_set [3; 1; 2])) =
    Some [3; 0; 0; 0; 0; 0; 0; 0;  1; 0; 0; 0; 0; 0; 0; 0;
          2; 0; 0; 0; 0; 0; 0; 0;  3; 0; 0; 0; 0; 0; 0; 0].
Proof.
  destruct (hash_attachment_id_of_the_value_set payload_as_digest
              [3; 1; 2] [1; 2; 2; 3; 1]) as [Heq Hpay].
  - intros x. simpl. intuition.
  - split; [exact Heq|]. split; [|reflexivity].
    apply Hpay.
    + repeat constructor; unfold int64; lia.
    + simpl. lia.
Defined.

(** * Properties of the issue reconciliation *)

Section Scenarios.
Import Sync.

(** A destination that accepts every call and numbers the task of the
    issue [j] as [1000 + j]. *)
Definition obliging : world :=
  {| redis_fault := fun _ _ => None;
     add_task := fun _ d => Ok (1000 + id d);
     update_description_task := fun _ _ _ => Ok tt;
     get_issue_attachments := fun _ _ _ => Ok tt;
     upload_file := fun _ _ _ => Ok tt |}.

(** The same, except that the task of the issue [j] cannot be
    created. *)
Definition refusing_task (j : Z) : world :=
  {| redis_fault := fun _ _ => None;
     add_task := fun _ d =>
       if id d =? j then Raise RuntimeError else Ok (1000 + id d);
     update_description_task := fun _ _ _ => Ok tt;
     get_issue_attachments := fun _ _ _ => Ok tt;
     upload_file := fun _ _ _ => Ok tt |}.

(** The same as [obliging], except that no description can be
    updated. *)
Definition refusing_update : world :=
  {| redis_fault := fun _ _ => None;
     add_task := fun _ d => Ok (1000 + id d);
     update_description_task := fun _ _ _ => Raise RuntimeError;
     get_issue_attachments := fun _ _ _ => Ok tt;
     upload_file := fun _ _ _ => Ok tt |}.

Definition an_issue (j : Z) : jira_issue :=
  {| id := j; title := []; description := Some []; attachment := [] |}.

Definition a_hash (j : Z) (d : string) : issue_hash :=
  {| issue_id := j; h_description := d; h_attachment := None |}.

(** A store that knows the issue 1 with the description fingerprint
    ["d1"] and its task 100. *)
Definition one_known_issue : Repository.redis :=
  Repository.upsert_issue_link
    (fst (Repository.upsert_issue_hash (Repository.empty_redis 100) 1 "d1" None))
    1 100.
End Scenarios.

(** ** What a coroutine adds to the trace *)

Section TraceLogic.
Import Sync.

(** [emits m P R]: from every state, [m] appends to the trace a list of
    calls for which [P] holds, and a returned value satisfies [R]. *)
Definition emits {A} (m : M A) (P : list event -> Prop) (R : A -> Prop)
    : Prop :=
  forall s, exists t,
    trace (snd (m s)) = trace s ++ t /\ P t /\
    match fst (m s) with Ok a => R a | Raise _ => True end.

(** Two phases, one after the other. *)
Definition then_ (P1 P2 : list event -> Prop) (t : list event) : Prop :=
  exists t1 t2, t = t1 ++ t2 /\ P1 t1 /\ P2 t2.


Lemma emits_ret {A} (a : A) (P : list event -> Prop) (R : A -> Prop) :
  P [] -> R a -> emits (ret a) P R.
Proof.
  intros HP HR s. exists []. simpl. now rewrite app_nil_r.
Qed.

Lemma emits_raise {A} (e : exn) (P : list event -> Prop) (R : A -> Prop) :
  P [] -> emits (raise e) P R.
Proof.
  intros HP s. exists []. simpl. now rewrite app_nil_r.
Qed.

Lemma emits_weaken {A} (m : M A) (P P' : list event -> Prop)
    (R R' : A -> Prop) :
  emits m P R -> (forall t, P t -> P' t) -> (forall a, R a -> R' a) ->
  emits m P' R'.
Proof.
  intros Hm HP HR s. destruct (Hm s) as (t & Ht & Hp & Hr).
  exists t. split; [exact Ht|]. split; [now apply HP|].
  destruct (fst (m s)); auto.
Qed.

Lemma emits_more {A} (m : M A) (Q Q' : event -> Prop) (R : A -> Prop) :
  (forall e, Q e -> Q' e) -> emits m (Forall Q) R -> emits m (Forall Q') R.
Proof.
  intros HQ Hm. eapply emits_weaken; [exact Hm | | auto].
  intros t Ht. eapply Forall_impl; [exact Ht | exact HQ].
Qed.

Lemma emits_bind_then {A B} (m : M A) (k : A -> M B)
    (P1 P2 : list event -> Prop) (R1 : A -> Prop) (R2 : B -> Prop) :
  emits m P1 R1 -> (forall a, R1 a -> emits (k a) P2 R2) -> P2 [] ->
  emits (bind m k) (then_ P1 P2) R2.
Proof.
  intros Hm Hk Hnil s. unfold bind.
  destruct (Hm s) as (t1 & Ht1 & Hp1 & Hr1).
  destruct (m s) as [[a|e] s1]; simpl in *.
  - destruct (Hk a Hr1 s1) as (t2 & Ht2 & Hp2 & Hr2).
    exists (t1 ++ t2). rewrite Ht2, Ht1, app_assoc.
    split; [reflexivity|]. split; [|exact Hr2].
    exists t1, t2. auto.
  - exists t1. split; [exact Ht1|]. split; [|exact I].
    exists t1, []. rewrite app_nil_r. auto.
Qed.

Lemma emits_bind {A B} (m : M A) (k : A -> M B) (Q : event -> Prop)
    (R1 : A -> Prop) (R2 : B -> Prop) :
  emits m (Forall Q) R1 -> (forall a, R1 a -> emits (k a) (Forall Q) R2) ->
  emits (bind m k) (Forall Q) R2.
Proof.
  intros Hm Hk.
  eapply emits_weaken;
    [apply (emits_bind_then m k _ _ R1 R2 Hm Hk); constructor | | auto].
  intros t (t1 & t2 & -> & H1 & H2). apply Forall_app. auto.
Qed.

Lemma emits_try_except {A} (m h : M A) (caught : exn -> bool)
    (Q : event -> Prop) (R : A -> Prop) :
  emits m (Forall Q) R -> emits h (Forall Q) R ->
  emits (try_except m caught h) (Forall Q) R.
Proof.
  intros Hm Hh s. unfold try_except.
  destruct (Hm s) as (t1 & Ht1 & Hp1 & Hr1).
  destruct (m s) as [[a|e] s1]; simpl in *.
  - exists t1. auto.
  - destruct (caught e).
    + destruct (Hh s1) as (t2 & Ht2 & Hp2 & Hr2).
      exists (t1 ++ t2). rewrite Ht2, Ht1, app_assoc.
      split; [reflexivity|]. split; [|exact Hr2]. apply Forall_app. auto.
    + exists t1. auto.
Qed.

Lemma emits_alert (a : alert) (Q : event -> Prop) :
  Q (SendAlert a) -> emits (send_alert_to_chat a) (Forall Q) (fun _ => True).
Proof.
  intros HQ s. exists [SendAlert a]. simpl. repeat split. now constructor.
Qed.

Lemma emits_next {A} (p : A -> bool) (l : list A) (Q : event -> Prop) :
  emits (next p l) (Forall Q) (fun a => In a l /\ p a = true).
Proof.
  unfold next. destruct (List.find p l) as [a|] eqn:E.
  - apply emits_ret; [constructor|]. now apply find_some in E.
  - apply emits_raise. constructor.
Qed.

Variable w : world.

Lemma emits_store_read {A} (e : event) (f : Repository.redis -> A)
    (Q : event -> Prop) :
  Q e -> emits (store_read w e f) (Forall Q) (fun _ => True).
Proof.
  intros HQ s. exists [e]. unfold store_read.
  destruct (redis_fault w (trace s) e); simpl; repeat split;
    now constructor.
Qed.

Lemma emits_store_write {A} (e : event)
    (f : Repository.redis -> Repository.redis * A) (Q : event -> Prop) :
  Q e -> emits (store_write w e f) (Forall Q) (fun _ => True).
Proof.
  intros HQ s. exists [e]. unfold store_write.
  destruct (redis_fault w (trace s) e); simpl.
  - repeat split. now constructor.
  - destruct (f (db s)). simpl. repeat split. now constructor.
Qed.

Lemma emits_call {A} (e : event) (answer : list event -> outcome A)
    (Q : event -> Prop) :
  Q e -> emits (call e answer) (Forall Q) (fun _ => True).
Proof.
  intros HQ s. exists [e]. unfold call. simpl.
  split; [reflexivity|]. split; [now constructor|].
  now destruct (answer (trace s)).
Qed.

End TraceLogic.

(** ** The phases of [upload_issues_to_planfix] *)

Section Phases.
Import Sync.
Variable w : world.

(** The calls each phase can make for the issues [ids]. *)
Definition hash_phase (ids : list Z) (e : event) : Prop :=
  match e with
  | UpsertIssueHash j _ _ | SendAlert (IssueUpsertFailed j) => j ∈ ids
  | _ => False
  end.

Definition link_phase (ids : list Z) (e : event) : Prop :=
  match e with
  | GetIssueLink j => j ∈ ids
  | _ => False
  end.

Definition update_phase (ids : list Z) (e : event) : Prop :=
  match e with
  | UpdateDescriptionTask _ j | UploadFile _ j
  | SendAlert (DescriptionUpdateFailed _ j)
  | SendAlert (AttachmentUpdateFailed _ j) => j ∈ ids
  | GetIssueAttachments _ => True
  | _ => False
  end.

Definition create_phase (ids : list Z) (e : event) : Prop :=
  match e with
  | AddTask j | UpsertIssueLink j _ | UploadFile _ j
  | GetIssueAttachments j | SendAlert (TaskCreationFailed j) => j ∈ ids
  | SendAlert (AttachmentUploadFailed _) => True
  | _ => False
  end.

Definition compare_phase (e : event) : Prop :=
  match e with
  | GetIssue _ | SendAlert HashCompareFailed => True
  | _ => False
  end.

Definition later_phase (ids : list Z) (e : event) : Prop :=
  link_phase ids e \/ update_phase ids e \/ create_phase ids e.

Lemma upsert_hashes_emits (issue_hash_list : list issue_hash)
    (ids : list Z) :
  emits (upsert_hashes w issue_hash_list ids) (Forall (hash_phase ids))
    (fun _ => True).
Proof.
  induction issue_hash_list as [|i rest IH]; simpl.
  - apply emits_ret; [constructor | exact I].
  - eapply emits_bind with (R1 := fun _ => True); [|intros _ _; exact IH].
    case_bool_decide as Hi.
    + apply emits_try_except.
      * eapply emits_bind; [apply emits_store_write; exact Hi|].
        intros _ _. apply emits_ret; [constructor | exact I].
      * apply emits_alert. exact Hi.
    + apply (emits_ret tt (Forall (hash_phase ids)) (fun _ => True));
        [constructor | exact I].
Qed.

Lemma split_by_link_emits (ids0 ids : list Z) (inp : list (Z * Z))
    (notin : list Z) :
  ids ⊆ ids0 ->
  (forall p j, (p, j) ∈ inp -> j ∈ ids0) ->
  notin ⊆ ids0 ->
  emits (split_by_link w ids inp notin) (Forall (link_phase ids0))
    (fun r => (forall p j, (p, j) ∈ fst r -> j ∈ ids0) /\ snd r ⊆ ids0).
Proof.
  revert inp notin. induction ids as [|i rest IH]; intros inp notin Hs Hi Hn.
  - simpl. apply emits_ret; [constructor | split; assumption].
  - simpl. eapply emits_bind.
    + apply (emits_store_read w (GetIssueLink i)). simpl. set_solver.
    + intros [l|] _.
      * destruct (Repository.p_issue l) as [p|].
        -- apply IH; [set_solver | | exact Hn].
           intros p' j Hin. apply elem_of_app in Hin as [Hin|Hin].
           ++ eapply Hi, Hin.
           ++ apply list_elem_of_singleton in Hin. inversion Hin. set_solver.
        -- apply emits_raise. constructor.
      * apply IH; [set_solver | exact Hi | set_solver].
Qed.

Lemma update_tasks_emits (ids : list Z) (inp : list (Z * Z))
    (updated : list issue_data) (jl : list jira_issue) :
  (forall p j, (p, j) ∈ inp -> j ∈ ids) ->
  emits (update_tasks w inp updated jl) (Forall (update_phase ids))
    (fun _ => True).
Proof.
  induction inp as [|[p j] rest IH]; intros Hi; simpl.
  - apply emits_ret; [constructor | exact I].
  - assert (Hj : j ∈ ids) by (apply (Hi p); set_solver).
    eapply emits_bind; [apply emits_next|]. intros d _.
    eapply emits_bind; [apply emits_next|]. intros jd [_ Hjd].
    apply bool_decide_eq_true in Hjd.
    eapply emits_bind with (R1 := fun _ => True).
    { apply emits_try_except; [|apply emits_alert; exact Hj].
      destruct (d_description d).
      - apply emits_call. simpl. now rewrite Hjd.
      - apply (emits_ret tt (Forall (update_phase ids)) (fun _ => True));
          [constructor | exact I]. }
    intros _ _. eapply emits_bind with (R1 := fun _ => True).
    { apply emits_try_except; [|apply emits_alert; exact Hj].
      destruct (d_attachment d).
      - eapply emits_bind; [apply emits_call; exact I|].
        intros _ _. apply emits_call. exact Hj.
      - apply (emits_ret tt (Forall (update_phase ids)) (fun _ => True));
          [constructor | exact I]. }
    intros _ _. apply IH. intros p' j' H. apply (Hi p'). set_solver.
Qed.

Lemma create_tasks_emits (ids notin : list Z) (jl : list jira_issue) :
  notin ⊆ ids ->
  emits (create_tasks w notin jl) (Forall (create_phase ids))
    (fun _ => True).
Proof.
  induction notin as [|j rest IH]; intros Hs; simpl.
  - apply emits_ret; [constructor | exact I].
  - assert (Hj : j ∈ ids) by set_solver.
    eapply emits_bind; [apply emits_next|]. intros jd [_ Hjd].
    apply bool_decide_eq_true in Hjd.
    eapply emits_bind with (R1 := fun _ => True).
    { apply emits_try_except.
      - eapply emits_bind; [apply emits_call; simpl; now rewrite Hjd|].
        intros p _. apply emits_ret; [constructor | exact I].
      - eapply emits_bind; [apply emits_alert; simpl; now rewrite Hjd|].
        intros _ _. apply emits_ret; [constructor | exact I]. }
    intros [p|] _.
    + eapply emits_bind; [apply emits_store_write; exact Hj|].
      intros _ _. eapply emits_bind with (R1 := fun _ => True).
      { apply emits_try_except; [|apply emits_alert; exact I].
        destruct (attachment jd) as [|a atts].
        - apply (emits_ret tt (Forall (create_phase ids)) (fun _ => True));
            [constructor | exact I].
        - eapply emits_bind; [apply emits_call; exact Hj|].
          intros _ _. apply emits_call. exact Hj. }
      intros _ _. apply IH. set_solver.
    + apply emits_ret; [constructor | exact I].
Qed.

(** The record writes come first, for the issues of the list only; the
    link lookups, the updates and the creations follow, again for these
    issues only. *)
Lemma upload_issues_to_planfix_emits (ids : list Z)
    (issue_hash_list : list issue_hash) (updated : list issue_data)
    (jl : list jira_issue) :
  emits (upload_issues_to_planfix w ids issue_hash_list updated jl)
    (then_ (Forall (hash_phase ids)) (Forall (later_phase ids)))
    (fun _ => True).
Proof.
  unfold upload_issues_to_planfix. destruct ids as [|i ids'].
  - apply emits_ret; [|exact I]. exists [], []. repeat split; constructor.
  - set (ids := i :: ids').
    eapply emits_bind_then; [apply upsert_hashes_emits | | constructor].
    intros _ _. eapply emits_bind.
    + apply (emits_more _ (link_phase ids)); [intros e He; left; exact He|].
      apply (split_by_link_emits ids ids [] []); set_solver.
    + intros [inp notin] [Hinp Hnotin]. simpl in Hinp, Hnotin.
      eapply emits_bind with (R1 := fun _ => True).
      * apply (emits_more _ (update_phase ids));
          [intros e He; right; left; exact He|].
        apply update_tasks_emits. exact Hinp.
      * intros _ _. apply (emits_more _ (create_phase ids));
          [intros e He; right; right; exact He|].
        apply create_tasks_emits. exact Hnotin.
Qed.

End Phases.

(** ** Order of the record writes and the destination updates *)

Section WriteOrder.
Import Sync.



(** [e1] is called before [e2]. *)
Definition precedes (t : list event) (e1 e2 : event) : Prop :=
  exists a b c, t = a ++ e1 :: b ++ e2 :: c.



Lemma in_redis_issues_emits (w : world) (ids : list Z)
    (issue_hash_list : list issue_hash) (updated : list issue_data)
    (upload : list Z) :
  emits (in_redis_issues w ids issue_hash_list updated upload)
    (Forall compare_phase) (fun _ => True).
Proof.
  revert updated upload. induction ids as [|i rest IH]; intros updated upload.
  - apply emits_ret; [constructor | exact I].
  - simpl. eapply emits_bind with (R1 := fun _ => True).
    + apply emits_try_except.
      * unfold compare_issue.
        eapply emits_bind; [apply emits_store_read; exact I|].
        intros [rec|] _; (eapply emits_bind; [apply emits_next|]);
          intros h _; try (apply emits_raise; constructor).
        destruct (Repository.h_description rec);
          [|apply emits_raise; constructor].
        match goal with |- context [if ?b then _ else _] => destruct b end;
          apply emits_ret; constructor.
      * eapply emits_bind; [apply emits_alert; exact I|].
        intros _ _. apply emits_ret; [constructor | exact I].
    + intros [d|] _; apply IH.
Qed.

Lemma split_phases (Q1 Q2 : event -> Prop) (t1 t2 : list event)
    (e1 e2 : event) :
  Forall Q1 t1 -> Forall Q2 t2 -> precedes (t1 ++ t2) e1 e2 ->
  ~ Q1 e1 -> Q2 e2.
Proof.
  intros H1 H2 (a & b & c & E) Hn.
  rewrite Forall_forall in H1, H2.
  apply app_eq_app in E as [l [[E1 E2]|[E1 E2]]].
  - destruct l as [|x l]; simpl in E2.
    + apply H2. rewrite <- E2. set_solver.
    + inversion E2; subst. exfalso. apply Hn, H1. set_solver.
  - apply H2. rewrite E2. set_solver.
Qed.



End WriteOrder.

(** ** A failed creation and the issues after it *)

Section FailedCreation.
Import Sync.

(** The trace of [upload_issues_to_planfix] on two issues unknown to
    the store and the destination. *)
Definition two_new_issues (w : world) : outcome unit * state :=
  run (upload_issues_to_planfix w [1; 2] [a_hash 1 "a"; a_hash 2 "b"] []
         [an_issue 1; an_issue 2])
      (Repository.empty_redis 5).

(** C3.  When [add_task] raises [RuntimeError] for the issue 1, the
    failure is caught and reported and the function returns: [add_task]
    is never called for the issue 2, which gets neither a task nor a
    link record, although it does when the creation for the issue 1
    succeeds. *)
Theorem failed_creation_ends_the_issue_loop :
  two_new_issues (refusing_task 1) =
    (Ok tt,
     {| db := db (snd (two_new_issues (refusing_task 1)));
        trace := [UpsertIssueHash 1 "a" None; UpsertIssueHash 2 "b" None;
                  GetIssueLink 1; GetIssueLink 2; AddTask 1;
                  SendAlert (TaskCreationFailed 1)] |}) /\
  ~ In (AddTask 2) (trace (snd (two_new_issues (refusing_task 1)))) /\
  Repository.links (db (snd (two_new_issues (refusing_task 1)))) !! 2 = None /\
  In (AddTask 2) (trace (snd (two_new_issues obliging))) /\
  is_Some (Repository.links (db (snd (two_new_issues obliging))) !! 2).
Proof.
  split; [reflexivity|]. split; [|split; [reflexivity|split]].
  - intros H. vm_compute in H. intuition discriminate.
  - vm_compute. tauto.
  - vm_compute. eauto.
Qed.

(** In general: once [add_task] raises [RuntimeError] for an issue, the
    issues after it in the list are not looked at. *)
Lemma create_tasks_returns_at_failure (w : world) (j : Z) (rest : list Z)
    (jl : list jira_issue) (d : jira_issue) (s : state) :
  List.find (fun i => bool_decide (id i = j)) jl = Some d ->
  add_task w (trace s) d = Raise RuntimeError ->
  create_tasks w (j :: rest) jl s =
    (Ok tt,
     {| db := db s;
        trace := (trace s ++ [AddTask (id d)])
                   ++ [SendAlert (TaskCreationFailed (id d))] |}).
Proof.
  intros Hd Hf. cbn [create_tasks]. unfold bind at 1, next. rewrite Hd.
  cbn [ret]. unfold bind at 1, try_except, bind at 1, planfix_add_task, call.
  rewrite Hf. reflexivity.
Qed.

(** A failed update of a description does not end the loop of the
    updates: the next issue is still updated. *)
Example failed_update_goes_on :
  let w := {| redis_fault := fun _ _ => None;
              add_task := fun _ d => Ok (1000 + id d);
              update_description_task := fun _ p _ =>
                if p =? 100 then Raise RuntimeError else Ok tt;
              get_issue_attachments := fun _ _ _ => Ok tt;
              upload_file := fun _ _ _ => Ok tt |} in
  trace (snd (run (update_tasks w [(100, 1); (200, 2)]
                     [ {| d_id := 1; d_description := true;
                          d_attachment := false |};
                       {| d_id := 2; d_description := true;
                          d_attachment := false |} ]
                     [an_issue 1; an_issue 2])
                (Repository.empty_redis 5))) =
    [UpdateDescriptionTask 100 1; SendAlert (DescriptionUpdateFailed 100 1);
     UpdateDescriptionTask 200 2].
Proof. reflexivity. Qed.

End FailedCreation.

(** ** Issues whose fingerprints did not change *)

Section Unchanged.
Import Sync.
Variable w : world.

(** The issue [i] is known to the store [r] and the entry of
    [issue_hash_list] that [in_redis_issues] looks at carries the
    stored description fingerprint and the stored attachment
    fingerprint, where an attachment fingerprint that is missing or
    empty on both sides counts as the same. *)
Definition unchanged (r : Repository.redis)
    (issue_hash_list : list issue_hash) (i : Z) : Prop :=
  exists rec h,
    Repository.issues r !! i = Some rec /\
    List.find (fun x => bool_decide (issue_id x = i)) issue_hash_list = Some h /\
    Repository.h_description rec = Some (h_description h) /\
    (Repository.h_attachment rec = h_attachment h \/
     (Hash.truthy (Repository.h_attachment rec) = false /\
      Hash.truthy (h_attachment h) = false)).

(** A destination mutation or a store write made for the issue [i]. *)
Definition changes_issue (i : Z) (e : event) : Prop :=
  match e with
  | UpsertIssueHash j _ _ | UpsertIssueLink j _
  | UpdateDescriptionTask _ j | UploadFile _ j | AddTask j => j = i
  | _ => False
  end.

Lemma equal_attachment_refl (a : option string) :
  equal_attachment a a = true.
Proof.
  unfold equal_attachment. destruct (Hash.truthy a); simpl;
    [apply hashes_equal_refl | reflexivity].
Qed.

Lemma compare_issue_db (issue_hash_list : list issue_hash) (i : Z)
    (s : state) :
  db (snd (compare_issue w issue_hash_list i s)) = db s.
Proof.
  unfold compare_issue, bind, repo_get_issue, store_read, next.
  destruct (redis_fault w (trace s) (GetIssue i)); [reflexivity|].
  destruct (List.find _ issue_hash_list); [|reflexivity]. cbn [ret raise].
  destruct (Repository.get_issue (db s) i) as [rec|]; [|reflexivity].
  destruct (Repository.h_description rec); [|reflexivity].
  match goal with |- context [if ?b then _ else _] => destruct b end;
    reflexivity.
Qed.

Lemma compare_issue_changed (issue_hash_list : list issue_hash) (i : Z)
    (s s' : state) (d : issue_data) :
  compare_issue w issue_hash_list i s = (Ok (Some d), s') ->
  ~ unchanged (db s) issue_hash_list i.
Proof.
  intros H (rec & h & Hrec & Hfind & Hd & Ha).
  unfold compare_issue, bind, repo_get_issue, store_read, next in H.
  destruct (redis_fault w (trace s) (GetIssue i)); [discriminate|].
  rewrite Hfind in H. cbn [ret] in H.
  unfold Repository.get_issue in H. rewrite Hrec, Hd in H.
  rewrite hashes_equal_refl in H.
  assert (E : equal_attachment (Repository.h_attachment rec) (h_attachment h)
                = true).
  { destruct Ha as [->|[H1 H2]]; [apply equal_attachment_refl|].
    unfold equal_attachment. now rewrite H1, H2. }
  rewrite E in H. discriminate.
Qed.

Lemma in_redis_issues_db (ids : list Z) (issue_hash_list : list issue_hash)
    (updated : list issue_data) (upload : list Z) (s : state) :
  db (snd (in_redis_issues w ids issue_hash_list updated upload s)) = db s.
Proof.
  revert updated upload s.
  induction ids as [|i rest IH]; intros updated upload s; [reflexivity|].
  cbn [in_redis_issues]. unfold bind at 1. unfold try_except.
  pose proof (compare_issue_db issue_hash_list i s) as Hdb.
  destruct (compare_issue w issue_hash_list i s) as [[[d|]|e] s1];
    simpl in Hdb; cbn [Exception bind send_alert_to_chat ret].
  - rewrite IH. exact Hdb.
  - rewrite IH. exact Hdb.
  - unfold bind. cbn. rewrite IH. exact Hdb.
Qed.

(** [in_redis_issues] appends only issues that are not [unchanged]. *)
Lemma in_redis_issues_upload (ids : list Z)
    (issue_hash_list : list issue_hash) (updated updated' : list issue_data)
    (upload upload' : list Z) (s s' : state) :
  in_redis_issues w ids issue_hash_list updated upload s
    = (Ok (updated', upload'), s') ->
  forall j, j ∈ upload' ->
    j ∈ upload \/ ~ unchanged (db s) issue_hash_list j.
Proof.
  revert updated upload s.
  induction ids as [|i rest IH]; intros updated upload s H j Hj.
  - cbn in H. inversion H; subst. now left.
  - cbn [in_redis_issues] in H. unfold bind at 1 in H.
    unfold try_except in H.
    pose proof (compare_issue_db issue_hash_list i s) as Hdb.
    pose proof (compare_issue_changed issue_hash_list i s) as Hch.
    destruct (compare_issue w issue_hash_list i s) as [[[d|]|e] s1];
      simpl in Hdb; cbn [Exception bind send_alert_to_chat ret] in H.
    + destruct (IH _ _ _ H j Hj) as [Hin|Hun].
      * apply elem_of_app in Hin as [Hin|Hin]; [now left|].
        apply list_elem_of_singleton in Hin. subst j.
        right. eapply Hch. reflexivity.
      * right. now rewrite <- Hdb.
    + destruct (IH _ _ _ H j Hj) as [Hin|Hun]; [now left|].
      right. now rewrite <- Hdb.
    + unfold bind in H. cbn in H.
      destruct (IH _ _ _ H j Hj) as [Hin|Hun]; [now left|].
      right. now rewrite <- Hdb.
Qed.

End Unchanged.

Section Skipped.
Import Sync.
Variable w : world.

Lemma phase_events_of_listed_issues (ids : list Z) (i : Z) (e : event) :
  i ∉ ids -> hash_phase ids e \/ later_phase ids e -> ~ changes_issue i e.
Proof.
  intros Hi H Hc.
  destruct e as [| | j ? ? | | j ? | ? j | | ? j | j | a]; simpl in Hc;
    try contradiction; subst j;
    destruct H as [H|[H|[H|H]]]; simpl in H; try contradiction;
    apply Hi, H.
Qed.

Lemma compare_events_change_nothing (i : Z) (e : event) :
  compare_phase e -> ~ changes_issue i e.
Proof. destruct e; simpl; tauto. Qed.

(** C9.  Let the issue [i] be known to the store with the description
    fingerprint and the attachment fingerprint of the current pass.
    Then, in whatever order the sets of the pass are enumerated and
    whatever the collaborators answer, the issue part of the pass makes
    no destination call and no store write for [i]: no task creation, no
    description update, no file upload, no write of its issue record
    and no write of its link record. *)
Theorem unchanged_issue_is_skipped (to_list : gset Z -> list Z)
    (issue_hash_list : list issue_hash)
    (jira_issues_list_data : list jira_issue) (r : Repository.redis)
    (i : Z) :
  (forall X : gset Z, to_list X ≡ₚ elements X) ->
  unchanged r issue_hash_list i ->
  Forall (fun e => ~ changes_issue i e)
    (trace (snd (run (job_issues w to_list issue_hash_list
                        jira_issues_list_data) r))).
Proof.
  intros Hperm Hun. unfold run, job_issues.
  unfold bind at 1. unfold repo_list_issue_ids, store_read.
  cbn [trace db].
  destruct (redis_fault w [] ListIssueIds) as [x|].
  { cbn. repeat constructor. tauto. }
  set (s1 := record ListIssueIds {| db := r; trace := [] |}).
  set (upload0 := to_list (list_to_set (map issue_id issue_hash_list)
                             ∖ list_to_set (Repository.list_issue_ids r))).
  set (known := to_list _).
  assert (Hi0 : i ∉ upload0).
  { subst upload0. rewrite Hperm, elem_of_elements, elem_of_difference.
    intros [_ Hn]. apply Hn. rewrite elem_of_list_to_set.
    unfold Repository.list_issue_ids. rewrite elem_of_elements, elem_of_dom.
    destruct Hun as (rec & _ & Hrec & _). cbn [db]. eauto. }
  unfold bind.
  destruct (in_redis_issues_emits w known issue_hash_list [] upload0 s1)
    as (t & Ht & Hcmp & _).
  pose proof (fun u' up' s' =>
                in_redis_issues_upload w known issue_hash_list [] u' upload0
                  up' s1 s') as Hup.
  destruct (in_redis_issues w known issue_hash_list [] upload0 s1)
    as [[[updated upload]|x] s2]; cbn [fst snd] in *.
  - assert (Hi : i ∉ upload).
    { intros Hin. destruct (Hup _ _ _ eq_refl i Hin) as [H|H]; [auto|].
      apply H. exact Hun. }
    destruct (upload_issues_to_planfix_emits w upload issue_hash_list updated
                jira_issues_list_data s2)
      as (t' & Ht' & (t1 & t2 & -> & H1 & H2) & _).
    rewrite Ht', Ht. cbn [trace s1 record app].
    constructor; [simpl; tauto|].
    rewrite !Forall_app. split; [|split].
    + eapply Forall_impl; [exact Hcmp|].
      intros e. apply compare_events_change_nothing.
    + eapply Forall_impl; [exact H1|]. intros e He.
      apply (phase_events_of_listed_issues upload); auto.
    + eapply Forall_impl; [exact H2|]. intros e He.
      apply (phase_events_of_listed_issues upload); auto.
  - rewrite Ht. cbn [trace s1 record app].
    constructor; [simpl; tauto|].
    eapply Forall_impl; [exact Hcmp|].
    intros e. apply compare_events_change_nothing.
Qed.

End Skipped.

(** The issue 1 is unchanged and the issue 2 is new: the pass reads the
    record of the issue 1 and does nothing else for it. *)
Lemma unchanged_issue_is_skipped_witness :
  let t := Sync.trace (snd (Sync.run
             (Sync.job_issues obliging elements
                [a_hash 1 "d1"; a_hash 2 "x"] [an_issue 1; an_issue 2])
             one_known_issue)) in
  Forall (fun e => ~ changes_issue 1 e) t /\
  t = [Sync.ListIssueIds; Sync.GetIssue 1; Sync.UpsertIssueHash 2 "x" None;
       Sync.GetIssueLink 2; Sync.AddTask 2; Sync.UpsertIssueLink 2 1002].
Proof.
  intros t. split; [|reflexivity].
  apply (unchanged_issue_is_skipped obliging elements).
  - reflexivity.
  - eexists _, (a_hash 1 "d1"). split; [reflexivity|].
    split; [reflexivity|]. split; [reflexivity|]. left. reflexivity.
Defined.

(** * Properties of the canonical text *)

(** ** Markup that survives [strip_tags] *)

Section Tags.
Import Hash.

Definition has_gt (s : text) : bool := existsb (fun c => c =? GT)%N s.

(** No ['<'] of [s] starts a match of the tag pattern. *)
Fixpoint tag_free (s : text) : bool :=
  match s with
  | [] => true
  | c :: r => negb ((c =? LT)%N && opens_tag r) && tag_free r
  end.

Definition is_angle (c : N) : bool := ((c =? LT) || (c =? GT))%N.

(** [thin s t]: [t] is [s] with some characters other than ['<'] and
    ['>'] dropped or replaced by such characters. *)
Inductive thin : text -> text -> Prop :=
  | thin_nil : thin [] []
  | thin_keep c s t : thin s t -> thin (c :: s) (c :: t)
  | thin_drop c s t : is_angle c = false -> thin s t -> thin (c :: s) t
  | thin_replace c d s t :
      is_angle c = false -> is_angle d = false -> thin s t ->
      thin (c :: s) (d :: t).

Lemma opens_tag_has_gt (d : N) (r : text) :
  opens_tag (d :: r) = negb (d =? GT)%N && has_gt r.
Proof. reflexivity. Qed.

Lemma not_angle (c : N) : is_angle c = false -> c <> LT /\ c <> GT.
Proof.
  unfold is_angle. rewrite orb_false_iff, !N.eqb_neq. tauto.
Qed.

Lemma thin_refl (s : text) : thin s s.
Proof. induction s; constructor; assumption. Qed.

Lemma thin_trans (s t u : text) : thin s t -> thin t u -> thin s u.
Proof.
  intros Hst. revert u. induction Hst; intros u Htu.
  - exact Htu.
  - inversion Htu; subst.
    + apply thin_keep. auto.
    + apply thin_drop; auto.
    + apply thin_replace; auto.
  - apply thin_drop; auto.
  - inversion Htu; subst.
    + apply thin_replace; auto.
    + apply thin_drop; auto.
    + apply thin_replace; auto.
Qed.

Lemma thin_has_gt (s t : text) : thin s t -> has_gt t = true -> has_gt s = true.
Proof.
  induction 1 as [|c s t _ IH|c s t Hc _ IH|c d s t Hc Hd _ IH]; simpl;
    intros H; auto.
  - apply orb_true_iff in H as [H|H]; apply orb_true_iff; auto.
  - apply orb_true_iff. auto.
  - apply not_angle in Hd as [_ Hd]. apply N.eqb_neq in Hd.
    rewrite Hd in H. apply orb_true_iff. auto.
Qed.

Lemma thin_opens_tag (s t : text) :
  thin s t -> opens_tag t = true -> opens_tag s = true.
Proof.
  intros Hth Ht. destruct t as [|d t']; [discriminate|].
  rewrite opens_tag_has_gt in Ht. apply andb_true_iff in Ht as [Hd Hg].
  inversion Hth; subst; rewrite opens_tag_has_gt; apply andb_true_iff.
  - split; [exact Hd | eapply thin_has_gt; eauto].
  - split.
    + apply negb_true_iff, N.eqb_neq. now apply not_angle.
    + eapply thin_has_gt; [eassumption|]. simpl. rewrite Hg. apply orb_true_r.
  - split.
    + apply negb_true_iff, N.eqb_neq. now apply not_angle.
    + eapply thin_has_gt; eauto.
Qed.

Lemma thin_tag_free (s t : text) :
  thin s t -> tag_free s = true -> tag_free t = true.
Proof.
  induction 1 as [|c s t Hth IH|c s t Hc _ IH|c d s t Hc Hd _ IH]; simpl;
    intros H; auto.
  - apply andb_true_iff in H as [H1 H2]. apply andb_true_iff. split; auto.
    apply negb_true_iff. apply negb_true_iff in H1.
    destruct (c =? LT)%N; [|reflexivity]. simpl in *.
    destruct (opens_tag t) eqn:E; [|reflexivity].
    rewrite (thin_opens_tag _ _ Hth E) in H1. discriminate.
  - apply andb_true_iff in H as [_ H2]. auto.
  - apply andb_true_iff in H as [_ H2]. apply andb_true_iff. split; auto.
    apply not_angle in Hd as [Hd _]. apply N.eqb_neq in Hd. now rewrite Hd.
Qed.

Lemma tag_free_fixed (s : text) : tag_free s = true -> strip_tags s = s.
Proof.
  unfold strip_tags. induction s as [|c r IH]; [reflexivity|]. simpl.
  intros H. apply andb_true_iff in H as [H1 H2].
  apply negb_true_iff in H1. rewrite H1, IH by exact H2. reflexivity.
Qed.

Lemma sub_tags_has_gt (b : bool) (s : text) :
  has_gt (sub_tags b s) = true -> has_gt s = true.
Proof.
  revert b. induction s as [|c r IH]; intros b; [destruct b; auto|].
  simpl. destruct b.
  - destruct (c =? GT)%N; [reflexivity|]. simpl. apply IH.
  - destruct ((c =? LT)%N && opens_tag r).
    + intros H. rewrite (IH _ H). apply orb_true_r.
    + simpl. intros H. apply orb_true_iff in H as [H|H].
      * now rewrite H.
      * rewrite (IH _ H). apply orb_true_r.
Qed.

Lemma sub_tags_opens_tag (r : text) :
  opens_tag r = false -> opens_tag (sub_tags false r) = false.
Proof.
  intros H. destruct r as [|d r']; [reflexivity|].
  rewrite opens_tag_has_gt in H.
  destruct (N.eqb_spec d GT) as [->|Hd].
  - reflexivity.
  - simpl in H.
    destruct (opens_tag (sub_tags false (d :: r'))) eqn:E; [|reflexivity].
    assert (G : has_gt (sub_tags false (d :: r')) = true).
    { destruct (sub_tags false (d :: r')) as [|x u]; [discriminate|].
      rewrite opens_tag_has_gt in E. apply andb_true_iff in E as [_ E].
      simpl. rewrite E. apply orb_true_r. }
    apply sub_tags_has_gt in G. simpl in G.
    apply N.eqb_neq in Hd. rewrite Hd, H in G. discriminate.
Qed.

(** What [strip_tags] returns has no tag left. *)
Lemma sub_tags_tag_free (b : bool) (s : text) :
  tag_free (sub_tags b s) = true.
Proof.
  revert b. induction s as [|c r IH]; intros b; [destruct b; reflexivity|].
  simpl. destruct b.
  - destruct (c =? GT)%N; apply IH.
  - destruct ((c =? LT)%N && opens_tag r) eqn:E; [apply IH|].
    simpl. rewrite IH, andb_true_r. apply negb_true_iff.
    apply andb_false_iff in E as [E|E]; [now rewrite E|].
    rewrite (sub_tags_opens_tag _ E). apply andb_false_r.
Qed.

End Tags.

(** ** The steps after the markup *)

Section Steps.
Import Hash.

Lemma is_space_not_angle (c : N) : is_space c = true -> is_angle c = false.
Proof.
  intros H. unfold is_space in H. unfold is_angle, LT, GT.
  rewrite !orb_true_iff, !andb_true_iff, !N.leb_le, !N.eqb_eq in H.
  apply orb_false_iff. rewrite !N.eqb_neq. lia.
Qed.

Lemma is_blank_is_space (c : N) : is_blank c = true -> is_space c = true.
Proof.
  unfold is_blank, SP, TAB. rewrite orb_true_iff, !N.eqb_eq.
  intros [->| ->]; reflexivity.
Qed.

Lemma is_blank_not_angle (c : N) : is_blank c = true -> is_angle c = false.
Proof. intros H. now apply is_space_not_angle, is_blank_is_space. Qed.

(** *** Every step only thins the text *)

Lemma thin_replace_crlf (s : text) : thin s (replace_crlf s).
Proof.
  induction s as [|c r IH]; [constructor|]. simpl.
  destruct ((c =? CR)%N && _) eqn:E.
  - apply thin_drop; [|exact IH].
    apply andb_true_iff in E as [E _]. apply N.eqb_eq in E. now subst c.
  - now apply thin_keep.
Qed.

Lemma thin_map (f : N -> N) (s : text) :
  (forall c, f c = c \/ (is_angle c = false /\ is_angle (f c) = false)) ->
  thin s (map f s).
Proof.
  intros Hf. induction s as [|c r IH]; [constructor|]. simpl.
  destruct (Hf c) as [->|[H1 H2]].
  - now apply thin_keep.
  - now apply thin_replace.
Qed.

Lemma thin_replace_cr (s : text) : thin s (replace_cr s).
Proof.
  apply thin_map. intros c. destruct (N.eqb_spec c CR) as [->|]; auto.
Qed.

Lemma thin_sub_spaces (b : bool) (s : text) : thin s (sub_spaces b s).
Proof.
  revert b. induction s as [|c r IH]; intros b; [constructor|]. simpl.
  destruct (is_blank c) eqn:E.
  - destruct b.
    + apply thin_drop; [now apply is_blank_not_angle | apply IH].
    + apply thin_replace; [now apply is_blank_not_angle | reflexivity | apply IH].
  - apply thin_keep, IH.
Qed.

Lemma thin_lstrip (s : text) : thin s (lstrip s).
Proof.
  induction s as [|c r IH]; [constructor|]. simpl.
  destruct (is_space c) eqn:E.
  - apply thin_drop; [now apply is_space_not_angle | exact IH].
  - apply thin_refl.
Qed.

Lemma thin_rstrip (s : text) : thin s (rstrip s).
Proof.
  induction s as [|c r IH]; [constructor|]. simpl.
  destruct (rstrip r) as [|d r'] eqn:E.
  - destruct (is_space c) eqn:Ec.
    + apply thin_drop; [now apply is_space_not_angle | exact IH].
    + apply thin_keep. exact IH.
  - apply thin_keep. exact IH.
Qed.

Lemma ascii_lower_cases (c : N) :
  ascii_lower c = c \/ ((65 <= c <= 90)%N /\ ascii_lower c = (c + 32)%N).
Proof.
  unfold ascii_lower.
  destruct (N.leb_spec 65 c), (N.leb_spec c 90); simpl; auto.
Qed.

Lemma thin_lower (s : text) : thin s (map ascii_lower s).
Proof.
  apply thin_map. intros c.
  destruct (ascii_lower_cases c) as [->|[Hc ->]]; [now left|right].
  unfold is_angle, LT, GT. rewrite !orb_false_iff, !N.eqb_neq. lia.
Qed.

(** *** What every character of the text satisfies *)

Lemma Forall_sub_tags (P : N -> Prop) (b : bool) (s : text) :
  Forall P s -> Forall P (sub_tags b s).
Proof.
  intros H. revert b. induction H as [|c r Hc _ IH]; intros b;
    [destruct b; constructor|].
  simpl. destruct b.
  - destruct (c =? GT)%N; apply IH.
  - destruct ((c =? LT)%N && opens_tag r); [apply IH|].
    constructor; [exact Hc | apply IH].
Qed.

Lemma Forall_replace_crlf (P : N -> Prop) (s : text) :
  Forall P s -> Forall P (replace_crlf s).
Proof.
  induction 1 as [|c r Hc _ IH]; [constructor|]. simpl.
  destruct ((c =? CR)%N && _); [exact IH | now constructor].
Qed.

Lemma Forall_sub_spaces (P : N -> Prop) (b : bool) (s : text) :
  P SP -> Forall P s -> Forall P (sub_spaces b s).
Proof.
  intros Hsp H. revert b. induction H as [|c r Hc _ IH]; intros b;
    [constructor|].
  simpl. destruct (is_blank c).
  - destruct b; [apply IH | constructor; [exact Hsp | apply IH]].
  - constructor; [exact Hc | apply IH].
Qed.

Lemma Forall_lstrip (P : N -> Prop) (s : text) :
  Forall P s -> Forall P (lstrip s).
Proof.
  induction 1 as [|c r Hc Hr IH]; [constructor|]. simpl.
  destruct (is_space c); [exact IH | now constructor].
Qed.

Lemma Forall_rstrip (P : N -> Prop) (s : text) :
  Forall P s -> Forall P (rstrip s).
Proof.
  induction 1 as [|c r Hc Hr IH]; [constructor|]. simpl.
  destruct (rstrip r) as [|d r'].
  - destruct (is_space c); repeat constructor; exact Hc.
  - now constructor.
Qed.

(** *** Line ends *)

Lemma replace_cr_no_cr (s : text) : Forall (fun c => c <> CR) (replace_cr s).
Proof.
  unfold replace_cr. induction s as [|c r IH]; [constructor|]. simpl.
  constructor; [|exact IH].
  destruct (N.eqb_spec c CR); [discriminate | assumption].
Qed.

Lemma replace_crlf_fixed (s : text) :
  Forall (fun c => c <> CR) s -> replace_crlf s = s.
Proof.
  induction 1 as [|c r Hc _ IH]; [reflexivity|]. simpl.
  apply N.eqb_neq in Hc. rewrite Hc, IH. reflexivity.
Qed.

Lemma replace_cr_fixed (s : text) :
  Forall (fun c => c <> CR) s -> replace_cr s = s.
Proof.
  unfold replace_cr.
  induction 1 as [|c r Hc _ IH]; [reflexivity|]. simpl.
  apply N.eqb_neq in Hc. rewrite Hc, IH. reflexivity.
Qed.

(** *** Runs of blanks *)

(** No tab, and no two spaces in a row; [prev] tells that the character
    before the text is a space. *)
Fixpoint tidy (prev : bool) (s : text) : bool :=
  match s with
  | [] => true
  | c :: r =>
      if is_blank c then negb prev && (c =? SP)%N && tidy true r
      else tidy false r
  end.

Lemma sub_spaces_tidy (b : bool) (s : text) : tidy b (sub_spaces b s) = true.
Proof.
  revert b. induction s as [|c r IH]; intros b; [reflexivity|]. simpl.
  destruct (is_blank c) eqn:E.
  - destruct b; [apply IH|]. simpl. apply IH.
  - simpl. rewrite E. apply IH.
Qed.

Lemma tidy_fixed (b : bool) (s : text) :
  tidy b s = true -> sub_spaces b s = s.
Proof.
  revert b. induction s as [|c r IH]; intros b; [reflexivity|]. simpl.
  destruct (is_blank c).
  - intros H. apply andb_true_iff in H as [H Hr].
    apply andb_true_iff in H as [Hb Hc].
    apply negb_true_iff in Hb. apply N.eqb_eq in Hc. subst b c.
    now rewrite IH.
  - intros H. now rewrite IH.
Qed.

Lemma tidy_tail (b : bool) (c : N) (r : text) :
  tidy b (c :: r) = true -> tidy false r = true.
Proof.
  simpl. destruct (is_blank c); [|auto].
  intros H. apply andb_true_iff in H as [_ H].
  destruct r as [|d r']; [reflexivity|]. simpl in *.
  destruct (is_blank d); [|exact H]. discriminate.
Qed.

Lemma tidy_lstrip (s : text) : tidy false s = true -> tidy false (lstrip s) = true.
Proof.
  induction s as [|c r IH]; [auto|]. intros H. simpl.
  destruct (is_space c); [|exact H]. apply IH. eapply tidy_tail, H.
Qed.

Lemma tidy_rstrip (b : bool) (s : text) :
  tidy b s = true -> tidy b (rstrip s) = true.
Proof.
  revert b. induction s as [|c r IH]; intros b H; [reflexivity|].
  simpl in H. simpl.
  destruct (rstrip r) as [|d r'] eqn:E.
  - destruct (is_space c) eqn:Ec; [reflexivity|]. simpl.
    destruct (is_blank c) eqn:Eb; [|reflexivity].
    apply is_blank_is_space in Eb. congruence.
  - simpl. destruct (is_blank c).
    + apply andb_true_iff in H as [H Hr]. rewrite H. apply (IH true Hr).
    + apply (IH false H).
Qed.

(** *** Blanks at both ends *)

Lemma rstrip_nil_lstrip (s : text) : rstrip s = [] -> lstrip s = [].
Proof.
  induction s as [|c r IH]; [reflexivity|]. simpl.
  destruct (rstrip r) as [|d r'].
  - destruct (is_space c); [auto | discriminate].
  - discriminate.
Qed.

Lemma rstrip_rstrip (s : text) : rstrip (rstrip s) = rstrip s.
Proof.
  induction s as [|c r IH]; [reflexivity|]. simpl.
  destruct (rstrip r) as [|d r'] eqn:E.
  - destruct (is_space c) eqn:Ec; [reflexivity|]. simpl. now rewrite Ec.
  - cbn [rstrip]. cbn [rstrip] in IH. rewrite IH. reflexivity.
Qed.

Lemma lstrip_rstrip_head (s : text) :
  lstrip s = s -> lstrip (rstrip s) = rstrip s.
Proof.
  destruct s as [|c r]; [reflexivity|]. simpl.
  destruct (is_space c) eqn:Ec.
  - intros H. exfalso.
    assert (Hl : (length (lstrip r) <= length r)%nat).
    { clear. induction r as [|d r IH]; simpl; [lia|].
      destruct (is_space d); simpl; lia. }
    rewrite H in Hl. simpl in Hl. lia.
  - intros _. destruct (rstrip r); simpl; now rewrite Ec.
Qed.

Lemma lstrip_lstrip (s : text) : lstrip (lstrip s) = lstrip s.
Proof.
  induction s as [|c r IH]; [reflexivity|]. simpl.
  destruct (is_space c) eqn:Ec; [exact IH|]. simpl. now rewrite Ec.
Qed.

Lemma strip_strip (s : text) : strip (strip s) = strip s.
Proof.
  unfold strip.
  rewrite (lstrip_rstrip_head (lstrip s) (lstrip_lstrip s)).
  apply rstrip_rstrip.
Qed.

End Steps.

(** ** Lower case commutes with the other steps *)

Section LowerCase.
Import Hash.

Lemma ascii_lower_eqb (k c : N) :
  (k < 65)%N -> (ascii_lower c =? k)%N = (c =? k)%N.
Proof.
  intros Hk. destruct (ascii_lower_cases c) as [->|[Hc ->]]; [reflexivity|].
  destruct (N.eqb_spec (c + 32) k), (N.eqb_spec c k); try reflexivity; lia.
Qed.

Lemma ascii_lower_idem (c : N) : ascii_lower (ascii_lower c) = ascii_lower c.
Proof.
  destruct (ascii_lower_cases c) as [E|[Hc E]]; rewrite !E; [reflexivity|].
  destruct (ascii_lower_cases (c + 32)) as [H|[H _]]; [exact H | lia].
Qed.

Lemma is_blank_lower (c : N) : is_blank (ascii_lower c) = is_blank c.
Proof.
  unfold is_blank, SP, TAB. now rewrite !ascii_lower_eqb by lia.
Qed.

Lemma is_space_lower (c : N) : is_space (ascii_lower c) = is_space c.
Proof.
  destruct (ascii_lower_cases c) as [E|[Hc E]]; rewrite E; [reflexivity|].
  assert (F : forall d, (33 <= d <= 132)%N -> is_space d = false).
  { intros d Hd. destruct (is_space d) eqn:Ed; [|reflexivity]. exfalso.
    unfold is_space in Ed.
    rewrite !orb_true_iff, !andb_true_iff, !N.leb_le, !N.eqb_eq in Ed. lia. }
  rewrite !F by lia. reflexivity.
Qed.

Lemma replace_crlf_lower (s : text) :
  replace_crlf (map ascii_lower s) = map ascii_lower (replace_crlf s).
Proof.
  induction s as [|c r IH]; [reflexivity|]. cbn [map replace_crlf].
  rewrite (ascii_lower_eqb CR) by (unfold CR; lia).
  assert (E : match map ascii_lower r with
              | d :: _ => (d =? LF)%N | [] => false end
            = match r with d :: _ => (d =? LF)%N | [] => false end).
  { destruct r as [|d r']; [reflexivity|]. simpl.
    apply ascii_lower_eqb. unfold LF. lia. }
  rewrite E.
  destruct ((c =? CR)%N && _); [exact IH|]. simpl. now rewrite IH.
Qed.

Lemma replace_cr_lower (s : text) :
  replace_cr (map ascii_lower s) = map ascii_lower (replace_cr s).
Proof.
  unfold replace_cr. rewrite !map_map. apply map_ext. intros c.
  rewrite (ascii_lower_eqb CR) by (unfold CR; lia).
  destruct (c =? CR)%N; reflexivity.
Qed.

Lemma sub_spaces_lower (b : bool) (s : text) :
  sub_spaces b (map ascii_lower s) = map ascii_lower (sub_spaces b s).
Proof.
  revert b. induction s as [|c r IH]; intros b; [reflexivity|].
  cbn [map sub_spaces]. rewrite is_blank_lower.
  destruct (is_blank c).
  - destruct b; [apply IH|]. simpl. now rewrite IH.
  - simpl. now rewrite IH.
Qed.

Lemma lstrip_lower (s : text) :
  lstrip (map ascii_lower s) = map ascii_lower (lstrip s).
Proof.
  induction s as [|c r IH]; [reflexivity|]. cbn [map lstrip].
  rewrite is_space_lower. destruct (is_space c); [exact IH | reflexivity].
Qed.

Lemma rstrip_lower (s : text) :
  rstrip (map ascii_lower s) = map ascii_lower (rstrip s).
Proof.
  induction s as [|c r IH]; [reflexivity|]. cbn [map rstrip].
  rewrite IH, is_space_lower.
  destruct (rstrip r); simpl; [destruct (is_space c)|]; reflexivity.
Qed.

Lemma strip_lower (s : text) :
  strip (map ascii_lower s) = map ascii_lower (strip s).
Proof. unfold strip. now rewrite lstrip_lower, rstrip_lower. Qed.

(** The steps of [canon_text] after the entities, on ASCII text. *)
Definition tidy_up (s : text) : text :=
  map ascii_lower (strip (SPACE_RE_sub (replace_cr (replace_crlf s)))).

Lemma tidy_up_idem (s : text) : tidy_up (tidy_up s) = tidy_up s.
Proof.
  unfold tidy_up at 1.
  set (u := strip (SPACE_RE_sub (replace_cr (replace_crlf s)))).
  assert (Hcr : Forall (fun c => c <> CR) u).
  { apply Forall_rstrip, Forall_lstrip, Forall_sub_spaces;
      [discriminate | apply replace_cr_no_cr]. }
  assert (Ht : tidy false u = true).
  { apply tidy_rstrip, tidy_lstrip, sub_spaces_tidy. }
  unfold tidy_up. fold u.
  rewrite replace_crlf_lower, replace_cr_lower.
  rewrite (replace_crlf_fixed u Hcr), (replace_cr_fixed u Hcr).
  unfold SPACE_RE_sub. rewrite sub_spaces_lower, (tidy_fixed _ _ Ht).
  rewrite strip_lower. unfold u at 1. rewrite strip_strip. fold u.
  rewrite map_map. apply map_ext. intros c. apply ascii_lower_idem.
Qed.

Lemma thin_tidy_up (s : text) : thin s (tidy_up s).
Proof.
  unfold tidy_up, strip, SPACE_RE_sub.
  eapply thin_trans; [apply thin_replace_crlf|].
  eapply thin_trans; [apply thin_replace_cr|].
  eapply thin_trans; [apply thin_sub_spaces|].
  eapply thin_trans; [apply thin_lstrip|].
  eapply thin_trans; [apply thin_rstrip|].
  apply thin_lower.
Qed.

(** ASCII text without ['&']. *)
Definition plain (c : N) : Prop := (c < 128)%N /\ c <> AMP.

Lemma plain_tidy_up (s : text) : Forall plain s -> Forall plain (tidy_up s).
Proof.
  intros H. unfold tidy_up, strip, SPACE_RE_sub, replace_cr.
  rewrite Forall_map.
  assert (Hl : forall c, plain c -> plain (ascii_lower c)).
  { intros c [H1 H2]. unfold plain, AMP in *.
    destruct (ascii_lower_cases c) as [->|[Hc ->]]; lia. }
  eapply Forall_impl; [|exact Hl].
  apply Forall_rstrip, Forall_lstrip, Forall_sub_spaces;
    [unfold plain, SP, AMP; lia|].
  rewrite Forall_map. eapply Forall_impl; [apply Forall_replace_crlf, H|].
  intros c [H1 H2]. unfold plain, CR, LF, AMP in *. simpl.
  destruct (N.eqb_spec c 13); lia.
Qed.

End LowerCase.

(** ** Canonical text of canonical text *)

Section CanonTwice.
Import Hash.
Context {L : TextLib}.

(** What the Python library does on text without ['&'] and on ASCII
    text: [html.unescape] returns a string without ['&'] as it is,
    ASCII text is in normal form, and [str.casefold] lower-cases the
    ASCII letters. *)
Hypothesis unescape_without_amp :
  forall s : text, Forall (fun c => c <> AMP) s -> html_unescape s = s.
Hypothesis nfc_ascii :
  forall s : text, Forall (fun c => (c < 128)%N) s -> nfc s = s.
Hypothesis casefold_ascii :
  forall s : text, Forall (fun c => (c < 128)%N) s ->
    casefold s = map ascii_lower s.

Lemma ZW_RE_sub_ascii (s : text) :
  Forall (fun c => (c < 128)%N) s -> ZW_RE_sub s = s.
Proof.
  unfold ZW_RE_sub. induction 1 as [|c r Hc _ IH]; [reflexivity|]. simpl.
  assert (E : is_zero_width c = false).
  { unfold is_zero_width. rewrite orb_false_iff, andb_false_iff.
    rewrite !N.leb_gt, N.eqb_neq. lia. }
  rewrite E, IH. reflexivity.
Qed.

(** On plain text [canon_text] is [tidy_up] after the markup. *)
Lemma canon_text_plain (x : text) (strip_html : bool) :
  Forall plain x ->
  canon_text (Some x) strip_html =
    tidy_up (if strip_html then strip_tags x else x).
Proof.
  intros Hx. unfold canon_text.
  set (x' := if strip_html then strip_tags x else x).
  assert (Hx' : Forall plain x').
  { subst x'. destruct strip_html; [apply Forall_sub_tags|]; exact Hx. }
  rewrite unescape_without_amp
    by (eapply Forall_impl; [exact Hx'|]; intros c [_ H]; exact H).
  assert (Ha : Forall (fun c => (c < 128)%N) (replace_cr (replace_crlf x'))).
  { unfold replace_cr. rewrite Forall_map.
    eapply Forall_impl; [apply Forall_replace_crlf, Hx'|].
    intros c [H _]. simpl. unfold CR, LF.
    destruct (N.eqb_spec c 13); lia. }
  rewrite (nfc_ascii _ Ha), (ZW_RE_sub_ascii _ Ha).
  rewrite casefold_ascii; [reflexivity|].
  unfold strip, SPACE_RE_sub.
  apply Forall_rstrip, Forall_lstrip, Forall_sub_spaces;
    [unfold SP; lia | exact Ha].
Qed.

(** C5, amended.  On ASCII text without ['&'] canonicalisation is
    idempotent, with and without the removal of markup. *)
Theorem canon_text_idempotent_without_entities (x : text)
    (strip_html : bool) :
  Forall (fun c => (c < 128)%N /\ c <> AMP) x ->
  canon_text (Some (canon_text (Some x) strip_html)) strip_html
    = canon_text (Some x) strip_html.
Proof.
  intros Hx. change (Forall plain x) in Hx.
  rewrite (canon_text_plain x strip_html Hx).
  set (x' := if strip_html then strip_tags x else x).
  assert (Hx' : Forall plain x').
  { subst x'. destruct strip_html; [apply Forall_sub_tags|]; exact Hx. }
  rewrite (canon_text_plain _ strip_html (plain_tidy_up _ Hx')).
  assert (E : (if strip_html then strip_tags (tidy_up x') else tidy_up x')
              = tidy_up x').
  { destruct strip_html; [|reflexivity].
    apply tag_free_fixed.
    apply (thin_tag_free x'); [apply thin_tidy_up|].
    subst x'. apply sub_tags_tag_free. }
  rewrite E. apply tidy_up_idem.
Qed.

End CanonTwice.

(** ** The canonical text on examples *)

Section CanonExamples.
Import Hash.

Lemma ascii_unescape_without_amp (s : text) :
  Forall (fun c => c <> AMP) s -> ascii_unescape O s = s.
Proof.
  induction 1 as [|c r Hc _ IH]; [reflexivity|]. simpl.
  apply N.eqb_neq in Hc. rewrite Hc, IH. reflexivity.
Qed.

(** C5, as stated, fails: the canonical text of [&lt;b&gt;] is [<b>],
    whose canonical text is empty. *)
Lemma canon_text_not_idempotent :
  let x := of_string "&lt;b&gt;" in
  @canon_text ascii_lib (Some x) true = of_string "<b>" /\
  @canon_text ascii_lib (Some (@canon_text ascii_lib (Some x) true)) true = [] /\
  @canon_text ascii_lib (Some (@canon_text ascii_lib (Some x) true)) true
    <> @canon_text ascii_lib (Some x) true.
Proof. repeat split. discriminate. Qed.

(** An escaped entity is decoded once by each pass. *)
Example canon_text_decodes_again :
  @canon_text ascii_lib (Some (of_string "&amp;lt;")) true = of_string "&lt;" /\
  @canon_text ascii_lib (Some (of_string "&lt;")) true = of_string "<".
Proof. split; reflexivity. Qed.

Lemma canon_text_idempotent_without_entities_witness :
  let x := of_string "  <P>Hello   World</P> <br/>" in
  @canon_text ascii_lib (Some (@canon_text ascii_lib (Some x) true)) true
    = @canon_text ascii_lib (Some x) true /\
  @canon_text ascii_lib (Some x) true = of_string "hello world".
Proof.
  intros x. split; [|reflexivity].
  apply (@canon_text_idempotent_without_entities ascii_lib
           ascii_unescape_without_amp (fun s _ => eq_refl)
           (fun s _ => eq_refl) x true).
  subst x. vm_compute. repeat constructor; discriminate.
Defined.

End CanonExamples.

(** * Further properties of the store *)

Section IssueRecords.
Import Repository.

(** The fields of the hash at [k] once [UPSERT_J_ISSUE_LUA] has run. *)
Lemma UPSERT_J_ISSUE_LUA_fields (now : Z) (h : option issue_rec)
    (d a : string) :
  let rec' := fst (UPSERT_J_ISSUE_LUA now h d a) in
  h_description rec' = Some d /\
  default EmptyString (h_attachment rec') = a /\
  created_at rec' = match h with
                    | Some rec => created_at rec
                    | None => Some now
                    end.
Proof.
  unfold UPSERT_J_ISSUE_LUA.
  destruct h as [rec|]; cbn [h_description h_attachment set_created_at no_fields
                             default].
  - destruct (h_description rec) as [d0|] eqn:Hd.
    + destruct (String.eqb_spec d0 d) as [->|Hne]; cbn [negb];
        destruct (String.eqb_spec (default EmptyString (h_attachment rec)) a)
          as [Ha|Ha]; cbn; auto.
    + destruct (String.eqb_spec (default EmptyString (h_attachment rec)) a)
        as [Ha|Ha]; cbn; auto.
  - destruct (String.eqb_spec EmptyString a) as [Ha|Ha]; cbn; auto.
Qed.

Lemma UPSERT_J_ISSUE_LUA_unchanged (now : Z) (rec : issue_rec)
    (d a : string) :
  snd (UPSERT_J_ISSUE_LUA now (Some rec) d a) = [] ->
  h_description rec = Some d /\ default EmptyString (h_attachment rec) = a.
Proof.
  unfold UPSERT_J_ISSUE_LUA.
  destruct (h_description rec) as [d0|];
    [destruct (String.eqb_spec d0 d) as [E|E]|];
    destruct (String.eqb_spec (default EmptyString (h_attachment rec)) a)
      as [Ha|Ha];
    cbn; intros H; try discriminate; subst; auto.
Qed.

(** X1.  [upsert_issue_hash] returns [False] exactly when the key holds
    a record with the given description fingerprint and the given
    attachment fingerprint, a missing attachment fingerprint counting
    as the empty one.  In every other case, a key that does not exist
    or a fingerprint that differs, it returns [True]. *)
Theorem upsert_issue_hash_false_iff_nothing_changed (r : redis) (k : Z)
    (d : string) (a : option string) :
  snd (upsert_issue_hash r k d a) = false <->
  exists rec,
    issues r !! k = Some rec /\
    h_description rec = Some d /\
    default EmptyString (h_attachment rec) = Hash.or_empty a.
Proof.
  split.
  - intros H. destruct (issues r !! k) as [rec|] eqn:Hk.
    + exists rec. split; [reflexivity|].
      apply (UPSERT_J_ISSUE_LUA_unchanged (clock r)).
      unfold upsert_issue_hash in H. rewrite Hk in H.
      destruct (UPSERT_J_ISSUE_LUA (clock r) (Some rec) d (Hash.or_empty a))
        as [rec' changed]. cbn in *. now destruct changed.
    + destruct (upsert_issue_hash_fresh r k d a Hk) as (rec & E & _).
      rewrite E in H. discriminate.
  - intros (rec & Hk & Hd & Ha).
    now rewrite (upsert_issue_hash_same r k rec d a Hk Hd Ha).
Qed.

(** The store once [upsert_issue_hash] has run. *)
Lemma upsert_issue_hash_effect (r : redis) (k : Z) (d : string)
    (a : option string) :
  let r' := fst (upsert_issue_hash r k d a) in
  (exists rec',
     get_issue r' k = Some rec' /\
     h_description rec' = Some d /\
     default EmptyString (h_attachment rec') = Hash.or_empty a /\
     created_at rec' = match issues r !! k with
                       | Some rec => created_at rec
                       | None => Some (clock r)
                       end) /\
  (forall k', k' <> k -> get_issue r' k' = get_issue r k') /\
  links r' = links r /\ clock r' = clock r.
Proof.
  unfold upsert_issue_hash, get_issue.
  pose proof (UPSERT_J_ISSUE_LUA_fields (clock r) (issues r !! k) d
                (Hash.or_empty a)) as H.
  destruct (UPSERT_J_ISSUE_LUA (clock r) (issues r !! k) d (Hash.or_empty a))
    as [rec' changed]. cbn [fst issues links clock] in *.
  split; [|split; [|split; reflexivity]].
  - exists rec'. rewrite lookup_insert_eq. tauto.
  - intros k' Hk. now rewrite lookup_insert_ne.
Qed.

(** X2.  After [upsert_issue_hash] the record at the key carries the
    given fingerprints, the creation time it had before or, for a new
    key, the current second.  No other issue record, no link record and
    not the clock is touched. *)
Theorem upsert_issue_hash_then_get_issue (r : redis) (k : Z) (d : string)
    (a : option string) :
  let r' := fst (upsert_issue_hash r k d a) in
  (exists rec',
     get_issue r' k = Some rec' /\
     h_description rec' = Some d /\
     default EmptyString (h_attachment rec') = Hash.or_empty a /\
     created_at rec' = match issues r !! k with
                       | Some rec => created_at rec
                       | None => Some (clock r)
                       end) /\
  (forall k', k' <> k -> get_issue r' k' = get_issue r k') /\
  links r' = links r /\ clock r' = clock r.
Proof. exact (upsert_issue_hash_effect r k d a). Qed.

Lemma upsert_issue_hash_then_get_issue_witness :
  get_issue (fst (upsert_issue_hash
                    (fst (upsert_issue_hash (empty_redis 100) 7 "d1" None))
                    8 "e1" (Some "a1"%string))) 7
  = get_issue (fst (upsert_issue_hash (empty_redis 100) 7 "d1" None)) 7.
Proof.
  apply (upsert_issue_hash_then_get_issue
           (fst (upsert_issue_hash (empty_redis 100) 7 "d1" None))
           8 "e1" (Some "a1"%string)).
  lia.
Defined.

(** X3.  Writing the same fingerprints again, at whatever later time,
    changes nothing in the store and returns [False]. *)
Theorem upsert_issue_hash_twice (r : redis) (k : Z) (d : string)
    (a : option string) (t : Z) :
  let r' := at_time t (fst (upsert_issue_hash r k d a)) in
  upsert_issue_hash r' k d a = (r', false).
Proof.
  intros r'.
  destruct (upsert_issue_hash_effect r k d a)
    as [(rec' & Hget & Hd & Ha & _) _].
  apply (upsert_issue_hash_same r' k rec' d a); [|exact Hd|exact Ha].
  exact Hget.
Qed.

(** X4.  After [upsert_issue_link] the link record of the issue carries
    the given task, whatever task it carried before, and keeps the
    creation time it had; no other link record and no issue record is
    touched. *)
Theorem upsert_issue_link_then_get_issue_link (r : redis) (j p : Z) :
  let r' := upsert_issue_link r j p in
  (exists l,
     get_issue_link r' j = Some l /\
     p_issue l = Some p /\ j_issue l = Some j /\
     l_created_at l = match links r !! j with
                      | Some l0 => l_created_at l0
                      | None => Some (clock r)
                      end) /\
  (forall j', j' <> j -> get_issue_link r' j' = get_issue_link r j') /\
  issues r' = issues r.
Proof.
  unfold upsert_issue_link, UPSERT_LINK_LUA, get_issue_link.
  destruct (links r !! j) as [l0|]; cbn [links issues].
  - split; [|split; [|reflexivity]].
    + eexists. rewrite lookup_insert_eq. repeat split.
    + intros j' Hj. now rewrite lookup_insert_ne.
  - split; [|split; [|reflexivity]].
    + eexists. rewrite lookup_insert_eq. repeat split.
    + intros j' Hj. now rewrite lookup_insert_ne.
Qed.

Lemma upsert_issue_link_then_get_issue_link_witness :
  get_issue_link (upsert_issue_link (upsert_issue_link (empty_redis 5) 1 100)
                    2 200) 1
  = get_issue_link (upsert_issue_link (empty_redis 5) 1 100) 1.
Proof.
  apply (upsert_issue_link_then_get_issue_link
           (upsert_issue_link (empty_redis 5) 1 100) 2 200).
  lia.
Defined.

End IssueRecords.

(** * Further properties of the comment listing *)

Section SortedRows.
Import JiraComments.
Variable lib : datetime_lib.

Lemma filter_nothing {A} (f : A -> bool) (l : list A) :
  (forall z, In z l -> f z = false) -> List.filter f l = [].
Proof.
  induction l as [|y r IH]; intros H; [reflexivity|]. simpl.
  rewrite (H y) by now left. apply IH. intros z Hz. apply H. now right.
Qed.

Definition instant (d : datetime) : Z :=
  match d with Naive t => t | Aware t => t end.

Definition is_aware (d : datetime) : bool :=
  match d with Aware _ => true | Naive _ => false end.

(** The order of two keys that can be compared. *)
Definition key_le (a b : row) : Prop :=
  instant (created_dt a) <= instant (created_dt b).

(** The keys of the rows can be compared: all are naive or all are
    aware. *)
Definition comparable (l : list row) : Prop :=
  forall x y, In x l -> In y l ->
    is_aware (created_dt x) = is_aware (created_dt y).

Definition of_kind (k : bool) (x : row) : Prop :=
  is_aware (created_dt x) = k.

Lemma datetime_lt_same (a b : datetime) :
  is_aware a = is_aware b -> datetime_lt a b = Ok (instant a <? instant b).
Proof. destruct a, b; cbn; intros H; congruence. Qed.

Lemma datetime_lt_mixed (a b : datetime) :
  is_aware a <> is_aware b -> datetime_lt a b = Raise OtherException.
Proof. destruct a, b; cbn; intros H; congruence. Qed.

Lemma insert_row_same (k : bool) (x : row) (l : list row) :
  of_kind k x -> Forall (of_kind k) l -> StronglySorted key_le l ->
  exists out,
    insert_row x l = Ok out /\ Permutation (x :: l) out /\
    StronglySorted key_le out.
Proof.
  intros Hx Hl Hs. induction Hs as [|y r Hr IH Hy].
  - exists [x]. repeat split; constructor; constructor.
  - apply Forall_cons in Hl as [Hky Hl]. cbn [insert_row].
    rewrite datetime_lt_same by (unfold of_kind in *; congruence).
    destruct (Z.ltb_spec (instant (created_dt x)) (instant (created_dt y)))
      as [Hlt|Hge].
    + exists (x :: y :: r). split; [reflexivity|]. split; [reflexivity|].
      constructor; [now constructor|].
      constructor; [unfold key_le; lia|].
      eapply Forall_impl; [exact Hy|]. unfold key_le. intros z Hz. lia.
    + destruct (IH Hl) as (out & E & Hp & Hso). rewrite E.
      exists (y :: out). split; [reflexivity|]. split.
      * rewrite <- Hp. apply Permutation_swap.
      * constructor; [exact Hso|].
        rewrite <- Hp. constructor; [unfold key_le; lia | exact Hy].
Qed.

Lemma insert_row_mixed (k : bool) (x : row) (l : list row) :
  ~ of_kind k x -> Forall (of_kind k) l -> l <> [] ->
  insert_row x l = Raise OtherException.
Proof.
  intros Hx Hl Hne. destruct l as [|y r]; [contradiction|].
  apply Forall_cons in Hl as [Hy _]. cbn [insert_row].
  rewrite datetime_lt_mixed; [reflexivity|].
  unfold of_kind in *. congruence.
Qed.

(** One step of the sort. *)
Definition sort_step (acc : outcome (list row)) (x : row)
    : outcome (list row) :=
  match acc with
  | Ok sorted => insert_row x sorted
  | Raise e => Raise e
  end.

Lemma sort_raised (l : list row) (e : exn) :
  fold_left sort_step l (Raise e) = Raise e.
Proof. induction l as [|x r IH]; [reflexivity | exact IH]. Qed.

Lemma sort_same (k : bool) (l acc : list row) :
  Forall (of_kind k) acc -> Forall (of_kind k) l ->
  StronglySorted key_le acc ->
  exists out,
    fold_left sort_step l (Ok acc) = Ok out /\
    Permutation (acc ++ l) out /\ StronglySorted key_le out.
Proof.
  revert acc. induction l as [|x r IH]; intros acc Hacc Hl Hs.
  - exists acc. rewrite app_nil_r. auto.
  - apply Forall_cons in Hl as [Hx Hr]. cbn [fold_left sort_step].
    destruct (insert_row_same k x acc Hx Hacc Hs) as (a & E & Hp & Hsa).
    rewrite E.
    destruct (IH a) as (out & Eo & Hpo & Hso); [|exact Hr|exact Hsa|].
    { rewrite <- Hp. now constructor. }
    exists out. split; [exact Eo|]. split; [|exact Hso].
    rewrite <- Hpo, <- Hp. cbn. symmetry. apply Permutation_middle.
Qed.

Lemma sort_mixed (k : bool) (l acc : list row) :
  Forall (of_kind k) acc -> acc <> [] -> StronglySorted key_le acc ->
  ~ Forall (of_kind k) l ->
  fold_left sort_step l (Ok acc) = Raise OtherException.
Proof.
  revert acc. induction l as [|x r IH]; intros acc Hacc Hne Hs Hl.
  - exfalso. apply Hl. constructor.
  - cbn [fold_left sort_step].
    destruct (Bool.bool_dec (is_aware (created_dt x)) k) as [Hx|Hx].
    + destruct (insert_row_same k x acc Hx Hacc Hs) as (a & E & Hp & Hsa).
      rewrite E. apply IH.
      * rewrite <- Hp. now constructor.
      * intros ->. symmetry in Hp. now apply Permutation_nil_cons in Hp.
      * exact Hsa.
      * intros Hr. apply Hl. now constructor.
    + rewrite (insert_row_mixed k x acc Hx Hacc Hne). apply sort_raised.
Qed.

(** The sort at the end of [get_issue_comments]: when the keys can be
    compared the rows come back in ascending order of creation time,
    each once; when a naive key meets an aware one it raises. *)
Lemma sort_rows_outcome (l : list row) :
  (comparable l ->
   exists out,
     sort_rows l = Ok out /\ Permutation l out /\
     StronglySorted key_le out) /\
  (~ comparable l -> sort_rows l = Raise OtherException).
Proof.
  unfold sort_rows. change (fun acc x => _) with sort_step.
  destruct l as [|x r].
  - split.
    + intros _. exists []. repeat split; constructor.
    + intros H. exfalso. apply H. intros x y [].
  - cbn [fold_left sort_step insert_row].
    set (k := is_aware (created_dt x)).
    assert (Hx : Forall (of_kind k) [x]) by (repeat constructor).
    assert (Hs : StronglySorted key_le [x]) by (repeat constructor).
    destruct (List.Forall_dec (of_kind k)
                (fun y => Bool.bool_dec (is_aware (created_dt y)) k) r)
      as [Hr|Hr].
    + split.
      * intros _. exact (sort_same k r [x] Hx Hr Hs).
      * intros Hn. exfalso. apply Hn. intros a b Ha Hb.
        assert (Hall : Forall (of_kind k) (x :: r)) by now constructor.
        rewrite List.Forall_forall in Hall.
        rewrite (Hall a Ha), (Hall b Hb). reflexivity.
    + split.
      * intros Hc. exfalso. apply Hr. apply List.Forall_forall. intros y Hy.
        unfold of_kind, k. apply Hc; [now right | now left].
      * intros _. apply (sort_mixed k r [x] Hx); [discriminate|exact Hs|].
        exact Hr.
Qed.

End SortedRows.

Section AllPages.
Import JiraComments.
Variable lib : datetime_lib.

(** A tracker that holds the comments [all] of an issue, answers a
    request at an offset with at most [size offset] of them, at least
    one, and announces their number. *)
Definition paging_server (all : list raw_comment) (size : Z -> nat)
    (start_at : Z) : outcome page :=
  Ok {| comments := take (size start_at) (drop (Z.to_nat start_at) all);
        total := Z.of_nat (length all) |}.

Lemma fetch_pages_all (all : list raw_comment) (size : Z -> nat)
    (issue : Z) (fuel k : nat) :
  (forall o, 1 <= size o)%nat ->
  (k < length all)%nat ->
  (length all - k <= fuel)%nat ->
  fetch_pages lib (paging_server all size) fuel issue (Z.of_nat k)
    (map (make_row lib issue) (take k all))
  = Some (sort_rows (map (make_row lib issue) all)).
Proof.
  intros Hsize. revert k.
  induction fuel as [|fuel IH]; intros k Hk Hfuel; [lia|].
  cbn [fetch_pages paging_server comments total].
  rewrite Nat2Z.id.
  remember (take (size (Z.of_nat k)) (drop k all)) as pg eqn:Epg.
  assert (Hlen : (1 <= length pg)%nat).
  { subst pg. rewrite length_take, length_drop.
    specialize (Hsize (Z.of_nat k)). lia. }
  assert (Hle : (k + length pg <= length all)%nat).
  { subst pg. rewrite length_take, length_drop. lia. }
  assert (Hrows : take k all ++ pg = take (k + length pg) all).
  { subst pg. rewrite take_take_drop, length_take, length_drop.
    destruct (Nat.le_gt_cases (size (Z.of_nat k)) (length all - k)) as [H|H].
    - f_equal. lia.
    - rewrite !take_ge by lia. reflexivity. }
  clear Epg. destruct pg as [|c pg']; [simpl in Hlen; lia|].
  cbn [bool_of_nil]. rewrite orb_false_r.
  rewrite <- map_app, Hrows.
  replace (Z.of_nat k + Z.of_nat (length (c :: pg')))
    with (Z.of_nat (k + length (c :: pg'))) by lia.
  destruct (Z.geb_spec (Z.of_nat (k + length (c :: pg')))
              (Z.of_nat (length all))) as [Hge|Hlt].
  - rewrite take_ge by lia. reflexivity.
  - apply IH; lia.
Qed.

(** X6.  Against a tracker that serves the comments of an issue page
    by page, each page holding at least one comment while some are
    left, the loop ends within one request per comment with the rows
    of all the comments, and returns what the sort makes of them: the
    rows in ascending order of creation time, each once, when their
    creation times can be compared, and the [TypeError] of the sort
    when a naive time (a missing or unreadable [created]) meets an
    aware one. *)
Theorem get_issue_comments_reads_all_pages (all : list raw_comment)
    (size : Z -> nat) (issue : Z) (fuel : nat) :
  (forall o, 1 <= size o)%nat ->
  (length all <= fuel)%nat -> (1 <= fuel)%nat ->
  let rows := map (make_row lib issue) all in
  (comparable rows ->
   exists out,
     get_issue_comments lib (paging_server all size) fuel issue
       = Some (Ok out) /\
     Permutation rows out /\ StronglySorted key_le out) /\
  (~ comparable rows ->
   get_issue_comments lib (paging_server all size) fuel issue
     = Some (Raise OtherException)).
Proof.
  intros Hsize Hfuel Hone rows.
  assert (E : get_issue_comments lib (paging_server all size) fuel issue
              = Some (sort_rows rows)).
  { unfold get_issue_comments. subst rows. destruct all as [|c all'].
    - destruct fuel as [|fuel]; [lia|].
      cbn [fetch_pages paging_server comments]. rewrite drop_nil, take_nil.
      reflexivity.
    - apply (fetch_pages_all (c :: all') size issue fuel 0 Hsize);
        simpl in *; lia. }
  rewrite E. destruct (sort_rows_outcome rows) as [Hok Hraise]. split.
  - intros Hc. destruct (Hok Hc) as (out & Eo & Hp & Hs).
    exists out. rewrite Eo. auto.
  - intros Hn. now rewrite (Hraise Hn).
Qed.

(** X7.  An empty page drops what was fetched before it: when the
    first page holds some comments, fewer than the announced total, and
    the page after it comes back empty (comments removed in between,
    or a total that was too high), the call returns no comment at
    all. *)
Theorem empty_later_page_drops_fetched_comments
    (server : Z -> outcome page) (fuel : nat) (issue : Z) (p0 p1 : page) :
  server 0 = Ok p0 ->
  comments p0 <> [] ->
  Z.of_nat (length (comments p0)) < total p0 ->
  server (Z.of_nat (length (comments p0))) = Ok p1 ->
  comments p1 = [] ->
  get_issue_comments lib server (S (S fuel)) issue = Some (Ok []).
Proof.
  intros H0 Hne Hlt H1 He. unfold get_issue_comments.
  cbn [fetch_pages]. rewrite H0.
  destruct (comments p0) as [|c cs] eqn:E0; [contradiction|].
  cbn [bool_of_nil]. rewrite orb_false_r.
  destruct (Z.geb_spec (0 + Z.of_nat (length (c :: cs))) (total p0)); [lia|].
  cbn [fetch_pages]. rewrite Z.add_0_l, H1, He. reflexivity.
Qed.

End AllPages.

(** A comment created at the given time. *)
Definition comment_of (n created : string) : JiraComments.raw_comment :=
  {| JiraComments.c_id := n; JiraComments.c_author := "ann";
     JiraComments.c_created := created;
     JiraComments.c_renderedBody := Some [] |}.

(** Three comments with times of decreasing length, served two and
    one. *)
Definition three_comments : list JiraComments.raw_comment :=
  [comment_of "c1" "2025-12-01T18:22:33.456+0000";
   comment_of "c2" "2025-12-01T18:22:33+0000";
   comment_of "c3" "2025-12-01T18:22+0000"].

Lemma get_issue_comments_reads_all_pages_witness :
  exists out,
    JiraComments.get_issue_comments length_lib
      (paging_server three_comments (fun _ => 2%nat)) 3 42 = Some (Ok out) /\
    map JiraComments.id out = ["c3"; "c2"; "c1"]%string.
Proof.
  destruct (get_issue_comments_reads_all_pages length_lib three_comments
              (fun _ => 2%nat) 42 3) as [Hok _].
  - intros o. lia.
  - simpl. lia.
  - lia.
  - destruct Hok as (out & E & _).
    + intros x y Hx Hy. simpl in Hx, Hy.
      destruct Hx as [<-|[<-|[<-|[]]]], Hy as [<-|[<-|[<-|[]]]]; reflexivity.
    + exists out. split; [exact E|].
      assert (E' : JiraComments.get_issue_comments length_lib
                     (paging_server three_comments (fun _ => 2%nat)) 3 42
                   = Some (Ok (map (JiraComments.make_row length_lib 42)
                                 (rev three_comments)))) by reflexivity.
      rewrite E' in E. injection E as <-. reflexivity.
Defined.

(** A comment without creation time beside one with an aware time: the
    sort raises. *)
Example missing_created_breaks_the_sort :
  JiraComments.get_issue_comments length_lib
    (paging_server [comment_of "c1" "2025-12-01T18:22:33+0000";
                    comment_of "c2" ""] (fun _ => 2%nat)) 3 42
  = Some (Raise OtherException).
Proof. reflexivity. Qed.

Lemma empty_later_page_drops_fetched_comments_witness :
  JiraComments.get_issue_comments length_lib
    (fun o => if o =? 0
              then Ok {| JiraComments.comments := [a_comment "c1"];
                         JiraComments.total := 2 |}
              else Ok {| JiraComments.comments := [];
                         JiraComments.total := 2 |})
    2 42
  = Some (Ok []).
Proof.
  apply (empty_later_page_drops_fetched_comments length_lib
           (fun o => if o =? 0
                     then Ok {| JiraComments.comments := [a_comment "c1"];
                                JiraComments.total := 2 |}
                     else Ok {| JiraComments.comments := [];
                                JiraComments.total := 2 |})
           0 42
           {| JiraComments.comments := [a_comment "c1"];
              JiraComments.total := 2 |}
           {| JiraComments.comments := []; JiraComments.total := 2 |});
    try reflexivity; simpl; first [discriminate | lia].
Defined.

(** * Further properties of the polling loop *)

Section LoopEnds.
Import Loop.

Definition sleeps (t : list event) : nat :=
  length (List.filter (fun e => match e with Sleep => true | _ => false end) t).

Lemma passes_started_app (t1 t2 : list event) :
  passes_started (t1 ++ t2) = (passes_started t1 + passes_started t2)%nat.
Proof. unfold passes_started. now rewrite List.filter_app, length_app. Qed.

Lemma sleeps_app (t1 t2 : list event) :
  sleeps (t1 ++ t2) = (sleeps t1 + sleeps t2)%nat.
Proof. unfold sleeps. now rewrite List.filter_app, length_app. Qed.

Lemma job_fatal (p : pass) :
  fatal p ->
  exists t, job p = (t, SystemExit 1) /\ passes_started t = 1%nat /\
            sleeps t = 0%nat.
Proof.
  intros [Hs [[e He] | (Hf & Hh & e & He)]]; unfold job.
  - rewrite Hs, He. eexists. repeat split.
  - rewrite Hs, Hf, Hh, He. eexists. repeat split.
Qed.

Lemma job_not_fatal (p : pass) :
  ~ fatal p ->
  exists t r, job p = (t, r) /\ (forall c, r <> SystemExit c) /\
              passes_started t = 1%nat /\ sleeps t = 0%nat.
Proof.
  intros Hn. unfold job.
  destruct (setup p) as [[]|e0] eqn:Hs;
    [|do 2 eexists; repeat split; discriminate].
  destruct (fetch_issues p) as [[]|e1] eqn:Hf.
  - destruct (hash_issues p) as [[]|e2] eqn:Hh;
      [|do 2 eexists; repeat split; discriminate].
    destruct (get_sid p) as [[]|e3] eqn:Hg.
    + destruct (reconcile p); do 2 eexists; repeat split; discriminate.
    + exfalso. apply Hn. split; [exact Hs|]. right. eauto.
  - exfalso. apply Hn. split; [exact Hs|]. left. eauto.
Qed.

(** X8.  The loop ends exactly at the first pass in which the fetch of
    the issues or the login fails.  While no scheduled pass does, every
    pass is started and followed by one sleep, whatever else raises in
    it, and the process stays alive; the first pass that does is the
    last one started, is followed by one sleep, and the process exits
    with status 1. *)
Theorem main_ends_at_first_fatal_pass (before : list pass) :
  Forall (fun p => ~ fatal p) before ->
  (snd (main before) = Running /\
   passes_started (fst (main before)) = length before /\
   sleeps (fst (main before)) = length before) /\
  forall p after, fatal p ->
    snd (main (before ++ p :: after)) = Exited 1 /\
    passes_started (fst (main (before ++ p :: after)))
      = S (length before) /\
    sleeps (fst (main (before ++ p :: after))) = S (length before).
Proof.
  induction 1 as [|q before Hq _ IH].
  - split; [repeat split|]. intros p after Hp.
    destruct (job_fatal p Hp) as (t & Hj & Hst & Hsl).
    cbn [app main]. rewrite Hj. cbn [fst snd].
    rewrite passes_started_app, sleeps_app, Hst, Hsl. repeat split.
  - destruct (job_not_fatal q Hq) as (t & r & Hj & Hr & Hst & Hsl).
    destruct IH as [(IH1 & IH2 & IH3) IH4].
    assert (Hstep : forall rest,
      snd (main (q :: rest)) = snd (main rest) /\
      passes_started (fst (main (q :: rest)))
        = S (passes_started (fst (main rest))) /\
      sleeps (fst (main (q :: rest))) = S (sleeps (fst (main rest)))).
    { intros rest. cbn [main]. rewrite Hj.
      destruct r as [[]|e|c]; [| |exfalso; eapply Hr; reflexivity];
        destruct (main rest) as [t' s']; cbn [fst snd];
        rewrite !passes_started_app, !sleeps_app, Hst, Hsl;
        repeat split. }
    split.
    + destruct (Hstep before) as (H1 & H2 & H3).
      rewrite H1, H2, H3, IH1, IH2, IH3. repeat split.
    + intros p after Hp. destruct (IH4 p after Hp) as (H1 & H2 & H3).
      destruct (Hstep (before ++ p :: after)) as (G1 & G2 & G3).
      cbn [app length]. rewrite G1, G2, G3, H1, H2, H3. repeat split.
Qed.

Lemma main_ends_at_first_fatal_pass_witness :
  let bad := {| setup := Ok tt; fetch_issues := Ok tt; hash_issues := Ok tt;
                get_sid := Ok tt; reconcile := Raise OtherException |} in
  snd (main ([healthy; bad] ++ jira_down :: [healthy])) = Exited 1 /\
  passes_started (fst (main ([healthy; bad] ++ jira_down :: [healthy])))
    = 3%nat /\
  sleeps (fst (main ([healthy; bad] ++ jira_down :: [healthy]))) = 3%nat.
Proof.
  intros bad.
  apply (main_ends_at_first_fatal_pass [healthy; bad]).
  - repeat constructor; intros [_ [[e H]|(_ & _ & e & H)]]; discriminate.
  - split; [reflexivity|]. left. exists OtherException. reflexivity.
Defined.

End LoopEnds.

(** * Further properties of the attachment fingerprint *)

Section PayloadInjective.
Import Hash.

Lemma le_bytes_8_injective (x y : Z) :
  int64 x -> int64 y -> le_bytes 8 x = le_bytes 8 y -> x = y.
Proof.
  unfold int64. intros Hx Hy E.
  apply (f_equal le_value) in E. rewrite !le_value_le_bytes in E.
  change (8 * Z.of_nat 8) with 64 in E.
  assert (D : (x - y) mod 2 ^ 64 = 0).
  { rewrite Zminus_mod, E, Z.sub_diag. reflexivity. }
  apply Z.mod_divide in D; [|lia]. destruct D as [k Hk]. nia.
Qed.

Lemma flat_map_le_bytes_injective (u1 u2 : list Z) :
  Forall int64 u1 -> Forall int64 u2 ->
  flat_map (le_bytes 8) u1 = flat_map (le_bytes 8) u2 -> u1 = u2.
Proof.
  intros H1. revert u2.
  induction H1 as [|x u1 Hx _ IH]; intros u2 H2 E.
  - destruct u2 as [|y u2]; [reflexivity|]. discriminate.
  - destruct H2 as [|y u2 Hy H2]; [discriminate|].
    cbn [flat_map] in E.
    apply app_inj_1 in E as [E1 E2];
      [|now rewrite !le_bytes_length].
    f_equal; [now apply le_bytes_8_injective | now apply IH].
Qed.

Lemma payload_Some (u : list Z) (bs : list Z) :
  Forall int64 u -> payload u = Some bs ->
  bs = le_bytes 8 (Z.of_nat (length u)) ++ flat_map (le_bytes 8) u.
Proof.
  intros Hu. unfold payload, pack_Q. rewrite (pack_ints_int64 u Hu).
  destruct ((0 <=? _) && _); [|discriminate]. now intros [= <-].
Qed.

(** X9.  Attachment lists with different value sets never give the same
    bytes to the hash function: when the payloads that
    [hash_attachment_id] builds for two lists of 64-bit integers are
    equal, the lists hold the same values.  Two different attachment
    sets can share a fingerprint only through a collision of the hash
    function. *)
Theorem attachment_payload_tells_sets_apart (l1 l2 : list Z) (bs : list Z) :
  Forall int64 l1 -> Forall int64 l2 ->
  payload (sorted (list_to_set l1)) = Some bs ->
  payload (sorted (list_to_set l2)) = Some bs ->
  forall x, In x l1 <-> In x l2.
Proof.
  intros H1 H2 E1 E2.
  assert (S1 : Forall int64 (sorted (list_to_set l1))).
  { rewrite Forall_forall in H1 |- *. intros x Hx. apply H1.
    apply sorted_elements in Hx. now apply elem_of_list_to_set in Hx. }
  assert (S2 : Forall int64 (sorted (list_to_set l2))).
  { rewrite Forall_forall in H2 |- *. intros x Hx. apply H2.
    apply sorted_elements in Hx. now apply elem_of_list_to_set in Hx. }
  apply (payload_Some _ _ S1) in E1. apply (payload_Some _ _ S2) in E2.
  rewrite E1 in E2.
  apply app_inj_1 in E2 as [_ E]; [|now rewrite !le_bytes_length].
  apply (flat_map_le_bytes_injective _ _ S1 S2) in E.
  intros x. rewrite <- !list_elem_of_In.
  rewrite <- (elem_of_list_to_set (C := gset Z) x l1).
  rewrite <- (elem_of_list_to_set (C := gset Z) x l2).
  rewrite <- !sorted_elements, E. reflexivity.
Qed.

Lemma attachment_payload_tells_sets_apart_witness :
  In 2 [3; 1; 2] <-> In 2 [1; 2; 2; 3; 1].
Proof.
  apply (attachment_payload_tells_sets_apart [3; 1; 2] [1; 2; 2; 3; 1]
           [3; 0; 0; 0; 0; 0; 0; 0;  1; 0; 0; 0; 0; 0; 0; 0;
            2; 0; 0; 0; 0; 0; 0; 0;  3; 0; 0; 0; 0; 0; 0; 0]);
    try reflexivity; repeat constructor; unfold int64; lia.
Defined.

End PayloadInjective.

(** * Further properties of the canonical text *)

Section CanonicalForm.
Import Hash.

Lemma tidy_lower (b : bool) (s : text) :
  tidy b (map ascii_lower s) = tidy b s.
Proof.
  revert b. induction s as [|c r IH]; intros b; [reflexivity|].
  cbn [map tidy]. rewrite is_blank_lower, !IH.
  now rewrite (ascii_lower_eqb SP) by (unfold SP; lia).
Qed.

Lemma tidy_no_tab (b : bool) (s : text) :
  tidy b s = true -> Forall (fun c => c <> TAB) s.
Proof.
  revert b. induction s as [|c r IH]; intros b H; [constructor|].
  simpl in H. destruct (is_blank c) eqn:E.
  - apply andb_true_iff in H as [H Hr]. apply andb_true_iff in H as [_ Hc].
    apply N.eqb_eq in Hc. subst c. constructor; [discriminate | eauto].
  - constructor; [|eauto]. intros ->. discriminate.
Qed.

Lemma tidy_no_double_space (b : bool) (s pre post : text) :
  tidy b s = true -> s <> pre ++ SP :: SP :: post.
Proof.
  revert b s. induction pre as [|c pre IH]; intros b s H E; subst s.
  - simpl in H. rewrite andb_false_r in H. discriminate.
  - cbn [app tidy] in H. destruct (is_blank c).
    + apply andb_true_iff in H as [_ H]. now apply (IH true _ H).
    + now apply (IH false _ H).
Qed.

Definition is_upper (c : N) : bool := ((65 <=? c) && (c <=? 90))%N.

(** What [tidy_up] returns. *)
Lemma tidy_up_form (s : text) :
  let y := tidy_up s in
  Forall (fun c => c <> CR /\ c <> TAB /\ is_upper c = false) y /\
  (forall pre post, y <> pre ++ SP :: SP :: post) /\
  strip y = y.
Proof.
  intros y. subst y. unfold tidy_up.
  set (u := strip (SPACE_RE_sub (replace_cr (replace_crlf s)))).
  assert (Hcr : Forall (fun c => c <> CR) u).
  { apply Forall_rstrip, Forall_lstrip, Forall_sub_spaces;
      [discriminate | apply replace_cr_no_cr]. }
  assert (Ht : tidy false u = true).
  { apply tidy_rstrip, tidy_lstrip, sub_spaces_tidy. }
  split; [|split].
  - rewrite Forall_map. apply tidy_no_tab in Ht.
    rewrite Forall_forall in Hcr, Ht |- *. intros c Hc.
    specialize (Hcr c Hc). specialize (Ht c Hc). unfold CR, TAB, is_upper in *.
    destruct (ascii_lower_cases c) as [E|[Hr E]]; rewrite E.
    + repeat split; auto.
      destruct (N.leb_spec 65 c), (N.leb_spec c 90); simpl; auto.
      unfold ascii_lower in E.
      destruct (N.leb_spec 65 c), (N.leb_spec c 90); simpl in E; lia.
    + repeat split; try lia.
      destruct (N.leb_spec 65 (c + 32)), (N.leb_spec (c + 32) 90); simpl;
        auto; lia.
  - intros pre post. apply (tidy_no_double_space false).
    now rewrite tidy_lower.
  - rewrite strip_lower. unfold u at 1. now rewrite strip_strip.
Qed.

Lemma opens_tag_lower (r : text) :
  opens_tag (map ascii_lower r) = opens_tag r.
Proof.
  destruct r as [|d r]; [reflexivity|]. cbn [map opens_tag].
  rewrite (ascii_lower_eqb GT) by (unfold GT; lia). f_equal.
  induction r as [|c r IH]; [reflexivity|]. simpl.
  now rewrite (ascii_lower_eqb GT), IH by (unfold GT; lia).
Qed.

Lemma sub_tags_lower (b : bool) (s : text) :
  sub_tags b (map ascii_lower s) = map ascii_lower (sub_tags b s).
Proof.
  revert b. induction s as [|c r IH]; intros b; [reflexivity|].
  cbn [map sub_tags].
  rewrite (ascii_lower_eqb GT), (ascii_lower_eqb LT), opens_tag_lower
    by (unfold GT, LT; lia).
  destruct b.
  - destruct (c =? GT)%N; apply IH.
  - destruct ((c =? LT)%N && opens_tag r); [apply IH|].
    simpl. now rewrite IH.
Qed.

Lemma tidy_up_lower (s : text) : tidy_up (map ascii_lower s) = tidy_up s.
Proof.
  unfold tidy_up, SPACE_RE_sub.
  rewrite replace_crlf_lower, replace_cr_lower, sub_spaces_lower, strip_lower.
  rewrite map_map. apply map_ext. intros c. apply ascii_lower_idem.
Qed.

Lemma plain_lower (s : text) : Forall plain s -> Forall plain (map ascii_lower s).
Proof.
  intros H. rewrite Forall_map. eapply Forall_impl; [exact H|].
  intros c [H1 H2]. unfold plain, AMP in *. simpl.
  destruct (ascii_lower_cases c) as [->|[Hc ->]]; lia.
Qed.

Context {L : TextLib}.
Hypothesis unescape_without_amp :
  forall s : text, Forall (fun c => c <> AMP) s -> html_unescape s = s.
Hypothesis nfc_ascii :
  forall s : text, Forall (fun c => (c < 128)%N) s -> nfc s = s.
Hypothesis casefold_ascii :
  forall s : text, Forall (fun c => (c < 128)%N) s ->
    casefold s = map ascii_lower s.

(** X10.  The canonical form of ASCII text without ['&'] has no
    carriage return, no tab and no upper-case letter, never two spaces
    in a row and no white space at either end; with the removal of
    markup nothing in it matches the tag pattern any more. *)
Theorem canon_text_normal_form (x : text) (strip_html : bool) :
  Forall (fun c => (c < 128)%N /\ c <> AMP) x ->
  let y := canon_text (Some x) strip_html in
  Forall (fun c => c <> CR /\ c <> TAB /\ is_upper c = false) y /\
  (forall pre post, y <> pre ++ SP :: SP :: post) /\
  strip y = y /\
  (strip_html = true -> strip_tags y = y).
Proof.
  intros Hx y. subst y.
  pose proof (canon_text_plain unescape_without_amp nfc_ascii casefold_ascii
                x strip_html Hx) as E.
  rewrite E.
  destruct (tidy_up_form (if strip_html then strip_tags x else x))
    as (H1 & H2 & H3).
  split; [exact H1|]. split; [exact H2|]. split; [exact H3|].
  intros ->. apply tag_free_fixed.
  apply (thin_tag_free (strip_tags x)); [apply thin_tidy_up|].
  apply sub_tags_tag_free.
Qed.

(** X11.  The case of ASCII letters does not matter: two ASCII texts
    without ['&'] that differ only in the case of letters have the same
    canonical text. *)
Theorem canon_text_ignores_ascii_case (x1 x2 : text) (strip_html : bool) :
  Forall (fun c => (c < 128)%N /\ c <> AMP) x1 ->
  Forall (fun c => (c < 128)%N /\ c <> AMP) x2 ->
  map ascii_lower x1 = map ascii_lower x2 ->
  canon_text (Some x1) strip_html = canon_text (Some x2) strip_html.
Proof.
  intros H1 H2 E.
  assert (K : forall x : text, Forall plain x ->
            canon_text (Some x) strip_html
            = tidy_up (if strip_html then strip_tags (map ascii_lower x)
                       else map ascii_lower x)).
  { intros x Hx.
    pose proof (canon_text_plain unescape_without_amp nfc_ascii casefold_ascii
                  x strip_html Hx) as Ex.
    rewrite Ex. clear Ex.
    destruct strip_html.
    - unfold strip_tags. now rewrite sub_tags_lower, tidy_up_lower.
    - now rewrite tidy_up_lower. }
  rewrite (K x1 H1), (K x2 H2), E. reflexivity.
Qed.

End CanonicalForm.

Lemma canon_text_normal_form_witness :
  Hash.strip (@Hash.canon_text Hash.ascii_lib
                (Some (Hash.of_string "  <P>Hello   World</P> <br/>")) true)
  = @Hash.canon_text Hash.ascii_lib
      (Some (Hash.of_string "  <P>Hello   World</P> <br/>")) true.
Proof.
  assert (Hx : Forall (fun c => (c < 128)%N /\ c <> Hash.AMP)
                 (Hash.of_string "  <P>Hello   World</P> <br/>")).
  { vm_compute. repeat constructor; discriminate. }
  destruct (@canon_text_normal_form Hash.ascii_lib
              ascii_unescape_without_amp (fun s _ => eq_refl)
              (fun s _ => eq_refl)
              (Hash.of_string "  <P>Hello   World</P> <br/>") true Hx)
    as (_ & _ & H & _).
  exact H.
Defined.

Lemma canon_text_ignores_ascii_case_witness :
  @Hash.canon_text Hash.ascii_lib (Some (Hash.of_string "<B>Fix  Login</B>")) true
  = @Hash.canon_text Hash.ascii_lib (Some (Hash.of_string "<b>fix  LOGIN</b>")) true.
Proof.
  apply (@canon_text_ignores_ascii_case Hash.ascii_lib
           ascii_unescape_without_amp (fun s _ => eq_refl)
           (fun s _ => eq_refl)).
  - vm_compute. repeat constructor; discriminate.
  - vm_compute. repeat constructor; discriminate.
  - reflexivity.
Defined.

(** * [src/jira/methods.py]: attachment files *)

Module JiraFiles.

Definition QUOTE : N := 34.      (* the double quote *)
Definition APOS : N := 39.       (* the single quote *)
Definition SLASH : N := 47.      (* '/' *)

(** [s.lstrip(ch)], [s.rstrip(ch)] and [s.strip(ch)] for one character
    [ch]. *)
Fixpoint lstrip_char (ch : N) (s : Hash.text) : Hash.text :=
  match s with
  | [] => []
  | c :: r => if (c =? ch)%N then lstrip_char ch r else s
  end.

Fixpoint rstrip_char (ch : N) (s : Hash.text) : Hash.text :=
  match s with
  | [] => []
  | c :: r =>
      match rstrip_char ch r with
      | [] => if (c =? ch)%N then [] else [c]
      | r' => c :: r'
      end
  end.

Definition strip_char (ch : N) (s : Hash.text) : Hash.text :=
  rstrip_char ch (lstrip_char ch s).

Definition has_slash (s : Hash.text) : bool :=
  existsb (fun c => c =? SLASH)%N s.

(** [os.path.basename] of [posixpath]: what follows the last ['/']. *)
Fixpoint basename (s : Hash.text) : Hash.text :=
  match s with
  | [] => []
  | c :: r =>
      if has_slash r then basename r
      else if (c =? SLASH)%N then r else s
  end.

Definition _safe_filename (name : option Hash.text) (fallback : Hash.text)
    : Hash.text :=
  let name := match name with Some n => n | None => [] end in
  let name := strip_char APOS (strip_char QUOTE (Hash.strip name)) in
  match basename name with
  | [] => fallback
  | b => b
  end.

(** What one request of [_download_with_retries] comes to. *)
Inductive reply :=
  | Status (code : Z)   (* a response; with a 2xx code the body is saved *)
  | Network             (* ConnectTimeout, ReadTimeout, RemoteProtocolError,
                           NetworkError *)
  | Other (e : exn).    (* any other exception, which no clause catches *)

Inductive event :=
  | Request (attempt : Z)
  | Sleep (attempt : Z).

Definition retryable_status (code : Z) : bool :=
  (code =? 429) || ((500 <=? code) && (code <? 600)).

(** [is_success] of a response, which [raise_for_status] tests. *)
Definition is_success (code : Z) : bool := (200 <=? code) && (code <? 300).

(** The exception a request ends in and the value of [retryable] in
    the [except] clause; [None] when the body is saved. *)
Definition failure (r : reply) : option bool :=
  match r with
  | Status code =>
      if retryable_status code then Some true
      else if is_success code then None
      else Some false
  | Network => Some true
  | Other _ => None
  end.

(** The [while True] loop; [attempt] is the counter before the
    iteration and [fuel] bounds the number of iterations. *)
Fixpoint download_loop (answer : Z -> reply) (max_retries : Z) (fuel : nat)
    (attempt : Z) : option (list event * outcome unit) :=
  match fuel with
  | O => None
  | S fuel' =>
      let attempt := attempt + 1 in
      match answer attempt with
      | Other e => Some ([Request attempt], Raise e)
      | r =>
          match failure r with
          | None => Some ([Request attempt], Ok tt)
          | Some retryable =>
              if negb retryable || (attempt >=? max_retries)
              then Some ([Request attempt], Raise OtherException)
              else
                match download_loop answer max_retries fuel' attempt with
                | Some (t, r) =>
                    Some (Request attempt :: Sleep attempt :: t, r)
                | None => None
                end
          end
      end
  end.

Definition _download_with_retries (answer : Z -> reply) (max_retries : Z)
    (fuel : nat) : option (list event * outcome unit) :=
  download_loop answer max_retries fuel 0.

Definition requests (t : list event) : nat :=
  length (List.filter
            (fun e => match e with Request _ => true | _ => false end) t).

Definition sleeps (t : list event) : nat :=
  length (List.filter
            (fun e => match e with Sleep _ => true | _ => false end) t).

End JiraFiles.

(** * Properties of the attachment files *)

Section SafeFilename.
Import Hash JiraFiles.

Lemma basename_no_slash (s : text) : has_slash (basename s) = false.
Proof.
  induction s as [|c r IH]; [reflexivity|]. simpl.
  destruct (has_slash r) eqn:E; [exact IH|].
  destruct (c =? SLASH)%N eqn:Ec; [exact E|].
  simpl. now rewrite Ec, E.
Qed.

Lemma basename_suffix (s : text) : exists pre, s = pre ++ basename s.
Proof.
  induction s as [|c r [pre IH]]; [now exists []|]. simpl.
  destruct (has_slash r).
  - exists (c :: pre). simpl. now rewrite <- IH.
  - destruct (c =? SLASH)%N; [now exists [c] | now exists []].
Qed.

(** X12.  The file name that [_safe_filename] returns is the fallback
    or the end of the given name, up to the white space and quotes
    stripped from its end; it holds no ['/'] unless the fallback does
    and is empty only when the fallback is. *)
Theorem safe_filename_is_a_plain_name (name : option text)
    (fallback : text) :
  let f := _safe_filename name fallback in
  (f = fallback \/
   exists pre,
     strip_char APOS (strip_char QUOTE
       (strip (match name with Some n => n | None => [] end))) = pre ++ f) /\
  (has_slash fallback = false -> has_slash f = false) /\
  (fallback <> [] -> f <> []).
Proof.
  unfold _safe_filename.
  set (n := strip_char APOS (strip_char QUOTE (strip _))).
  pose proof (basename_no_slash n) as Hs.
  destruct (basename_suffix n) as [pre Hpre].
  destruct (basename n) as [|b bs] eqn:E.
  - split; [now left|]. split; auto.
  - split; [right; exists pre; exact Hpre|]. split; [auto|].
    intros _. discriminate.
Qed.

(** A name between double quotes and spaces, with directories. *)
Definition quoted_path : text :=
  [SP; QUOTE] ++ of_string "../../etc/passwd" ++ [QUOTE; SP].

Lemma safe_filename_is_a_plain_name_witness :
  _safe_filename (Some quoted_path) (of_string "10001.bin")
    = of_string "passwd" /\
  has_slash (_safe_filename (Some quoted_path) (of_string "10001.bin"))
    = false /\
  _safe_filename (Some (of_string "dir/")) (of_string "10001.bin")
    = of_string "10001.bin".
Proof.
  split; [reflexivity|]. split; [|reflexivity].
  apply (safe_filename_is_a_plain_name (Some quoted_path)
           (of_string "10001.bin")).
  reflexivity.
Defined.

End SafeFilename.

Section Retries.
Import JiraFiles.
Variable answer : Z -> reply.
Variable max_retries : Z.

(** How the call ends when the request of [r] is the last one. *)
Definition final_outcome (r : reply) : outcome unit :=
  match r with
  | Other e => Raise e
  | _ => match failure r with
         | None => Ok tt
         | Some _ => Raise OtherException   (* Exception('Max retries reached') *)
         end
  end.

Lemma download_loop_outcome (fuel : nat) (a k : Z) :
  0 <= a -> a < k <= Z.max 1 max_retries ->
  (Z.to_nat (k - a) <= fuel)%nat ->
  (forall i, a < i < k -> failure (answer i) = Some true) ->
  failure (answer k) <> Some true \/ k = Z.max 1 max_retries ->
  exists t,
    download_loop answer max_retries fuel a
      = Some (t, final_outcome (answer k)) /\
    requests t = Z.to_nat (k - a) /\
    sleeps t = (Z.to_nat (k - a) - 1)%nat.
Proof.
  revert a. induction fuel as [|fuel IH]; intros a Ha Hk Hfuel Hretry Hfinal;
    [lia|].
  cbn [download_loop].
  destruct (Z.eq_dec (a + 1) k) as [E|E].
  - rewrite E. replace (Z.to_nat (k - a)) with 1%nat by lia.
    unfold final_outcome.
    destruct (answer k) as [code| |e] eqn:Hans.
    + destruct (failure (Status code)) as [[|]|] eqn:Hf.
      * destruct Hfinal as [Hfinal|Hfinal]; [congruence|].
        assert (G : (k >=? max_retries) = true) by (apply Z.geb_le; lia).
        rewrite G. cbn. eexists. repeat split.
      * cbn. eexists. repeat split.
      * eexists. repeat split.
    + cbn [failure]. destruct Hfinal as [Hfinal|Hfinal];
        [cbn in Hfinal; congruence|].
      assert (G : (k >=? max_retries) = true) by (apply Z.geb_le; lia).
      rewrite G. cbn. eexists. repeat split.
    + eexists. repeat split.
  - assert (Hr : failure (answer (a + 1)) = Some true) by (apply Hretry; lia).
    assert (G : (a + 1 >=? max_retries) = false).
    { destruct (Z.geb_spec (a + 1) max_retries); [lia | reflexivity]. }
    destruct (IH (a + 1)) as (t & Ht & Hreq & Hsl); try lia; auto.
    { intros i Hi. apply Hretry. lia. }
    rewrite Ht.
    destruct (answer (a + 1)) as [code| |e] eqn:Hans; [| |discriminate].
    + rewrite Hr, G. cbn [negb orb].
      eexists. split; [reflexivity|]. unfold requests, sleeps in *. cbn.
      rewrite Hreq, Hsl. lia.
    + rewrite Hr, G. cbn [negb orb].
      eexists. split; [reflexivity|]. unfold requests, sleeps in *. cbn.
      rewrite Hreq, Hsl. lia.
Qed.

(** X13.  [_download_with_retries] ends at the first request that is
    not a retryable failure (a time-out, a network error, a status 429
    or 5xx), or at request number [max_retries] whatever it comes to,
    and at the first request when [max_retries] is below 1.  It then
    returns when the body was saved, raises the exception no clause
    catches, and raises [Exception] in every other case; before each
    further request it sleeps once. *)
Theorem download_with_retries_outcome (fuel : nat) (k : Z) :
  1 <= k <= Z.max 1 max_retries ->
  (Z.to_nat k <= fuel)%nat ->
  (forall i, 1 <= i < k -> failure (answer i) = Some true) ->
  failure (answer k) <> Some true \/ k = Z.max 1 max_retries ->
  exists t,
    _download_with_retries answer max_retries fuel
      = Some (t, final_outcome (answer k)) /\
    requests t = Z.to_nat k /\ sleeps t = (Z.to_nat k - 1)%nat.
Proof.
  intros Hk Hfuel Hretry Hfinal.
  assert (H0 : 0 <= 0) by lia.
  assert (Hk0 : 0 < k <= Z.max 1 max_retries) by lia.
  assert (Hf0 : (Z.to_nat (k - 0) <= fuel)%nat)
    by (replace (k - 0) with k by lia; exact Hfuel).
  assert (Hr0 : forall i, 0 < i < k -> failure (answer i) = Some true)
    by (intros i Hi; apply Hretry; lia).
  destruct (download_loop_outcome fuel 0 k H0 Hk0 Hf0 Hr0 Hfinal)
    as (t & H1 & H2 & H3).
  exists t. replace (k - 0) with k in * by lia. auto.
Qed.

Lemma last_request_exists (n : nat) :
  (1 <= n)%nat ->
  exists k, 1 <= k <= Z.of_nat n /\
    (forall i, 1 <= i < k -> failure (answer i) = Some true) /\
    (failure (answer k) <> Some true \/ k = Z.of_nat n).
Proof.
  induction n as [|n IH]; [lia|]. intros _.
  destruct n as [|n].
  - exists 1. split; [lia|]. split; [intros i Hi; lia | now right].
  - destruct IH as (k & Hk & Hretry & Hfinal); [lia|].
    destruct Hfinal as [Hfinal|Hfinal].
    + exists k. split; [lia|]. split; [exact Hretry | now left].
    + destruct (failure (answer k)) as [[|]|] eqn:Hf.
      * exists (Z.of_nat (S (S n))). split; [lia|]. split; [|now right].
        intros i Hi. destruct (Z.eq_dec i k) as [->|Hne]; [exact Hf|].
        apply Hretry. lia.
      * exists k. split; [lia|]. split; [exact Hretry|]. left. congruence.
      * exists k. split; [lia|]. split; [exact Hretry|]. left. congruence.
Qed.

(** X14.  [_download_with_retries] always comes to an end: it makes at
    least one request and at most [max_retries] (one when that is
    below 1), and sleeps once between two requests. *)
Theorem download_with_retries_bounded :
  exists k,
    1 <= k <= Z.max 1 max_retries /\
    forall fuel, (Z.to_nat k <= fuel)%nat ->
      exists t,
        _download_with_retries answer max_retries fuel
          = Some (t, final_outcome (answer k)) /\
        requests t = Z.to_nat k /\ sleeps t = (Z.to_nat k - 1)%nat.
Proof.
  destruct (last_request_exists (Z.to_nat (Z.max 1 max_retries)))
    as (k & Hk & Hretry & Hfinal); [lia|].
  rewrite Z2Nat.id in Hk, Hfinal by lia.
  exists k. split; [exact Hk|]. intros fuel Hfuel.
  assert (Hf0 : (Z.to_nat (k - 0) <= fuel)%nat)
    by (replace (k - 0) with k by lia; exact Hfuel).
  destruct (download_loop_outcome fuel 0 k) as (t & H1 & H2 & H3);
    [lia | lia | exact Hf0 | intros i Hi; apply Hretry; lia | exact Hfinal |].
  exists t. replace (k - 0) with k in * by lia. auto.
Qed.

End Retries.

(** A server that is unreachable, then overloaded, then answers. *)
Definition flaky_server (i : Z) : JiraFiles.reply :=
  if i =? 1 then JiraFiles.Network
  else if i =? 2 then JiraFiles.Status 503
  else JiraFiles.Status 200.

Lemma download_with_retries_outcome_witness :
  exists t,
    JiraFiles._download_with_retries flaky_server 4 4 = Some (t, Ok tt) /\
    JiraFiles.requests t = 3%nat /\ JiraFiles.sleeps t = 2%nat.
Proof.
  apply (download_with_retries_outcome flaky_server 4 4 3).
  - lia.
  - simpl. lia.
  - intros i Hi. assert (E : i = 1 \/ i = 2) by lia.
    destruct E as [-> | ->]; reflexivity.
  - left. discriminate.
Defined.

(** * [src/planfix/methods.py]: character data *)

Module Planfix.

Definition CDATA_START : Hash.text := Hash.of_string "<![CDATA[".
Definition CDATA_END : Hash.text := Hash.of_string "]]>".

(** [s.replace(old, new)] for a pattern [old] that is not empty: the
    occurrences are taken from the left and do not overlap; [skip]
    counts the characters of an occurrence still to be dropped. *)
Fixpoint replace_from (skip : nat) (old new s : Hash.text) : Hash.text :=
  match s with
  | [] => []
  | c :: r =>
      match skip with
      | S k => replace_from k old new r
      | O =>
          if Hash.starts_with old s
          then new ++ replace_from (length old - 1) old new r
          else c :: replace_from O old new r
      end
  end.

Definition str_replace (old new s : Hash.text) : Hash.text :=
  replace_from O old new s.

Definition _to_cdata (text : Hash.text) : Hash.text :=
  CDATA_START
    ++ str_replace CDATA_END (Hash.of_string "]]]]><![CDATA[>") text
    ++ CDATA_END.

End Planfix.

(** * Properties of the character data *)

Section CData.
Import Hash Planfix.

Definition escaped (t : text) : text :=
  str_replace CDATA_END (of_string "]]]]><![CDATA[>") t.

Definition is_end (s : text) : bool := starts_with CDATA_END s.

Lemma is_end_true (s : text) :
  is_end s = true -> exists r, s = 93%N :: 93%N :: 62%N :: r.
Proof.
  unfold is_end, starts_with. intros H. apply bool_decide_eq_true in H.
  destruct s as [|a [|b [|c r]]]; try discriminate.
  cbn in H. injection H as -> -> ->. now exists r.
Qed.

Lemma is_end_cons (a b c : N) (r : text) :
  is_end (a :: b :: c :: r)
  = ((a =? 93) && (b =? 93) && (c =? 62))%N.
Proof.
  unfold is_end, starts_with. cbn.
  destruct (N.eqb_spec a 93), (N.eqb_spec b 93), (N.eqb_spec c 62); subst;
    simpl; try reflexivity;
    apply bool_decide_eq_false; intros [=]; contradiction.
Qed.

Lemma escaped_end (r : text) :
  escaped (93%N :: 93%N :: 62%N :: r)
  = of_string "]]]]><![CDATA[>" ++ escaped r.
Proof. reflexivity. Qed.

Lemma escaped_other (c : N) (r : text) :
  is_end (c :: r) = false -> escaped (c :: r) = c :: escaped r.
Proof.
  intros H. unfold escaped, str_replace. cbn [replace_from].
  unfold is_end in H. now rewrite H.
Qed.

Lemma is_end_short (s : text) : (length s < 3)%nat -> is_end s = false.
Proof.
  intros H. unfold is_end, starts_with. apply bool_decide_eq_false.
  intros E. apply (f_equal (@length N)) in E.
  change (length CDATA_END) with 3%nat in E.
  rewrite length_take in E. lia.
Qed.

(** The end mark occurs somewhere in [s]. *)
Fixpoint has_end (s : text) : bool :=
  match s with
  | [] => false
  | _ :: r => is_end s || has_end r
  end.

Lemma has_end_false (p : text) :
  has_end p = false -> forall pre post, p <> pre ++ CDATA_END ++ post.
Proof.
  induction p as [|c r IH]; intros H pre post E.
  - destruct pre; discriminate.
  - cbn [has_end] in H. apply orb_false_iff in H as [H0 Hr].
    destruct pre as [|a pre].
    + cbn in E. rewrite E in H0. rewrite is_end_cons in H0. discriminate.
    + injection E as _ E. exact (IH Hr pre post E).
Qed.

(** One CDATA section with the content [p]. *)
Definition cdata_section (p : text) : text := CDATA_START ++ p ++ CDATA_END.

(** The sections of the escaped text, the first one still open. *)
Lemma escaped_sections (n : nat) (t : text) :
  (length t <= n)%nat ->
  exists first rest,
    escaped t ++ CDATA_END
      = first ++ CDATA_END ++ concat (map cdata_section rest) /\
    first ++ concat rest = t /\
    has_end first = false /\
    Forall (fun p => has_end p = false) rest.
Proof.
  revert t. induction n as [|n IH]; intros t Hn.
  - destruct t; [|simpl in Hn; lia].
    exists [], []. repeat split; constructor.
  - destruct t as [|c r].
    { exists [], []. repeat split; constructor. }
    destruct (is_end (c :: r)) eqn:E.
    + apply is_end_true in E as [r' E]. injection E as -> ->.
      destruct (IH r') as (first & rest & Hout & Hcat & Hfirst & Hrest).
      { simpl in Hn. lia. }
      exists [93; 93]%N, ((62%N :: first) :: rest).
      rewrite escaped_end. split; [|split; [|split]].
      * rewrite <- app_assoc, Hout. cbn [map concat].
        unfold cdata_section. rewrite <- ?app_assoc. reflexivity.
      * cbn [concat app]. now rewrite Hcat.
      * reflexivity.
      * constructor; [|exact Hrest].
        cbn [has_end]. rewrite Hfirst, orb_false_r.
        destruct first as [|a [|b f]];
          try (apply is_end_short; simpl; lia).
        now rewrite is_end_cons.
    + destruct (IH r) as (first & rest & Hout & Hcat & Hfirst & Hrest).
      { simpl in Hn. lia. }
      exists (c :: first), rest.
      rewrite (escaped_other _ _ E). split; [|split; [|split]].
      * cbn [app]. now rewrite Hout.
      * cbn [app]. now rewrite Hcat.
      * cbn [has_end]. rewrite Hfirst, orb_false_r.
        destruct first as [|a [|b f]];
          try (apply is_end_short; simpl; lia).
        rewrite is_end_cons. rewrite <- Hcat in E. cbn [app] in E.
        now rewrite is_end_cons in E.
      * exact Hrest.
Qed.

(** X15.  What [_to_cdata] returns is a run of CDATA sections, one
    after the other with nothing between them: the contents of the
    sections put together are the text it was given, and no content
    holds the end mark of a section, whatever the text holds. *)
Theorem to_cdata_sections (t : text) :
  exists parts,
    parts <> [] /\
    _to_cdata t
      = concat (map (fun p => CDATA_START ++ p ++ CDATA_END) parts) /\
    concat parts = t /\
    Forall (fun p => forall pre post, p <> pre ++ CDATA_END ++ post) parts.
Proof.
  destruct (escaped_sections (length t) t) as
    (first & rest & Hout & Hcat & Hfirst & Hrest); [reflexivity|].
  exists (first :: rest). split; [discriminate|]. split; [|split].
  - unfold _to_cdata. fold (escaped t). rewrite Hout.
    cbn [map concat]. rewrite <- !app_assoc. reflexivity.
  - exact Hcat.
  - constructor; [now apply has_end_false|].
    eapply Forall_impl; [exact Hrest|]. intros p Hp. now apply has_end_false.
Qed.

(** The text [a]]>b] goes into two sections. *)
Example to_cdata_splits_end_mark :
  _to_cdata (of_string "a]]>b")
  = of_string "<![CDATA[a]]]]><![CDATA[>b]]>".
Proof. reflexivity. Qed.

End CData.

(** * Further properties of the issue reconciliation *)

Section Classify.
Import Sync.

(** What [compare_issue] answers, from the record the store holds for
    the issue and the entry [next] finds for it. *)
Definition classify (rec : option Repository.issue_rec)
    (entry : option issue_hash) (i : Z) : outcome (option issue_data) :=
  match entry with
  | None => Raise StopIteration
  | Some h =>
      match rec with
      | None => Raise OtherException
      | Some ri =>
          match Repository.h_description ri with
          | None => Raise OtherException
          | Some stored =>
              let ed := Hash.hashes_equal (Some stored) (Some (h_description h)) in
              let ea := equal_attachment (Repository.h_attachment ri)
                          (h_attachment h) in
              if (if ed && ea then false else true)
              then Ok (Some {| d_id := i; d_description := negb ed;
                               d_attachment := negb ea |})
              else Ok None
          end
      end
  end.

Definition entry_of (hl : list issue_hash) (i : Z) : option issue_hash :=
  List.find (fun x => bool_decide (issue_id x = i)) hl.

Definition changed (r : Repository.redis) (hl : list issue_hash) (i : Z)
    : bool :=
  match classify (Repository.issues r !! i) (entry_of hl i) i with
  | Ok (Some _) => true
  | _ => false
  end.

Lemma compare_issue_classify (w : world) (hl : list issue_hash) (i : Z)
    (s : state) :
  redis_fault w (trace s) (GetIssue i) = None ->
  compare_issue w hl i s
  = (classify (Repository.issues (db s) !! i) (entry_of hl i) i,
     record (GetIssue i) s).
Proof.
  intros Hf.
  unfold compare_issue, bind, repo_get_issue, store_read, next, classify,
    entry_of, Repository.get_issue.
  rewrite Hf.
  destruct (List.find _ hl) as [h|]; [|reflexivity]. cbn [ret].
  destruct (Repository.issues (db s) !! i) as [ri|]; [|reflexivity].
  destruct (Repository.h_description ri); [|reflexivity].
  match goal with |- context [if ?b then _ else _] => destruct b end;
    reflexivity.
Qed.

Lemma equal_attachment_written (x a : option string) :
  default EmptyString x = Hash.or_empty a -> equal_attachment x a = true.
Proof.
  intros H. unfold equal_attachment.
  destruct (Hash.truthy a) eqn:Ha.
  - destruct (or_empty_truthy a Ha) as (s & -> & Hs & Hor).
    rewrite Hor in H. destruct x as [x|]; simpl in H; [|congruence].
    subst x. rewrite Ha. cbn [andb]. apply hashes_equal_refl.
  - rewrite (or_empty_falsy a Ha) in H.
    assert (Hx : Hash.truthy x = false).
    { apply truthy_false. destruct x as [x|]; simpl in H; subst; auto. }
    now rewrite Hx.
Qed.

(** The record that [upsert_issue_hash] leaves compares equal to the
    fingerprints it was given. *)
Lemma classify_written (r : Repository.redis) (h : issue_hash) :
  classify
    (Repository.issues
       (fst (Repository.upsert_issue_hash r (issue_id h) (h_description h)
               (h_attachment h))) !! issue_id h)
    (Some h) (issue_id h)
  = Ok None.
Proof.
  destruct (upsert_issue_hash_effect r (issue_id h) (h_description h)
              (h_attachment h)) as [(rec' & Hget & Hd & Ha & _) _].
  unfold Repository.get_issue in Hget. unfold classify.
  rewrite Hget, Hd, hashes_equal_refl, (equal_attachment_written _ _ Ha).
  reflexivity.
Qed.

(** X16.  Once [upsert_issue_hash] has written the fingerprints of an
    issue, [in_redis_issues] finds the issue unchanged against the same
    fingerprints: the comparison returns without an entry for the
    update list, whatever the store held for the issue before. *)
Theorem written_fingerprints_compare_equal (w : world)
    (r : Repository.redis) (t : list event) (hl : list issue_hash)
    (h : issue_hash) :
  redis_fault w t (GetIssue (issue_id h)) = None ->
  entry_of hl (issue_id h) = Some h ->
  fst (compare_issue w hl (issue_id h)
         {| db := fst (Repository.upsert_issue_hash r (issue_id h)
                         (h_description h) (h_attachment h));
            trace := t |})
  = Ok None.
Proof.
  intros Hf He. rewrite compare_issue_classify by exact Hf.
  cbn [fst db]. rewrite He. apply classify_written.
Qed.

Lemma written_fingerprints_compare_equal_witness :
  fst (compare_issue obliging [a_hash 1 "d2"] 1
         {| db := fst (Repository.upsert_issue_hash one_known_issue 1 "d2"
                         None);
            trace := [] |})
  = Ok None.
Proof.
  apply (written_fingerprints_compare_equal obliging one_known_issue []
           [a_hash 1 "d2"] (a_hash 1 "d2")); reflexivity.
Defined.

End Classify.

Section SecondPass.
Import Sync.

(** The store answers every call. *)
Definition no_faults (w : world) : Prop :=
  forall t e, redis_fault w t e = None.

(** The store after the record writes of [upsert_hashes]. *)
Definition write_all (hl : list issue_hash) (U : list Z)
    (r : Repository.redis) : Repository.redis :=
  fold_left
    (fun r h =>
       if bool_decide (issue_id h ∈ U)
       then fst (Repository.upsert_issue_hash r (issue_id h) (h_description h)
                   (h_attachment h))
       else r)
    hl r.

Lemma in_redis_issues_nofault (w : world) (hl : list issue_hash)
    (ids : list Z) (updated : list issue_data) (upload : list Z) (s : state) :
  no_faults w ->
  exists updated' t,
    in_redis_issues w ids hl updated upload s
    = (Ok (updated', upload ++ List.filter (changed (db s) hl) ids),
       {| db := db s; trace := trace s ++ t |}) /\
    Forall compare_phase t.
Proof.
  intros Hw. revert updated upload s.
  induction ids as [|i rest IH]; intros updated upload s.
  - exists updated, []. cbn. rewrite !app_nil_r. destruct s. split; auto.
  - cbn [in_redis_issues List.filter]. unfold bind at 1, try_except.
    rewrite compare_issue_classify by apply Hw.
    unfold changed at 1.
    destruct (classify (Repository.issues (db s) !! i) (entry_of hl i) i)
      as [[d|]|e].
    + destruct (IH (updated ++ [d]) (upload ++ [i]) (record (GetIssue i) s))
        as (u' & t & E & Ht).
      exists u', (GetIssue i :: t). rewrite E. cbn [record db trace].
      rewrite <- !app_assoc. split; [reflexivity|].
      constructor; [exact I | exact Ht].
    + destruct (IH updated upload (record (GetIssue i) s))
        as (u' & t & E & Ht).
      exists u', (GetIssue i :: t). rewrite E. cbn [record db trace].
      rewrite <- !app_assoc. split; [reflexivity|].
      constructor; [exact I | exact Ht].
    + cbn [Exception]. unfold bind at 1. cbn [send_alert_to_chat ret].
      destruct (IH updated upload
                  (record (SendAlert HashCompareFailed)
                     (record (GetIssue i) s))) as (u' & t & E & Ht).
      exists u', (GetIssue i :: SendAlert HashCompareFailed :: t).
      rewrite E. cbn [record db trace]. rewrite <- !app_assoc.
      split; [reflexivity|]. repeat constructor. exact Ht.
Qed.

Lemma upsert_hashes_nofault (w : world) (hl : list issue_hash) (U : list Z)
    (s : state) :
  no_faults w ->
  exists t,
    upsert_hashes w hl U s
    = (Ok tt, {| db := write_all hl U (db s); trace := trace s ++ t |}).
Proof.
  intros Hw. revert s. induction hl as [|h rest IH]; intros s.
  - exists []. cbn. rewrite app_nil_r. now destruct s.
  - cbn [upsert_hashes write_all fold_left]. unfold bind at 1.
    case_bool_decide as Hh.
    + unfold try_except, bind at 1, repo_upsert_issue_hash, store_write.
      rewrite (Hw (trace s)).
      destruct (Repository.upsert_issue_hash (db s) (issue_id h)
                  (h_description h) (h_attachment h)) as [r' b] eqn:E.
      cbn [ret fst].
      destruct (IH {| db := r';
                      trace := trace s ++ [UpsertIssueHash (issue_id h)
                                 (h_description h) (h_attachment h)] |})
        as (t & Et).
      rewrite Et. cbn [db trace]. eexists. rewrite <- app_assoc. reflexivity.
    + cbn [ret]. destruct (IH s) as (t & Et). rewrite Et. eauto.
Qed.

(** *** Coroutines that leave the issue records alone *)

Definition keeps_issues {A} (m : M A) : Prop :=
  forall s, Repository.issues (db (snd (m s))) = Repository.issues (db s).

Lemma keeps_ret {A} (a : A) : keeps_issues (ret a).
Proof. intros s. reflexivity. Qed.

Lemma keeps_raise {A} (e : exn) : keeps_issues (@raise A e).
Proof. intros s. reflexivity. Qed.

Lemma keeps_bind {A B} (m : M A) (k : A -> M B) :
  keeps_issues m -> (forall a, keeps_issues (k a)) -> keeps_issues (bind m k).
Proof.
  intros Hm Hk s. unfold bind. specialize (Hm s).
  destruct (m s) as [[a|e] s1]; simpl in *; [|exact Hm].
  now rewrite Hk.
Qed.

Lemma keeps_try_except {A} (m h : M A) (c : exn -> bool) :
  keeps_issues m -> keeps_issues h -> keeps_issues (try_except m c h).
Proof.
  intros Hm Hh s. unfold try_except. specialize (Hm s).
  destruct (m s) as [[a|e] s1]; simpl in *; [exact Hm|].
  destruct (c e); [now rewrite Hh | exact Hm].
Qed.

Lemma keeps_alert (a : alert) : keeps_issues (send_alert_to_chat a).
Proof. intros s. reflexivity. Qed.

Lemma keeps_next {A} (p : A -> bool) (l : list A) : keeps_issues (next p l).
Proof. intros s. unfold next. now destruct (List.find p l). Qed.

Lemma keeps_store_read (w : world) {A} (e : event)
    (f : Repository.redis -> A) : keeps_issues (store_read w e f).
Proof.
  intros s. unfold store_read. now destruct (redis_fault w (trace s) e).
Qed.

Lemma keeps_call (w : world) {A} (e : event)
    (answer : list event -> outcome A) : keeps_issues (call e answer).
Proof. intros s. reflexivity. Qed.

Lemma keeps_upsert_issue_link (w : world) (j p : Z) :
  keeps_issues (repo_upsert_issue_link w j p).
Proof.
  intros s. unfold repo_upsert_issue_link, store_write.
  destruct (redis_fault w (trace s) _); [reflexivity|].
  cbn. unfold Repository.upsert_issue_link.
  now destruct (Repository.UPSERT_LINK_LUA _ _ _ _).
Qed.

Lemma keeps_split_by_link (w : world) (ids : list Z) (inp : list (Z * Z))
    (notin : list Z) : keeps_issues (split_by_link w ids inp notin).
Proof.
  revert inp notin. induction ids as [|i rest IH]; intros inp notin.
  - apply keeps_ret.
  - cbn [split_by_link]. apply keeps_bind; [apply keeps_store_read|].
    intros [l|]; [|apply IH].
    destruct (Repository.p_issue l); [apply IH | apply keeps_raise].
Qed.

Lemma keeps_update_tasks (w : world) (inp : list (Z * Z))
    (updated : list issue_data) (jl : list jira_issue) :
  keeps_issues (update_tasks w inp updated jl).
Proof.
  induction inp as [|[p j] rest IH]; [apply keeps_ret|].
  cbn [update_tasks].
  apply keeps_bind; [apply keeps_next|]. intros d.
  apply keeps_bind; [apply keeps_next|]. intros jd.
  apply keeps_bind.
  { apply keeps_try_except; [|apply keeps_alert].
    destruct (d_description d); [apply keeps_call | apply keeps_ret];
      exact w. }
  intros _. apply keeps_bind; [|intros _; exact IH].
  apply keeps_try_except; [|apply keeps_alert].
  destruct (d_attachment d); [|apply keeps_ret].
  apply keeps_bind; [apply keeps_call; exact w|].
  intros _. apply keeps_call. exact w.
Qed.

Lemma keeps_create_tasks (w : world) (notin : list Z)
    (jl : list jira_issue) : keeps_issues (create_tasks w notin jl).
Proof.
  induction notin as [|j rest IH]; [apply keeps_ret|].
  cbn [create_tasks].
  apply keeps_bind; [apply keeps_next|]. intros jd.
  apply keeps_bind.
  { apply keeps_try_except.
    - apply keeps_bind; [apply keeps_call; exact w|].
      intros p. apply keeps_ret.
    - apply keeps_bind; [apply keeps_alert|]. intros _. apply keeps_ret. }
  intros [p|]; [|apply keeps_ret].
  apply keeps_bind; [apply keeps_upsert_issue_link|]. intros _.
  apply keeps_bind; [|intros _; exact IH].
  apply keeps_try_except; [|apply keeps_alert].
  destruct (attachment jd); [apply keeps_ret|].
  apply keeps_bind; [apply keeps_call; exact w|].
  intros _. apply keeps_call. exact w.
Qed.

(** The issue records after [upload_issues_to_planfix] are those after
    its record writes, however the function ends. *)
Lemma upload_issues_to_planfix_issues (w : world) (U : list Z)
    (hl : list issue_hash) (updated : list issue_data)
    (jl : list jira_issue) (s : state) :
  no_faults w ->
  Repository.issues
    (db (snd (upload_issues_to_planfix w U hl updated jl s)))
  = Repository.issues (write_all hl U (db s)).
Proof.
  intros Hw. unfold upload_issues_to_planfix. destruct U as [|i U'].
  - cbn [ret snd]. f_equal. unfold write_all.
    induction hl as [|h rest IH] in s |- *; [reflexivity|].
    cbn [fold_left]. case_bool_decide as Hh; [|apply IH].
    now apply elem_of_nil in Hh.
  - set (U := i :: U'). unfold bind at 1.
    destruct (upsert_hashes_nofault w hl U s Hw) as (t & E). rewrite E.
    match goal with |- context [snd (?m ?st)] =>
      change (Repository.issues (db (snd (m st)))
              = Repository.issues (db st)) end.
    match goal with |- Repository.issues (db (snd (?m ?st))) = _ =>
      assert (K : keeps_issues m); [|apply K] end.
    apply keeps_bind; [apply keeps_split_by_link|].
    intros [inp notin].
    apply keeps_bind; [apply keeps_update_tasks|].
    intros _. apply keeps_create_tasks.
Qed.

End SecondPass.

Section Quiescence.
Import Sync.

Lemma write_all_cons (h : issue_hash) (hl : list issue_hash) (U : list Z)
    (r : Repository.redis) :
  write_all (h :: hl) U r
  = write_all hl U
      (if bool_decide (issue_id h ∈ U)
       then fst (Repository.upsert_issue_hash r (issue_id h) (h_description h)
                   (h_attachment h))
       else r).
Proof. reflexivity. Qed.

Lemma write_all_other (hl : list issue_hash) (U : list Z)
    (r : Repository.redis) (i : Z) :
  (i ∉ map issue_id hl \/ i ∉ U) ->
  Repository.issues (write_all hl U r) !! i = Repository.issues r !! i.
Proof.
  revert r. induction hl as [|h rest IH]; intros r Hi; [reflexivity|].
  rewrite write_all_cons.
  assert (Hrest : i ∉ map issue_id rest \/ i ∉ U).
  { destruct Hi as [Hi|Hi]; [left|now right]. cbn in Hi. set_solver. }
  rewrite IH by exact Hrest.
  case_bool_decide as Hh; [|reflexivity].
  destruct (upsert_issue_hash_effect r (issue_id h) (h_description h)
              (h_attachment h)) as (_ & Hframe & _).
  unfold Repository.get_issue in Hframe. apply Hframe.
  intros ->. destruct Hi as [Hi|Hi]; [|contradiction].
  apply Hi. cbn. set_solver.
Qed.

Lemma write_all_keeps_keys (hl : list issue_hash) (U : list Z)
    (r : Repository.redis) (i : Z) :
  is_Some (Repository.issues r !! i) ->
  is_Some (Repository.issues (write_all hl U r) !! i).
Proof.
  revert r. induction hl as [|h rest IH]; intros r Hi; [exact Hi|].
  rewrite write_all_cons. apply IH.
  case_bool_decide as Hh; [|exact Hi].
  destruct (upsert_issue_hash_effect r (issue_id h) (h_description h)
              (h_attachment h)) as ((rec' & Hget & _) & Hframe & _).
  unfold Repository.get_issue in *.
  destruct (Z.eq_dec i (issue_id h)) as [->|Hne]; [eauto|].
  now rewrite Hframe.
Qed.

Lemma write_all_written (hl : list issue_hash) (U : list Z)
    (r : Repository.redis) (h : issue_hash) :
  NoDup (map issue_id hl) -> In h hl -> issue_id h ∈ U ->
  classify (Repository.issues (write_all hl U r) !! issue_id h) (Some h)
    (issue_id h) = Ok None.
Proof.
  revert r. induction hl as [|h0 rest IH]; intros r Hnd Hin HU; [destruct Hin|].
  cbn in Hnd. apply NoDup_cons in Hnd as [Hh0 Hnd].
  rewrite write_all_cons.
  destruct Hin as [->|Hin].
  - rewrite write_all_other by (left; exact Hh0).
    rewrite bool_decide_eq_true_2 by exact HU. apply classify_written.
  - now apply IH.
Qed.

Lemma entry_of_In (hl : list issue_hash) (i : Z) :
  i ∈ map issue_id hl ->
  exists h, entry_of hl i = Some h /\ In h hl /\ issue_id h = i.
Proof.
  intros Hi. apply list_elem_of_In, in_map_iff in Hi as (h & Hh & Hin).
  unfold entry_of.
  destruct (List.find (fun x => bool_decide (issue_id x = i)) hl) as [h'|] eqn:E.
  - apply find_some in E as [Hin' E']. apply bool_decide_eq_true in E'. eauto.
  - exfalso. apply (find_none _ _ E h) in Hin.
    apply bool_decide_eq_false in Hin. contradiction.
Qed.

Lemma changed_issues (r r' : Repository.redis) (hl : list issue_hash) (i : Z) :
  Repository.issues r' !! i = Repository.issues r !! i ->
  changed r' hl i = changed r hl i.
Proof. intros H. unfold changed. now rewrite H. Qed.

Lemma to_list_elem (to_list : gset Z -> list Z) (X : gset Z) (i : Z) :
  (forall X : gset Z, to_list X ≡ₚ elements X) -> i ∈ to_list X <-> i ∈ X.
Proof. intros H. now rewrite H, elem_of_elements. Qed.

(** X17.  After a pass in which the store answered, a second pass over
    the same fingerprints changes nothing, whatever the destination did
    in the first: it lists the records and reads them, reports a record
    it cannot compare, and makes no destination call and no store
    write.  So a destination update or a task creation that failed in
    the first pass is not tried again. *)
Theorem second_pass_changes_nothing (w1 w2 : world)
    (to_list : gset Z -> list Z) (hl : list issue_hash)
    (jl1 jl2 : list jira_issue) (s : state) (t : list event) :
  no_faults w1 -> no_faults w2 ->
  (forall X : gset Z, to_list X ≡ₚ elements X) ->
  NoDup (map issue_id hl) ->
  let db1 := db (snd (job_issues w1 to_list hl jl1 s)) in
  exists t',
    job_issues w2 to_list hl jl2 {| db := db1; trace := t |}
    = (Ok tt, {| db := db1; trace := (t ++ [ListIssueIds]) ++ t' |}) /\
    Forall compare_phase t'.
Proof.
  intros Hw1 Hw2 Hperm Hnd db1.
  (* the records after the first pass *)
  assert (Hdb1 : exists U,
    Repository.issues db1 = Repository.issues (write_all hl U (db s)) /\
    forall i, i ∈ map issue_id hl -> i ∉ U ->
      is_Some (Repository.issues (db s) !! i) /\ changed (db s) hl i = false).
  { subst db1. unfold job_issues. unfold bind at 1.
    unfold repo_list_issue_ids, store_read. rewrite (Hw1 (trace s)).
    unfold bind at 1.
    match goal with
    | |- context [in_redis_issues w1 ?k hl [] ?u ?s0] =>
        set (K := k); set (U0 := u) in *; set (s1 := s0)
    end.
    destruct (in_redis_issues_nofault w1 hl K [] U0 s1 Hw1)
      as (u' & t0 & E & _).
    rewrite E. cbn [db s1 record].
    exists (U0 ++ List.filter (changed (db s) hl) K).
    split; [now rewrite upload_issues_to_planfix_issues|].
    intros i HiJ HiU. rewrite elem_of_app in HiU.
    assert (HiU0 : i ∉ U0) by tauto.
    assert (HiR : i ∈ Repository.list_issue_ids (db s)).
    { destruct (decide (i ∈ Repository.list_issue_ids (db s)));
        [assumption|].
      exfalso. apply HiU0. subst U0. apply (to_list_elem _ _ _ Hperm).
      apply elem_of_difference.
      split; [now apply elem_of_list_to_set|].
      now rewrite elem_of_list_to_set. }
    split.
    - unfold Repository.list_issue_ids in HiR.
      now apply elem_of_elements, elem_of_dom in HiR.
    - destruct (changed (db s) hl i) eqn:Ec; [|reflexivity].
      exfalso. apply HiU. right. apply list_elem_of_In, filter_In.
      split; [|exact Ec]. apply list_elem_of_In.
      subst K. apply (to_list_elem _ _ _ Hperm).
      apply elem_of_difference.
      split; [now apply elem_of_list_to_set|].
      now rewrite elem_of_list_to_set. }
  destruct Hdb1 as (U & Hissues & Hrest).
  (* every issue of the pass is known and unchanged *)
  assert (Hall : forall i, i ∈ map issue_id hl ->
    is_Some (Repository.issues db1 !! i) /\ changed db1 hl i = false).
  { intros i Hm. rewrite Hissues.
    destruct (decide (i ∈ U)) as [HiU|HiU].
    - destruct (entry_of_In hl i Hm) as (h & He & Hin & <-).
      pose proof (write_all_written hl U (db s) h Hnd Hin HiU) as Hc.
      split.
      + unfold classify in Hc.
        destruct (Repository.issues (write_all hl U (db s)) !! issue_id h);
          [eauto | discriminate].
      + unfold changed. rewrite Hissues, He, Hc. reflexivity.
    - destruct (Hrest i Hm HiU) as [Hk Hc]. split.
      + now apply write_all_keeps_keys.
      + rewrite <- Hc. apply changed_issues.
        rewrite Hissues. apply write_all_other. now right. }
  (* the second pass *)
  unfold job_issues. unfold bind at 1.
  unfold repo_list_issue_ids, store_read. rewrite (Hw2 t). cbn [db trace].
  unfold bind at 1.
  match goal with
  | |- context [in_redis_issues w2 ?k hl [] ?u ?s0] =>
      set (K := k); set (U0 := u) in *; set (s1 := s0)
  end.
  assert (HU0 : U0 = []).
  { apply Permutation_nil_r. subst U0. rewrite Hperm.
    match goal with |- elements ?X ≡ₚ [] => replace X with (∅ : gset Z) end;
      [now rewrite elements_empty|].
    symmetry. apply set_eq. intros i. split; [|set_solver].
    intros Hi. apply elem_of_difference in Hi as [HiJ Hn]. exfalso. apply Hn.
    apply elem_of_list_to_set in HiJ.
    apply elem_of_list_to_set. unfold Repository.list_issue_ids.
    apply elem_of_elements, elem_of_dom. now apply Hall. }
  destruct (in_redis_issues_nofault w2 hl K [] U0 s1 Hw2)
    as (u' & t' & E & Ht').
  rewrite E. subst s1. cbn [db record trace].
  assert (HF : List.filter (changed db1 hl) K = []).
  { apply filter_nothing. intros i Hi. apply Hall.
    apply list_elem_of_In in Hi. subst K.
    apply (to_list_elem _ _ _ Hperm) in Hi.
    apply elem_of_difference in Hi as [Hi _].
    now apply elem_of_list_to_set in Hi. }
  rewrite HF, HU0. cbn [upload_issues_to_planfix ret app]. eauto.
Qed.

Lemma second_pass_changes_nothing_witness :
  exists t',
    job_issues obliging elements [a_hash 1 "d2"; a_hash 2 "x"]
      [an_issue 1; an_issue 2]
      {| db := db (snd (job_issues refusing_update elements
                          [a_hash 1 "d2"; a_hash 2 "x"]
                          [an_issue 1; an_issue 2]
                          {| db := one_known_issue; trace := [] |}));
         trace := [] |}
    = (Ok tt,
       {| db := db (snd (job_issues refusing_update elements
                           [a_hash 1 "d2"; a_hash 2 "x"]
                           [an_issue 1; an_issue 2]
                           {| db := one_known_issue; trace := [] |}));
          trace := ([] ++ [ListIssueIds]) ++ t' |}) /\
    Forall compare_phase t'.
Proof.
  apply (second_pass_changes_nothing refusing_update obliging elements
           [a_hash 1 "d2"; a_hash 2 "x"] [an_issue 1; an_issue 2]
           [an_issue 1; an_issue 2] {| db := one_known_issue; trace := [] |} []).
  - intros t e. reflexivity.
  - intros t e. reflexivity.
  - reflexivity.
  - cbn. repeat constructor; set_solver.
Defined.

End Quiescence.

(** * The fingerprints are written first *)

Section WrittenFirst.
Import Sync.









End WrittenFirst.

(** * [src/__main__.py]: reconciliation of comments *)

Module Comments.

(** [str(x)] of an [int]: its decimal digits after the sign. *)
Definition str_of_int (z : Z) : string :=
  DecimalString.NilZero.string_of_int (Z.to_int z).

(** A value of type [int | str]. *)
Inductive int_or_str :=
  | PInt (z : Z)
  | PStr (s : string).

Definition str (x : int_or_str) : string :=
  match x with
  | PInt z => str_of_int z
  | PStr s => s
  end.

(** The hash stored at [comment_link:{comment_j_id}]; a field that was
    never set is [None]. *)
Record comment_rec := {
  created_at : option Z;
  h_description : option string;
  comment_j_id : option string;
  comment_p_id : option string;
  p_issue_id : option string
}.

(** The Redis server: the key spaces of the issue reconciliation and
    the comment links. *)
Record store := {
  base : Repository.redis;
  comment_links : gmap string comment_rec
}.

(** [UPSERT_COMMENT_LUA] on the hash at [KEYS[1]] ([None] when
    [EXISTS] is 0), with [now] the answer of [TIME].  Returns the hash
    afterwards and [is_new]. *)
Definition UPSERT_COMMENT_LUA (now : Z) (h : option comment_rec)
    (j p p_issue desc : string) : comment_rec * Z :=
  let '(r, is_new) :=
    match h with
    | None =>
        ({| created_at := Some now; h_description := None;
            comment_j_id := None; comment_p_id := None;
            p_issue_id := None |}, 1)
    | Some r => (r, 0)
    end in
  let old_desc := default EmptyString (h_description r) in
  let h_desc :=
    if negb (String.eqb old_desc desc) then Some desc else h_description r in
  ({| created_at := created_at r; h_description := h_desc;
      comment_j_id := Some j; comment_p_id := Some p;
      p_issue_id := Some p_issue |},
   is_new).

(** [bool(is_new)]. *)
Definition bool_of_int (z : Z) : bool := negb (z =? 0).

Definition upsert_comment (r : store) (comment_j_id : string)
    (comment_p_id p_issue_id : int_or_str) (h_description : string)
    : store * bool :=
  let '(rec, is_new) :=
    UPSERT_COMMENT_LUA (Repository.clock (base r))
      (comment_links r !! comment_j_id)
      comment_j_id (str comment_p_id) (str p_issue_id) h_description in
  ({| base := base r;
      comment_links := <[comment_j_id := rec]> (comment_links r) |},
   bool_of_int is_new).

(** The dict [get_comment] returns; a key it did not set is [None]. *)
Record comment_link := {
  link_comment_j_id : string;
  link_comment_p_id : option Z;
  link_p_issue_id : option Z;
  link_h_description : option string
}.

(** An element of a list returned by [get_issue_comments]. *)
Record comment := {
  id : string;
  issue_id : Z;
  author : Hash.text;
  created : Hash.text;
  description : option Hash.text
}.

Inductive alert :=
  | CommentUpdateFailed (j_issue : Z)
  | LinkMissing (j_issue : Z)
  | CommentAddFailed (j_issue : Z).

(** The awaited calls of the comment phase after the comments were
    fetched, in the order they are made. *)
Inductive event :=
  | GetComment (comment_j_id : string)
  | GetIssueLink (j_issue : Z)
  | UpdateComment (comment_id : Z) (description : Hash.text)
  | AddComment (planfix_task_id : Z) (description : Hash.text)
  | UpsertComment (comment_j_id : string) (comment_p_id p_issue_id : string)
      (h_description : string)
  | SendAlert (a : alert).

(** What the collaborators answer.  [add_comment] returns the text of
    the first [id] element of the response. *)
Record world := {
  redis_fault : list event -> event -> option exn;
  get_issue_comments : Z -> outcome (list comment);
  update_comment : list event -> Hash.text -> Z -> outcome unit;
  add_comment : list event -> Hash.text -> Z -> outcome string
}.

Record state := {
  db : store;
  trace : list event
}.

Definition M (A : Type) : Type := state -> outcome A * state.

Definition ret {A} (a : A) : M A := fun s => (Ok a, s).

Definition raise {A} (e : exn) : M A := fun s => (Raise e, s).

Definition bind {A B} (m : M A) (k : A -> M B) : M B :=
  fun s =>
    match m s with
    | (Ok a, s') => k a s'
    | (Raise e, s') => (Raise e, s')
    end.

Notation "x <- m ;; k" := (bind m (fun x => k))
  (at level 100, m at level 99, k at level 200, right associativity).
Notation "m ;;; k" := (bind m (fun _ => k))
  (at level 100, k at level 200, right associativity).

(** [try: m except <classes>: handler]. *)
Definition try_except {A} (m : M A) (caught : exn -> bool) (handler : M A)
    : M A :=
  fun s =>
    match m s with
    | (Ok a, s') => (Ok a, s')
    | (Raise e, s') => if caught e then handler s' else (Raise e, s')
    end.

Definition record (e : event) (s : state) : state :=
  {| db := db s; trace := trace s ++ [e] |}.

Definition send_alert_to_chat (a : alert) : M unit :=
  fun s => (Ok tt, record (SendAlert a) s).

(** [d[key]] on a dict that may lack the key: [KeyError]. *)
Definition subscript {A} (v : option A) : M A :=
  match v with
  | Some a => ret a
  | None => raise OtherException
  end.

(** [for x in l: body(x)]. *)
Fixpoint for_each {A} (body : A -> M unit) (l : list A) : M unit :=
  match l with
  | [] => ret tt
  | a :: rest => body a ;;; for_each body rest
  end.

(** [asyncio.gather] on the requests: the results in the order of the
    requests, or the exception of a request that raised.  All requests
    raise exceptions of the same class here, and the first of the list
    is taken. *)
Fixpoint gather {A} (l : list (outcome A)) : outcome (list A) :=
  match l with
  | [] => Ok []
  | Raise e :: _ => Raise e
  | Ok a :: rest =>
      match gather rest with
      | Ok r => Ok (a :: r)
      | Raise e => Raise e
      end
  end.

(** The text of the f-string of [comment_description_format]; the
    literals are the Cyrillic words for author and date. *)
Definition AUTHOR : Hash.text := [1040; 1074; 1090; 1086; 1088; 58; 32]%N.
Definition DATE : Hash.text := [1044; 1072; 1090; 1072; 58; 32]%N.
Definition STOP : Hash.text := [46; 10; 10]%N.

(** [f'{x}'] of a [str] or [None]. *)
Definition format_value (x : option Hash.text) : Hash.text :=
  match x with
  | Some t => t
  | None => Hash.of_string "None"
  end.

Definition comment_description_format (data : comment) : Hash.text :=
  AUTHOR ++ author data ++ STOP ++
  DATE ++ take 19 (created data) ++ STOP ++
  format_value (description data).

Section Phase.
Context {L : Hash.TextLib}.
(** [h_digest(text.encode("utf-8")).hex()]. *)
Variable digest_hex : Hash.text -> string.
(** [int(s)] of a [str]; [None] when it raises [ValueError]. *)
Variable int_of_str : string -> option Z.
Variable w : world.

(** [hash_text] of [src/utils/hash.py]. *)
Definition hash_text (text : Hash.text) : string :=
  let text := Hash.canon_text (Some text) true in
  digest_hex text.

(** [int(data[key])] when [key in data]. *)
Definition int_field (v : option string) : outcome (option Z) :=
  match v with
  | None => Ok None
  | Some s =>
      match int_of_str s with
      | Some z => Ok (Some z)
      | None => Raise OtherException
      end
  end.

Definition get_comment (r : store) (comment_j_id : string)
    : outcome (option comment_link) :=
  match comment_links r !! comment_j_id with
  | None => Ok None
  | Some data =>
      match int_field (comment_p_id data) with
      | Raise e => Raise e
      | Ok p =>
          match int_field (p_issue_id data) with
          | Raise e => Raise e
          | Ok pi =>
              Ok (Some {| link_comment_j_id := comment_j_id;
                          link_comment_p_id := p;
                          link_p_issue_id := pi;
                          link_h_description := h_description data |})
          end
      end
  end.

Definition repo_get_comment (comment_j_id : string)
    : M (option comment_link) :=
  fun s =>
    match redis_fault w (trace s) (GetComment comment_j_id) with
    | Some x => (Raise x, record (GetComment comment_j_id) s)
    | None =>
        (get_comment (db s) comment_j_id, record (GetComment comment_j_id) s)
    end.

Definition repo_get_issue_link (j_issue : Z)
    : M (option Repository.link_rec) :=
  fun s =>
    match redis_fault w (trace s) (GetIssueLink j_issue) with
    | Some x => (Raise x, record (GetIssueLink j_issue) s)
    | None =>
        (Ok (Repository.get_issue_link (base (db s)) j_issue),
         record (GetIssueLink j_issue) s)
    end.

Definition repo_upsert_comment (comment_j_id : string)
    (comment_p_id p_issue_id : int_or_str) (h_description : string)
    : M bool :=
  fun s =>
    let e := UpsertComment comment_j_id (str comment_p_id) (str p_issue_id)
               h_description in
    match redis_fault w (trace s) e with
    | Some x => (Raise x, record e s)
    | None =>
        let '(r, is_new) :=
          upsert_comment (db s) comment_j_id comment_p_id p_issue_id
            h_description in
        (Ok is_new, {| db := r; trace := trace s ++ [e] |})
    end.

Definition planfix_update_comment (description : Hash.text) (comment_id : Z)
    : M unit :=
  fun s =>
    (update_comment w (trace s) description comment_id,
     record (UpdateComment comment_id description) s).

Definition planfix_add_comment (description : Hash.text)
    (planfix_task_id : Z) : M string :=
  fun s =>
    (add_comment w (trace s) description planfix_task_id,
     record (AddComment planfix_task_id description) s).

(** The branch for a comment the store knows, lines 96 to 127. *)
Definition known_comment (data : comment) (redis_comment : comment_link)
    : M unit :=
  let description := comment_description_format data in
  let text := Hash.canon_text (Some description) true in
  let h_description := hash_text text in
  redis_h_description <- subscript (link_h_description redis_comment) ;;
  let equal :=
    Hash.hashes_equal (Some redis_h_description) (Some h_description) in
  if negb equal then
    try_except
      (comment_p_id <- subscript (link_comment_p_id redis_comment) ;;
       planfix_update_comment description comment_p_id ;;;
       p_issue_id <- subscript (link_p_issue_id redis_comment) ;;
       repo_upsert_comment (id data) (PInt comment_p_id) (PInt p_issue_id)
         h_description ;;;
       ret tt)
      Sync.is_RuntimeError
      (send_alert_to_chat (CommentUpdateFailed (issue_id data)))
  else ret tt.

(** The branch for a comment the store does not know, lines 129 to
    172. *)
Definition new_comment (data : comment) : M unit :=
  jira_planfix_link <- repo_get_issue_link (issue_id data) ;;
  match jira_planfix_link with
  | None => send_alert_to_chat (LinkMissing (issue_id data))   (* continue *)
  | Some jira_planfix_link =>
      let description := comment_description_format data in
      try_except
        (p_issue <- subscript (Repository.p_issue jira_planfix_link) ;;
         comment_p_id <- planfix_add_comment description p_issue ;;
         let text := Hash.canon_text (Some description) true in
         let h_description := hash_text text in
         repo_upsert_comment (id data) (PStr comment_p_id) (PInt p_issue)
           h_description ;;;
         ret tt)
        Sync.Exception
        (send_alert_to_chat (CommentAddFailed (issue_id data)))
  end.

(** The body of the inner loop. *)
Definition one_comment (data : comment) : M unit :=
  redis_comment <- repo_get_comment (id data) ;;
  match redis_comment with
  | Some redis_comment => known_comment data redis_comment
  | None => new_comment data
  end.

Definition comments (jira_issues_data : list Sync.jira_issue) : M unit :=
  match gather (map (fun i => get_issue_comments w (Sync.id i))
                  jira_issues_data) with
  | Raise e => raise e
  | Ok comments_data =>
      if negb (bool_of_nil comments_data) then
        for_each
          (fun comment_list =>
             if negb (bool_of_nil comment_list)
             then for_each one_comment comment_list
             else ret tt)
          comments_data
      else ret tt
  end.

End Phase.

Definition empty_store (t : Z) : store :=
  {| base := Repository.empty_redis t; comment_links := ∅ |}.

End Comments.

(** * The comment links *)

Section CommentLinks.
Import Comments.
Variable int_of_str : string -> option Z.

(** The store once [upsert_comment] has run. *)
Lemma upsert_comment_effect (r : store) (j : string) (p pi : int_or_str)
    (h : string) :
  let r' := fst (upsert_comment r j p pi h) in
  (exists rec',
     comment_links r' !! j = Some rec' /\
     comment_j_id rec' = Some j /\
     comment_p_id rec' = Some (str p) /\
     p_issue_id rec' = Some (str pi) /\
     (h <> EmptyString -> h_description rec' = Some h) /\
     created_at rec' = match comment_links r !! j with
                       | Some rec => created_at rec
                       | None => Some (Repository.clock (base r))
                       end) /\
  (forall j', j' <> j -> comment_links r' !! j' = comment_links r !! j') /\
  base r' = base r.
Proof.
  unfold upsert_comment, UPSERT_COMMENT_LUA.
  destruct (comment_links r !! j) as [rec|] eqn:Hj;
    cbn [fst comment_links base created_at h_description comment_j_id
         comment_p_id p_issue_id default].
  - split; [|split; [|reflexivity]].
    + eexists. rewrite lookup_insert_eq. split; [reflexivity|].
      cbn [created_at h_description comment_j_id comment_p_id p_issue_id].
      repeat split.
      intros Hh.
      destruct (String.eqb_spec (default EmptyString (h_description rec)) h)
        as [E|E]; cbn [negb]; [|reflexivity].
      destruct (h_description rec) as [d|]; cbn in E; congruence.
    + intros j' Hne. now rewrite lookup_insert_ne.
  - split; [|split; [|reflexivity]].
    + eexists. rewrite lookup_insert_eq. split; [reflexivity|].
      cbn [created_at h_description comment_j_id comment_p_id p_issue_id].
      repeat split.
      intros Hh. destruct (String.eqb_spec EmptyString h) as [E|E];
        cbn [negb]; congruence.
    + intros j' Hne. now rewrite lookup_insert_ne.
Qed.

(** X18.  What [upsert_comment] wrote is what [get_comment] reads: the
    two ids as integers and the fingerprint, when the ids are integer
    literals and the fingerprint is not empty.  [upsert_comment] returns
    [True] exactly when the key was not there. *)
Theorem upsert_comment_then_get_comment (r : store) (j : string)
    (p pi : int_or_str) (h : string) (zp zpi : Z) :
  int_of_str (str p) = Some zp ->
  int_of_str (str pi) = Some zpi ->
  h <> EmptyString ->
  get_comment int_of_str (fst (upsert_comment r j p pi h)) j
  = Ok (Some {| link_comment_j_id := j; link_comment_p_id := Some zp;
                link_p_issue_id := Some zpi; link_h_description := Some h |}) /\
  (snd (upsert_comment r j p pi h) = true <-> comment_links r !! j = None).
Proof.
  intros Hp Hpi Hh. split.
  - destruct (upsert_comment_effect r j p pi h)
      as ((rec' & Hget & _ & Ep & Epi & Ed & _) & _).
    unfold get_comment. rewrite Hget, Ep, Epi, (Ed Hh).
    cbn [int_field]. rewrite Hp, Hpi. reflexivity.
  - unfold upsert_comment, UPSERT_COMMENT_LUA.
    destruct (comment_links r !! j); cbn; split; congruence.
Qed.

(** X19.  [upsert_comment] stores the id the destination returned as it
    is; when that is not an integer literal, [get_comment] raises on
    the record from then on. *)
Theorem get_comment_raises_on_other_id (r : store) (j cid : string)
    (pi : int_or_str) (h : string) :
  int_of_str cid = None ->
  get_comment int_of_str (fst (upsert_comment r j (PStr cid) pi h)) j
  = Raise OtherException.
Proof.
  intros Hc.
  destruct (upsert_comment_effect r j (PStr cid) pi h)
    as ((rec' & Hget & _ & Ep & _) & _).
  unfold get_comment. rewrite Hget, Ep. cbn [str int_field]. now rewrite Hc.
Qed.

End CommentLinks.

(** [int] on decimal digits after an optional sign; what it does on
    other strings that Python accepts plays no role below. *)
Definition decimal_int (s : string) : option Z :=
  option_map Z.of_int (DecimalString.NilZero.int_of_string s).

Lemma upsert_comment_then_get_comment_witness :
  Comments.get_comment decimal_int
    (fst (Comments.upsert_comment (Comments.empty_store 100) "10042"
            (Comments.PStr "77") (Comments.PInt 5) "ab12")) "10042"
  = Ok (Some {| Comments.link_comment_j_id := "10042";
                Comments.link_comment_p_id := Some 77;
                Comments.link_p_issue_id := Some 5;
                Comments.link_h_description := Some "ab12"%string |}) /\
  (snd (Comments.upsert_comment (Comments.empty_store 100) "10042"
          (Comments.PStr "77") (Comments.PInt 5) "ab12") = true <->
   Comments.comment_links (Comments.empty_store 100) !! "10042"%string = None).
Proof.
  apply (upsert_comment_then_get_comment decimal_int
           (Comments.empty_store 100) "10042" (Comments.PStr "77")
           (Comments.PInt 5) "ab12" 77 5).
  - reflexivity.
  - reflexivity.
  - discriminate.
Defined.

Lemma get_comment_raises_on_other_id_witness :
  Comments.get_comment decimal_int
    (fst (Comments.upsert_comment (Comments.empty_store 100) "10042"
            (Comments.PStr "c-77") (Comments.PInt 5) "ab12")) "10042"
  = Raise OtherException.
Proof.
  apply (get_comment_raises_on_other_id decimal_int
           (Comments.empty_store 100) "10042" "c-77" (Comments.PInt 5) "ab12").
  reflexivity.
Defined.

(** * The comment phase, one comment at a time *)

Section OneComment.
Import Comments.
Context {L : Hash.TextLib}.
Variable digest_hex : Hash.text -> string.
Variable int_of_str : string -> option Z.

(** The store answers every call. *)
Definition answers (w : world) : Prop :=
  forall t e, redis_fault w t e = None.

(** Both sides are the same state once the trace is written out. *)
Ltac same_state :=
  unfold send_alert_to_chat, record; cbn [db trace];
  rewrite <- ?app_assoc; cbn [app]; reflexivity.

(** The fingerprint the phase computes for a comment. *)
Definition fingerprint (data : comment) : string :=
  hash_text digest_hex
    (Hash.canon_text (Some (comment_description_format data)) true).

(** A comment whose record holds its fingerprint. *)
Lemma one_comment_unchanged (w : world) (data : comment)
    (rec : comment_rec) (zp zpi : Z) (ps pis : string) (s : state) :
  redis_fault w (trace s) (GetComment (id data)) = None ->
  comment_links (db s) !! id data = Some rec ->
  comment_p_id rec = Some ps -> int_of_str ps = Some zp ->
  p_issue_id rec = Some pis -> int_of_str pis = Some zpi ->
  h_description rec = Some (fingerprint data) ->
  one_comment digest_hex int_of_str w data s
  = (Ok tt, record (GetComment (id data)) s).
Proof.
  intros Hf Hrec Hp Hzp Hpi Hzpi Hd.
  unfold one_comment, bind, repo_get_comment, get_comment.
  rewrite Hf, Hrec, Hp, Hpi. cbn [int_field]. rewrite Hzp, Hzpi.
  unfold known_comment, bind. cbn [link_h_description]. rewrite Hd.
  cbn [subscript ret]. fold (fingerprint data).
  now rewrite hashes_equal_refl.
Qed.

(** X20.  A comment whose record holds the fingerprint of its formatted
    text is skipped: the record is read, no destination call is made and
    nothing is written. *)
Theorem unchanged_comment_is_skipped (w : world) (data : comment)
    (rec : comment_rec) (zp zpi : Z) (ps pis : string) (s : state) :
  redis_fault w (trace s) (GetComment (id data)) = None ->
  comment_links (db s) !! id data = Some rec ->
  comment_p_id rec = Some ps -> int_of_str ps = Some zp ->
  p_issue_id rec = Some pis -> int_of_str pis = Some zpi ->
  h_description rec = Some (fingerprint data) ->
  one_comment digest_hex int_of_str w data s
  = (Ok tt, record (GetComment (id data)) s).
Proof.
  exact (one_comment_unchanged w data rec zp zpi ps pis s).
Qed.

(** X21.  A comment the store does not know, on an issue with a link,
    that the destination accepts: the comment is added to the task of
    the link and then recorded with the id the destination returned.
    From then on the comment is skipped, whatever the collaborators
    answer, as long as the store can be read. *)
Theorem new_comment_is_added_once (w : world) (data : comment)
    (l : Repository.link_rec) (pi zc : Z) (cid : string) (s : state) :
  answers w ->
  comment_links (db s) !! id data = None ->
  Repository.links (base (db s)) !! issue_id data = Some l ->
  Repository.p_issue l = Some pi ->
  add_comment w
    (trace s ++ [GetComment (id data); GetIssueLink (issue_id data)])
    (comment_description_format data) pi = Ok cid ->
  int_of_str cid = Some zc ->
  int_of_str (str_of_int pi) = Some pi ->
  fingerprint data <> EmptyString ->
  exists r',
    one_comment digest_hex int_of_str w data s
    = (Ok tt,
       {| db := r';
          trace := trace s ++
            [GetComment (id data); GetIssueLink (issue_id data);
             AddComment pi (comment_description_format data);
             UpsertComment (id data) cid (str_of_int pi)
               (fingerprint data)] |}) /\
    base r' = base (db s) /\
    forall w' t,
      redis_fault w' t (GetComment (id data)) = None ->
      one_comment digest_hex int_of_str w' data {| db := r'; trace := t |}
      = (Ok tt, {| db := r'; trace := t ++ [GetComment (id data)] |}).
Proof.
  intros Hw Hnone Hlink Hpi Hadd Hcid Hint Hfp.
  exists (fst (upsert_comment (db s) (id data) (PStr cid) (PInt pi)
                 (fingerprint data))).
  destruct (upsert_comment_effect (db s) (id data) (PStr cid) (PInt pi)
              (fingerprint data))
    as ((rec' & Hget & _ & Ep & Epi & Ed & _) & _ & Hbase).
  split; [|split; [exact Hbase|]].
  - unfold one_comment, bind, repo_get_comment, get_comment.
    rewrite Hw, Hnone.
    unfold new_comment, bind, repo_get_issue_link. rewrite Hw.
    cbn [record trace db].
    unfold Repository.get_issue_link. rewrite Hlink.
    unfold try_except, bind. rewrite Hpi. cbn [subscript ret].
    unfold planfix_add_comment. cbn [record trace db].
    rewrite <- app_assoc. cbn [app]. rewrite Hadd.
    unfold repo_upsert_comment. rewrite Hw. cbn [record trace db].
    fold (fingerprint data).
    destruct (upsert_comment (db s) (id data) (PStr cid) (PInt pi)
                (fingerprint data)) as [r1 is_new].
    cbn [fst str ret]. rewrite <- !app_assoc. reflexivity.
  - intros w' t Hf.
    apply (one_comment_unchanged w' data rec' zc pi cid (str_of_int pi));
      auto.
Qed.

(** X22.  A comment the destination refuses is not recorded: whatever
    [add_comment] raises, the failure is reported, the store stays as it
    was and the loop goes on, so the next pass tries the comment
    again. *)
Theorem refused_comment_is_not_recorded (w : world) (data : comment)
    (l : Repository.link_rec) (pi : Z) (e : exn) (s : state) :
  answers w ->
  comment_links (db s) !! id data = None ->
  Repository.links (base (db s)) !! issue_id data = Some l ->
  Repository.p_issue l = Some pi ->
  add_comment w
    (trace s ++ [GetComment (id data); GetIssueLink (issue_id data)])
    (comment_description_format data) pi = Raise e ->
  one_comment digest_hex int_of_str w data s
  = (Ok tt,
     {| db := db s;
        trace := trace s ++
          [GetComment (id data); GetIssueLink (issue_id data);
           AddComment pi (comment_description_format data);
           SendAlert (CommentAddFailed (issue_id data))] |}).
Proof.
  intros Hw Hnone Hlink Hpi Hadd.
  unfold one_comment, bind, repo_get_comment, get_comment.
  rewrite Hw, Hnone.
  unfold new_comment, bind, repo_get_issue_link. rewrite Hw.
  cbn [record trace db].
  unfold Repository.get_issue_link. rewrite Hlink.
  unfold try_except, bind. rewrite Hpi. cbn [subscript ret].
  unfold planfix_add_comment. cbn [record trace db].
  rewrite <- app_assoc. cbn [app]. rewrite Hadd.
  cbn [Sync.Exception]. same_state.
Qed.

(** X23.  When the destination accepted a new comment and the store
    write then raises, the failure is reported and the comment stays
    unrecorded although the destination has it; a later pass in which
    the store answers and the destination accepts adds the comment to
    the destination a second time. *)
Theorem unrecorded_comment_is_added_again (w : world) (data : comment)
    (l : Repository.link_rec) (pi : Z) (cid : string) (e : exn) (s : state) :
  redis_fault w (trace s) (GetComment (id data)) = None ->
  redis_fault w (trace s ++ [GetComment (id data)])
    (GetIssueLink (issue_id data)) = None ->
  comment_links (db s) !! id data = None ->
  Repository.links (base (db s)) !! issue_id data = Some l ->
  Repository.p_issue l = Some pi ->
  add_comment w
    (trace s ++ [GetComment (id data); GetIssueLink (issue_id data)])
    (comment_description_format data) pi = Ok cid ->
  redis_fault w
    (trace s ++ [GetComment (id data); GetIssueLink (issue_id data);
                 AddComment pi (comment_description_format data)])
    (UpsertComment (id data) cid (str_of_int pi) (fingerprint data))
  = Some e ->
  one_comment digest_hex int_of_str w data s
  = (Ok tt,
     {| db := db s;
        trace := trace s ++
          [GetComment (id data); GetIssueLink (issue_id data);
           AddComment pi (comment_description_format data);
           UpsertComment (id data) cid (str_of_int pi) (fingerprint data);
           SendAlert (CommentAddFailed (issue_id data))] |}) /\
  forall w' t cid',
    answers w' ->
    add_comment w'
      (t ++ [GetComment (id data); GetIssueLink (issue_id data)])
      (comment_description_format data) pi = Ok cid' ->
    exists r',
      one_comment digest_hex int_of_str w' data {| db := db s; trace := t |}
      = (Ok tt,
         {| db := r';
            trace := t ++
              [GetComment (id data); GetIssueLink (issue_id data);
               AddComment pi (comment_description_format data);
               UpsertComment (id data) cid' (str_of_int pi)
                 (fingerprint data)] |}).
Proof.
  intros Hf1 Hf2 Hnone Hlink Hpi Hadd Hfault.
  split.
  - unfold one_comment, bind, repo_get_comment, get_comment.
    rewrite Hf1, Hnone.
    unfold new_comment, bind, repo_get_issue_link.
    cbn [record trace db]. rewrite Hf2.
    unfold Repository.get_issue_link. rewrite Hlink.
    unfold try_except, bind. rewrite Hpi. cbn [subscript ret].
    unfold planfix_add_comment. cbn [record trace db].
    rewrite <- ?app_assoc. cbn [app]. rewrite Hadd.
    unfold repo_upsert_comment. cbn [record trace db str].
    fold (fingerprint data). rewrite <- ?app_assoc. cbn [app].
    rewrite Hfault. cbn [Sync.Exception]. same_state.
  - intros w' t cid' Hw' Hadd'.
    exists (fst (upsert_comment (db s) (id data) (PStr cid') (PInt pi)
                   (fingerprint data))).
    unfold one_comment, bind, repo_get_comment, get_comment.
    rewrite Hw'. cbn [db trace]. rewrite Hnone.
    unfold new_comment, bind, repo_get_issue_link. rewrite Hw'.
    cbn [record trace db].
    unfold Repository.get_issue_link. rewrite Hlink.
    unfold try_except, bind. rewrite Hpi. cbn [subscript ret].
    unfold planfix_add_comment. cbn [record trace db].
    rewrite <- ?app_assoc. cbn [app]. rewrite Hadd'.
    unfold repo_upsert_comment. rewrite Hw'. cbn [record trace db].
    fold (fingerprint data).
    destruct (upsert_comment (db s) (id data) (PStr cid') (PInt pi)
                (fingerprint data)) as [r1 is_new].
    cbn [fst str ret]. same_state.
Qed.

(** X24.  A comment the store does not know, on an issue without a
    link: the missing link is reported, the destination is not called
    and nothing is written. *)
Theorem comment_without_link_is_reported (w : world) (data : comment)
    (s : state) :
  answers w ->
  comment_links (db s) !! id data = None ->
  Repository.links (base (db s)) !! issue_id data = None ->
  one_comment digest_hex int_of_str w data s
  = (Ok tt,
     {| db := db s;
        trace := trace s ++
          [GetComment (id data); GetIssueLink (issue_id data);
           SendAlert (LinkMissing (issue_id data))] |}).
Proof.
  intros Hw Hnone Hlink.
  unfold one_comment, bind, repo_get_comment, get_comment.
  rewrite Hw, Hnone.
  unfold new_comment, bind, repo_get_issue_link. rewrite Hw.
  cbn [record trace db].
  unfold Repository.get_issue_link. rewrite Hlink.
  same_state.
Qed.

(** X25.  A comment whose record holds another fingerprint: the
    destination is updated first.  When it accepts, the new fingerprint
    is stored under the same ids; when it raises [RuntimeError], the
    failure is reported, the store stays as it was and the loop goes
    on; any other exception leaves the comment phase with the store as
    it was. *)
Theorem changed_comment_updates_destination_first (w : world)
    (data : comment) (rec : comment_rec) (zp zpi : Z) (ps pis stored : string)
    (s : state) :
  answers w ->
  comment_links (db s) !! id data = Some rec ->
  comment_p_id rec = Some ps -> int_of_str ps = Some zp ->
  p_issue_id rec = Some pis -> int_of_str pis = Some zpi ->
  h_description rec = Some stored ->
  Hash.hashes_equal (Some stored) (Some (fingerprint data)) = false ->
  one_comment digest_hex int_of_str w data s
  = match update_comment w (trace s ++ [GetComment (id data)])
            (comment_description_format data) zp with
    | Ok _ =>
        (Ok tt,
         {| db := fst (upsert_comment (db s) (id data) (PInt zp) (PInt zpi)
                         (fingerprint data));
            trace := trace s ++
              [GetComment (id data);
               UpdateComment zp (comment_description_format data);
               UpsertComment (id data) (str_of_int zp) (str_of_int zpi)
                 (fingerprint data)] |})
    | Raise RuntimeError =>
        (Ok tt,
         {| db := db s;
            trace := trace s ++
              [GetComment (id data);
               UpdateComment zp (comment_description_format data);
               SendAlert (CommentUpdateFailed (issue_id data))] |})
    | Raise e =>
        (Raise e,
         {| db := db s;
            trace := trace s ++
              [GetComment (id data);
               UpdateComment zp (comment_description_format data)] |})
    end.
Proof.
  intros Hw Hrec Hp Hzp Hpi Hzpi Hd Hne.
  unfold one_comment, bind, repo_get_comment, get_comment.
  rewrite Hw, Hrec, Hp, Hpi. cbn [int_field]. rewrite Hzp, Hzpi.
  unfold known_comment, bind. cbn [link_h_description]. rewrite Hd.
  cbn [subscript ret]. fold (fingerprint data). rewrite Hne. cbn [negb].
  unfold try_except, bind.
  cbn [link_comment_p_id link_p_issue_id subscript ret].
  unfold planfix_update_comment. cbn [record trace db].
  destruct (update_comment w (trace s ++ [GetComment (id data)])
              (comment_description_format data) zp) as [u|e].
  - unfold repo_upsert_comment. rewrite Hw. cbn [record trace db str].
    destruct (upsert_comment (db s) (id data) (PInt zp) (PInt zpi)
                (fingerprint data)) as [r1 is_new].
    cbn [fst ret]. same_state.
  - destruct e; cbn [Sync.is_RuntimeError]; same_state.
Qed.

End OneComment.

(** ** A comment, a store and collaborators for running examples *)

Module CommentScenarios.
Import Comments.

(** A stand-in for the digest in examples: the text itself after a
    mark, as a byte string. *)
Definition text_as_digest (t : Hash.text) : string :=
  String "h" (string_of_list_ascii (map ascii_of_N t)).

Definition a_remark : comment :=
  {| id := "10042"; issue_id := 1; author := Hash.of_string "Ann";
     created := Hash.of_string "2024-05-01T10:00:00.000+0700";
     description := Some (Hash.of_string "<p>Done</p>") |}.

Definition the_fingerprint : string :=
  @fingerprint Hash.ascii_lib text_as_digest a_remark.

(** Issue 1 is linked to task 5; no comment is recorded. *)
Definition linked : store :=
  {| base := Repository.upsert_issue_link (Repository.empty_redis 100) 1 5;
     comment_links := ∅ |}.

Definition the_link : Repository.link_rec :=
  {| Repository.l_created_at := Some 100; Repository.j_issue := Some 1;
     Repository.p_issue := Some 5 |}.

(** The record of [a_remark] as comment 77 of task 5, with the given
    fingerprint. *)
Definition recorded (h : string) : comment_rec :=
  {| created_at := Some 100; h_description := Some h;
     comment_j_id := Some "10042"%string; comment_p_id := Some "77"%string;
     p_issue_id := Some "5"%string |}.

Definition known (h : string) : store :=
  {| base := base linked; comment_links := <["10042"%string := recorded h]> ∅ |}.

Definition accepting : world :=
  {| redis_fault := fun _ _ => None;
     get_issue_comments := fun _ => Ok [a_remark];
     update_comment := fun _ _ _ => Ok tt;
     add_comment := fun _ _ _ => Ok "77"%string |}.

Definition refusing : world :=
  {| redis_fault := fun _ _ => None;
     get_issue_comments := fun _ => Ok [a_remark];
     update_comment := fun _ _ _ => Raise RuntimeError;
     add_comment := fun _ _ _ => Raise RuntimeError |}.

(** The store raises on every write of a comment link. *)
Definition read_only : world :=
  {| redis_fault := fun _ e =>
       match e with
       | UpsertComment _ _ _ _ => Some OtherException
       | _ => None
       end;
     get_issue_comments := fun _ => Ok [a_remark];
     update_comment := fun _ _ _ => Ok tt;
     add_comment := fun _ _ _ => Ok "77"%string |}.

Definition one (w : world) (s : state) : outcome unit * state :=
  @one_comment Hash.ascii_lib text_as_digest decimal_int w a_remark s.

Definition from (r : store) : state := {| db := r; trace := [] |}.

End CommentScenarios.

Section CommentExamples.
Import Comments CommentScenarios.

Lemma unchanged_comment_is_skipped_witness :
  one accepting (from (known the_fingerprint))
  = (Ok tt, record (GetComment "10042") (from (known the_fingerprint))).
Proof.
  apply (@unchanged_comment_is_skipped Hash.ascii_lib text_as_digest
           decimal_int accepting a_remark (recorded the_fingerprint) 77 5
           "77" "5" (from (known the_fingerprint))).
  - reflexivity.
  - apply lookup_insert_eq.
  - reflexivity.
  - reflexivity.
  - reflexivity.
  - reflexivity.
  - reflexivity.
Defined.

Lemma new_comment_is_added_once_witness :
  exists r',
    one accepting (from linked)
    = (Ok tt,
       {| db := r';
          trace := [] ++
            [GetComment "10042"; GetIssueLink 1;
             AddComment 5 (comment_description_format a_remark);
             UpsertComment "10042" "77" (str_of_int 5) the_fingerprint] |}) /\
    base r' = base linked /\
    forall w' t,
      redis_fault w' t (GetComment "10042") = None ->
      @one_comment Hash.ascii_lib text_as_digest decimal_int w' a_remark
        {| db := r'; trace := t |}
      = (Ok tt, {| db := r'; trace := t ++ [GetComment "10042"] |}).
Proof.
  apply (@new_comment_is_added_once Hash.ascii_lib text_as_digest decimal_int
           accepting a_remark the_link 5 77 "77" (from linked)).
  - intros t e. reflexivity.
  - reflexivity.
  - reflexivity.
  - reflexivity.
  - reflexivity.
  - reflexivity.
  - reflexivity.
  - discriminate.
Defined.

Lemma refused_comment_is_not_recorded_witness :
  one refusing (from linked)
  = (Ok tt,
     {| db := linked;
        trace := [] ++
          [GetComment "10042"; GetIssueLink 1;
           AddComment 5 (comment_description_format a_remark);
           SendAlert (CommentAddFailed 1)] |}).
Proof.
  apply (@refused_comment_is_not_recorded Hash.ascii_lib text_as_digest
           decimal_int refusing a_remark the_link 5 RuntimeError
           (from linked)).
  - intros t e. reflexivity.
  - reflexivity.
  - reflexivity.
  - reflexivity.
  - reflexivity.
Defined.

Lemma unrecorded_comment_is_added_again_witness :
  one read_only (from linked)
  = (Ok tt,
     {| db := linked;
        trace := [] ++
          [GetComment "10042"; GetIssueLink 1;
           AddComment 5 (comment_description_format a_remark);
           UpsertComment "10042" "77" (str_of_int 5) the_fingerprint;
           SendAlert (CommentAddFailed 1)] |}) /\
  forall w' t cid',
    answers w' ->
    add_comment w' (t ++ [GetComment "10042"; GetIssueLink 1])
      (comment_description_format a_remark) 5 = Ok cid' ->
    exists r',
      @one_comment Hash.ascii_lib text_as_digest decimal_int w' a_remark
        {| db := linked; trace := t |}
      = (Ok tt,
         {| db := r';
            trace := t ++
              [GetComment "10042"; GetIssueLink 1;
               AddComment 5 (comment_description_format a_remark);
               UpsertComment "10042" cid' (str_of_int 5) the_fingerprint] |}).
Proof.
  apply (@unrecorded_comment_is_added_again Hash.ascii_lib text_as_digest
           decimal_int read_only a_remark the_link 5 "77" OtherException
           (from linked)).
  - reflexivity.
  - reflexivity.
  - reflexivity.
  - reflexivity.
  - reflexivity.
  - reflexivity.
  - reflexivity.
Defined.

Lemma comment_without_link_is_reported_witness :
  one accepting (from (empty_store 100))
  = (Ok tt,
     {| db := empty_store 100;
        trace := [] ++ [GetComment "10042"; GetIssueLink 1;
                        SendAlert (LinkMissing 1)] |}).
Proof.
  apply (@comment_without_link_is_reported Hash.ascii_lib text_as_digest
           decimal_int accepting a_remark (from (empty_store 100))).
  - intros t e. reflexivity.
  - reflexivity.
  - reflexivity.
Defined.

Lemma changed_comment_updates_destination_first_witness :
  one refusing (from (known "old"))
  = (Ok tt,
     {| db := known "old";
        trace := [] ++
          [GetComment "10042";
           UpdateComment 77 (comment_description_format a_remark);
           SendAlert (CommentUpdateFailed 1)] |}).
Proof.
  apply (@changed_comment_updates_destination_first Hash.ascii_lib
           text_as_digest decimal_int refusing a_remark (recorded "old") 77 5
           "77" "5" "old" (from (known "old"))).
  - intros t e. reflexivity.
  - apply lookup_insert_eq.
  - reflexivity.
  - reflexivity.
  - reflexivity.
  - reflexivity.
  - reflexivity.
  - reflexivity.
Defined.

End CommentExamples.

(** * The comment phase as a whole *)

Section CommentPass.
Import Comments.
Context {L : Hash.TextLib}.
Variable digest_hex : Hash.text -> string.
Variable int_of_str : string -> option Z.
Variable w : world.

Lemma gather_raises {A} (l : list (outcome A)) (e : exn) :
  In (Raise e) l -> exists e', gather l = Raise e'.
Proof.
  induction l as [|[a|e0] rest IH]; intros Hin; [destruct Hin| |].
  - destruct Hin as [Hin|Hin]; [discriminate|].
    destruct (IH Hin) as (e' & E). exists e'. cbn. now rewrite E.
  - exists e0. reflexivity.
Qed.

(** X26.  When the comments of one issue cannot be fetched, the phase
    raises before it looks at any comment: no comment of any issue is
    compared, added or updated in this pass. *)
Theorem failed_fetch_skips_all_comments (jira_issues_data : list Sync.jira_issue)
    (i : Sync.jira_issue) (e : exn) (s : state) :
  In i jira_issues_data ->
  get_issue_comments w (Sync.id i) = Raise e ->
  exists e',
    comments digest_hex int_of_str w jira_issues_data s = (Raise e', s).
Proof.
  intros Hin Hraise. unfold comments.
  destruct (gather_raises
              (map (fun i => get_issue_comments w (Sync.id i))
                 jira_issues_data) e) as (e' & E).
  - apply in_map_iff. exists i. split; [exact Hraise | exact Hin].
  - exists e'. now rewrite E.
Qed.

(** What no step of the phase does: touch the issue records or the
    links, or remove a comment record. *)
Definition frames {A} (m : M A) : Prop :=
  forall s,
    base (db (snd (m s))) = base (db s) /\
    dom (comment_links (db s)) ⊆ dom (comment_links (db (snd (m s)))).

Lemma frames_ret {A} (a : A) : frames (ret a).
Proof. intros s. split; [reflexivity | set_solver]. Qed.

Lemma frames_raise {A} (e : exn) : frames (@raise A e).
Proof. intros s. split; [reflexivity | set_solver]. Qed.

Lemma frames_bind {A B} (m : M A) (k : A -> M B) :
  frames m -> (forall a, frames (k a)) -> frames (bind m k).
Proof.
  intros Hm Hk s. unfold bind. specialize (Hm s).
  destruct (m s) as [[a|e] s1]; cbn [snd] in *; [|exact Hm].
  specialize (Hk a s1). destruct Hm as [Hb Hd], Hk as [Hb' Hd'].
  split; [congruence | set_solver].
Qed.

Lemma frames_try_except {A} (m : M A) (caught : exn -> bool) (h : M A) :
  frames m -> frames h -> frames (try_except m caught h).
Proof.
  intros Hm Hh s. unfold try_except. specialize (Hm s).
  destruct (m s) as [[a|e] s1]; cbn [snd] in *; [exact Hm|].
  destruct (caught e); [|exact Hm].
  specialize (Hh s1). destruct Hm as [Hb Hd], Hh as [Hb' Hd'].
  split; [congruence | set_solver].
Qed.

Lemma frames_send_alert (a : alert) : frames (send_alert_to_chat a).
Proof. intros s. split; [reflexivity | set_solver]. Qed.

Lemma frames_subscript {A} (v : option A) : frames (subscript v).
Proof. destruct v; [apply frames_ret | apply frames_raise]. Qed.

Lemma frames_get_comment (j : string) :
  frames (repo_get_comment int_of_str w j).
Proof.
  intros s. unfold repo_get_comment.
  destruct (redis_fault w (trace s) (GetComment j));
    (split; [reflexivity | set_solver]).
Qed.

Lemma frames_get_issue_link (j : Z) : frames (repo_get_issue_link w j).
Proof.
  intros s. unfold repo_get_issue_link.
  destruct (redis_fault w (trace s) (GetIssueLink j));
    (split; [reflexivity | set_solver]).
Qed.

Lemma frames_upsert_comment (j : string) (p pi : int_or_str) (h : string) :
  frames (repo_upsert_comment w j p pi h).
Proof.
  intros s. unfold repo_upsert_comment.
  destruct (redis_fault w (trace s) _);
    [split; [reflexivity | set_solver]|].
  unfold upsert_comment.
  destruct (UPSERT_COMMENT_LUA _ _ _ _ _ _) as [rec is_new].
  cbn [snd db base comment_links]. split; [reflexivity|].
  rewrite dom_insert. set_solver.
Qed.

Lemma frames_update_comment (d : Hash.text) (c : Z) :
  frames (planfix_update_comment w d c).
Proof. intros s. split; [reflexivity | set_solver]. Qed.

Lemma frames_add_comment (d : Hash.text) (p : Z) :
  frames (planfix_add_comment w d p).
Proof. intros s. split; [reflexivity | set_solver]. Qed.

Lemma frames_for_each {A} (body : A -> M unit) (l : list A) :
  (forall a, frames (body a)) -> frames (for_each body l).
Proof.
  intros Hb. induction l as [|a rest IH]; [apply frames_ret|].
  cbn [for_each]. apply frames_bind; [apply Hb | intros _; exact IH].
Qed.

Lemma frames_one_comment (data : comment) :
  frames (one_comment digest_hex int_of_str w data).
Proof.
  unfold one_comment. apply frames_bind; [apply frames_get_comment|].
  intros [rc|].
  - unfold known_comment. apply frames_bind; [apply frames_subscript|].
    intros stored. destruct (negb _); [|apply frames_ret].
    apply frames_try_except; [|apply frames_send_alert].
    apply frames_bind; [apply frames_subscript|]. intros p.
    apply frames_bind; [apply frames_update_comment|]. intros _.
    apply frames_bind; [apply frames_subscript|]. intros pi.
    apply frames_bind; [apply frames_upsert_comment|]. intros _.
    apply frames_ret.
  - unfold new_comment. apply frames_bind; [apply frames_get_issue_link|].
    intros [l|]; [|apply frames_send_alert].
    apply frames_try_except; [|apply frames_send_alert].
    apply frames_bind; [apply frames_subscript|]. intros pi.
    apply frames_bind; [apply frames_add_comment|]. intros cid.
    apply frames_bind; [apply frames_upsert_comment|]. intros _.
    apply frames_ret.
Qed.

(** X27.  Whatever the collaborators answer and however the phase ends,
    [comments] leaves the issue records, the links and the clock of the
    store as they were, and every comment record that was there is
    still there. *)
Theorem comments_keeps_records (jira_issues_data : list Sync.jira_issue)
    (s : state) :
  let s' := snd (comments digest_hex int_of_str w jira_issues_data s) in
  base (db s') = base (db s) /\
  dom (comment_links (db s)) ⊆ dom (comment_links (db s')).
Proof.
  revert s. change (frames (comments digest_hex int_of_str w jira_issues_data)).
  unfold comments.
  destruct (gather _) as [comments_data|e]; [|apply frames_raise].
  destruct (negb (bool_of_nil comments_data)); [|apply frames_ret].
  apply frames_for_each. intros comment_list.
  destruct (negb (bool_of_nil comment_list)); [|apply frames_ret].
  apply frames_for_each. apply frames_one_comment.
Qed.

End CommentPass.

Lemma failed_fetch_skips_all_comments_witness :
  exists e',
    @Comments.comments Hash.ascii_lib CommentScenarios.text_as_digest
      decimal_int
      {| Comments.redis_fault := fun _ _ => None;
         Comments.get_issue_comments := fun i =>
           if i =? 2 then Raise OtherException
           else Ok [CommentScenarios.a_remark];
         Comments.update_comment := fun _ _ _ => Ok tt;
         Comments.add_comment := fun _ _ _ => Ok "77"%string |}
      [an_issue 1; an_issue 2]
      (CommentScenarios.from CommentScenarios.linked)
    = (Raise e', CommentScenarios.from CommentScenarios.linked).
Proof.
  apply (@failed_fetch_skips_all_comments Hash.ascii_lib
           CommentScenarios.text_as_digest decimal_int _
           [an_issue 1; an_issue 2] (an_issue 2) OtherException).
  - right. left. reflexivity.
  - reflexivity.
Defined.
